(** * JobFinder: job store, scan controller and evaluation dispatcher

    A shallow embedding of [database.py], [utils.py] and [evaluate.py].
    Python integers are [Z]; the URLs that the id extraction reads are
    sequences of Unicode code points, the other Python strings are
    [string] (code points below 256); SQLite tables are lists of rows in
    rowid order together with their [sqlite_sequence] counter; exceptions
    are values of [exn] carried by the [res] type. The interpreter is
    CPython 3.11 with its [sqlite3] and [re] modules. *)

From Stdlib Require Import ZArith Ascii String DecimalString.
From stdpp Require Import base list strings gmap.

Local Open Scope string_scope.
Local Open Scope list_scope.
Local Open Scope Z_scope.

(** ** Exceptions and results *)

Inductive exn :=
| OperationalError (msg : string)   (* sqlite3.OperationalError *)
| OverflowError (msg : string)
| ImportError (msg : string)
| RuntimeError (msg : string)
| ValueError (msg : string)
| ProviderError (msg : string)      (* raised by a provider client *)
| JSONDecodeError (msg : string).

(** [str(e)], as used by the f-strings of the handlers. *)
Definition str (e : exn) : string :=
  match e with
  | OperationalError m | OverflowError m | ImportError m | RuntimeError m
  | ValueError m | ProviderError m | JSONDecodeError m => m
  end.

Inductive res (A : Type) :=
| Ok (a : A)
| Raise (e : exn).
Arguments Ok {A} a.
Arguments Raise {A} e.

Definition is_raise {A} (r : res A) : bool :=
  match r with Raise _ => true | Ok _ => false end.

(** ** The persisted store (database.py) *)

Module Db.

Definition timestamp := string.

(** Admin user ID for single-user mode. *)
Definition ADMIN_USER_ID : Z := 1.

(** *** Integers

    A Python int is unbounded, an SQLite INTEGER is a signed 64-bit
    integer. A job id reaches the store as a parameter of a statement:
    [sqlite3] converts it, and raises OverflowError when it does not fit.
    So the job_id column holds values of [int64], and [execute] below
    refuses a statement whose job id is out of range. Rowids are handed
    out by SQLite; they are kept in [Z], which leaves out that a table
    whose AUTOINCREMENT sequence has reached 2^63 - 1 takes no more rows,
    and a rowid given as a parameter is bound as it is. *)
Definition fits_int64 (z : Z) : bool :=
  (-9223372036854775808 <=? z) && (z <=? 9223372036854775807).

Record int64 := { int64_val :> Z; int64_fits : fits_int64 int64_val = true }.

(** The conversion of a Python int to an SQLite INTEGER. *)
Definition to_int64 (z : Z) : option int64 :=
  match fits_int64 z as b return fits_int64 z = b -> option int64 with
  | true => fun H => Some {| int64_val := z; int64_fits := H |}
  | false => fun _ => None
  end eq_refl.

Record user := {
  u_id : Z; u_email : string; u_name : string }.

Record discovered_job := {
  dj_id : Z;
  dj_user_id : Z;
  dj_job_id : int64;
  dj_url : string;
  dj_location : string;
  dj_keyword : string;
  dj_title : option string;
  dj_description : option string;
  dj_analyzed : bool;
  dj_date_discovered : timestamp }.

Record approved_job := {
  aj_id : Z;
  aj_user_id : Z;
  aj_discovered_job_id : Z;
  aj_reason : option string;
  aj_date_approved : timestamp;
  aj_date_applied : option timestamp;
  aj_is_archived : option bool }.

Record scan_control := {
  sc_id : Z;
  sc_user_id : Z;
  sc_stop_scan_flag : bool;
  sc_scan_active : bool }.

(** A table with an INTEGER PRIMARY KEY AUTOINCREMENT column: its rows
    and the largest rowid ever handed out ([sqlite_sequence]). *)
Record table (A : Type) := { rows : list A; seq : Z }.
Arguments rows {A} t.
Arguments seq {A} t.

Record db := {
  users : list user;
  discovered_jobs : table discovered_job;
  approved_jobs : table approved_job;
  user_scan_control : table scan_control }.

Definition empty_table {A} : table A := {| rows := []; seq := 0 |}.

Definition empty_db : db :=
  {| users := []; discovered_jobs := empty_table;
     approved_jobs := empty_table; user_scan_control := empty_table |}.

(** The rowid AUTOINCREMENT picks: one more than the largest rowid the
    table holds or ever held. *)
Definition next_id {A} (key : A -> Z) (t : table A) : Z :=
  foldr Z.max (seq t) (key <$> rows t) + 1.

Definition tinsert {A} (key : A -> Z) (mk : Z -> A) (t : table A) : table A :=
  let i := next_id key t in {| rows := rows t ++ [mk i]; seq := i |}.

Definition tfilter {A} (keep : A -> bool) (t : table A) : table A :=
  {| rows := List.filter keep (rows t); seq := seq t |}.

Definition tmap {A} (f : A -> A) (t : table A) : table A :=
  {| rows := f <$> rows t; seq := seq t |}.

Definition count {A} (p : A -> bool) (t : table A) : nat :=
  length (List.filter p (rows t)).

(** *** Row predicates of the WHERE clauses *)

Definition dj_is (u j : Z) (r : discovered_job) : bool :=
  (dj_user_id r =? u) && (dj_job_id r =? j).

Definition dj_of (u : Z) (r : discovered_job) : bool := dj_user_id r =? u.

Definition aj_for (u d : Z) (r : approved_job) : bool :=
  (aj_user_id r =? u) && (aj_discovered_job_id r =? d).

Definition aj_pk (u pk : Z) (r : approved_job) : bool :=
  (aj_user_id r =? u) && (aj_id r =? pk).

Definition aj_of (u : Z) (r : approved_job) : bool := aj_user_id r =? u.

Definition is_none {A} (o : option A) : bool :=
  match o with None => true | Some _ => false end.

(** [user_id = ? AND id = ? AND date_applied IS NULL] *)
Definition aj_unapplied (u pk : Z) (r : approved_job) : bool :=
  aj_pk u pk r && is_none (aj_date_applied r).

(** [user_id = ? AND date_applied IS NOT NULL AND
     (is_archived IS NULL OR is_archived = FALSE)] *)
Definition aj_archivable (u : Z) (r : approved_job) : bool :=
  aj_of u r && negb (is_none (aj_date_applied r)) &&
  match aj_is_archived r with None | Some false => true | Some true => false end.

Definition sc_of (u : Z) (r : scan_control) : bool := sc_user_id r =? u.

(** *** The SQL statements of database.py, with their bound parameters *)

Inductive sql :=
| SelectMasterTables
| CreateTableIfNotExists (name : string)
| SelectUser (id : Z)
| InsertAdminUser (id : Z)
| InsertOrIgnoreDiscovered (u j : Z) (url location keyword : string)
| SelectTitle (u j : Z)
| UpdateDetails (title desc : option string) (u j : Z)
| UpdateAnalyzed (u j : Z)
| SelectDiscoveredId (u j : Z)
| InsertOrIgnoreApproved (u d : Z) (reason : string)
| UpdateApplied (u pk : Z)
| DeleteApproved (u pk : Z)
| DeleteApprovedOf (u : Z)
| DeleteDiscoveredOf (u : Z)
| UpdateArchived (u : Z)
| InsertOrReplaceStopFlag (u : Z) (stop : bool)
| SelectStopFlag (u : Z)
| InsertOrReplaceScanActive (u : Z) (active : bool)
| SelectScanActive (u : Z).

Inductive sqlval := Null | Int (z : Z) | Text (s : string).

Definition of_text (o : option string) : sqlval :=
  match o with None => Null | Some s => Text s end.

Definition of_bool (b : bool) : sqlval := Int (if b then 1 else 0).

(** Python's [bool(v)] on a fetched column. *)
Definition truthy (v : sqlval) : bool :=
  match v with
  | Null => false
  | Int z => negb (z =? 0)
  | Text s => negb (String.eqb s EmptyString)
  end.

(** A cursor: [rowcount] (-1 after a SELECT) and the result rows, each a
    one-column [sqlite3.Row] in every query of this module. *)
Record cursor := { rowcount : Z; result : list sqlval }.

Definition fetchone (c : cursor) : option sqlval := head (result c).

Definition selected (vs : list sqlval) : cursor :=
  {| rowcount := -1; result := vs |}.

Definition changed (n : nat) : cursor :=
  {| rowcount := Z.of_nat n; result := [] |}.

Definition with_users (d : db) (us : list user) : db :=
  {| users := us; discovered_jobs := discovered_jobs d;
     approved_jobs := approved_jobs d; user_scan_control := user_scan_control d |}.

Definition with_discovered (d : db) (t : table discovered_job) : db :=
  {| users := users d; discovered_jobs := t;
     approved_jobs := approved_jobs d; user_scan_control := user_scan_control d |}.

Definition with_approved (d : db) (t : table approved_job) : db :=
  {| users := users d; discovered_jobs := discovered_jobs d;
     approved_jobs := t; user_scan_control := user_scan_control d |}.

Definition with_scan_control (d : db) (t : table scan_control) : db :=
  {| users := users d; discovered_jobs := discovered_jobs d;
     approved_jobs := approved_jobs d; user_scan_control := t |}.

(** The tables of the schema. A value of type [db] is a store in which
    the five of them exist, so the query on [sqlite_master] finds them
    all and CREATE TABLE IF NOT EXISTS changes nothing. *)
Definition required_tables : list string :=
  ["users"; "discovered_jobs"; "approved_jobs"; "user_configs"; "user_scan_control"].

(** The job id among the parameters of a statement. *)
Definition job_id_parameter (q : sql) : option Z :=
  match q with
  | InsertOrIgnoreDiscovered _ j _ _ _ | SelectTitle _ j | UpdateDetails _ _ _ j
  | UpdateAnalyzed _ j | SelectDiscoveredId _ j => Some j
  | _ => None
  end.

(** [sqlite3] can bind the parameters of the statement. *)
Definition binds (q : sql) : bool :=
  match job_id_parameter q with
  | Some j => fits_int64 j
  | None => true
  end.

(** One statement, its parameters bound, run against the working copy
    of the store; [now] is the value of CURRENT_TIMESTAMP. Foreign keys are
    declared but not enforced (the connection never turns the pragma
    on). *)
Definition run (now : timestamp) (q : sql) (d : db) : cursor * db :=
  match q with
  | SelectMasterTables => (selected (Text <$> required_tables), d)
  | CreateTableIfNotExists _ => (selected [], d)
  | SelectUser id =>
      (selected ((fun r => Int (u_id r)) <$> List.filter (fun r => u_id r =? id) (users d)), d)
  | InsertAdminUser id =>
      (changed 1,
       with_users d (users d ++ [{| u_id := id; u_email := "admin@localhost";
                                    u_name := "Admin User" |}]))
  | InsertOrIgnoreDiscovered u j url location keyword =>
      let t := discovered_jobs d in
      match to_int64 j with
      | Some job_id =>
          if existsb (dj_is u j) (rows t) then (changed 0, d)
          else (changed 1,
                with_discovered d (tinsert dj_id (fun i =>
                  {| dj_id := i; dj_user_id := u; dj_job_id := job_id; dj_url := url;
                     dj_location := location; dj_keyword := keyword;
                     dj_title := None; dj_description := None;
                     dj_analyzed := false; dj_date_discovered := now |}) t))
      | None => (changed 0, d)   (* not reached: [execute] has bound [j] *)
      end
  | SelectTitle u j =>
      (selected ((fun r => of_text (dj_title r)) <$>
                   List.filter (dj_is u j) (rows (discovered_jobs d))), d)
  | UpdateDetails title desc u j =>
      let t := discovered_jobs d in
      (changed (count (dj_is u j) t),
       with_discovered d (tmap (fun r =>
         if dj_is u j r then
           {| dj_id := dj_id r; dj_user_id := dj_user_id r; dj_job_id := dj_job_id r;
              dj_url := dj_url r; dj_location := dj_location r;
              dj_keyword := dj_keyword r; dj_title := title;
              dj_description := desc; dj_analyzed := dj_analyzed r;
              dj_date_discovered := dj_date_discovered r |}
         else r) t))
  | UpdateAnalyzed u j =>
      let t := discovered_jobs d in
      (changed (count (dj_is u j) t),
       with_discovered d (tmap (fun r =>
         if dj_is u j r then
           {| dj_id := dj_id r; dj_user_id := dj_user_id r; dj_job_id := dj_job_id r;
              dj_url := dj_url r; dj_location := dj_location r;
              dj_keyword := dj_keyword r; dj_title := dj_title r;
              dj_description := dj_description r; dj_analyzed := true;
              dj_date_discovered := dj_date_discovered r |}
         else r) t))
  | SelectDiscoveredId u j =>
      (selected ((fun r => Int (dj_id r)) <$>
                   List.filter (dj_is u j) (rows (discovered_jobs d))), d)
  | InsertOrIgnoreApproved u dj reason =>
      let t := approved_jobs d in
      if existsb (aj_for u dj) (rows t) then (changed 0, d)
      else (changed 1,
            with_approved d (tinsert aj_id (fun i =>
              {| aj_id := i; aj_user_id := u; aj_discovered_job_id := dj;
                 aj_reason := Some reason; aj_date_approved := now;
                 aj_date_applied := None; aj_is_archived := Some false |}) t))
  | UpdateApplied u pk =>
      let t := approved_jobs d in
      (changed (count (aj_unapplied u pk) t),
       with_approved d (tmap (fun r =>
         if aj_unapplied u pk r then
           {| aj_id := aj_id r; aj_user_id := aj_user_id r;
              aj_discovered_job_id := aj_discovered_job_id r;
              aj_reason := aj_reason r; aj_date_approved := aj_date_approved r;
              aj_date_applied := Some now; aj_is_archived := aj_is_archived r |}
         else r) t))
  | DeleteApproved u pk =>
      let t := approved_jobs d in
      (changed (count (aj_pk u pk) t),
       with_approved d (tfilter (fun r => negb (aj_pk u pk r)) t))
  | DeleteApprovedOf u =>
      let t := approved_jobs d in
      (changed (count (aj_of u) t),
       with_approved d (tfilter (fun r => negb (aj_of u r)) t))
  | DeleteDiscoveredOf u =>
      let t := discovered_jobs d in
      (changed (count (dj_of u) t),
       with_discovered d (tfilter (fun r => negb (dj_of u r)) t))
  | UpdateArchived u =>
      let t := approved_jobs d in
      (changed (count (aj_archivable u) t),
       with_approved d (tmap (fun r =>
         if aj_archivable u r then
           {| aj_id := aj_id r; aj_user_id := aj_user_id r;
              aj_discovered_job_id := aj_discovered_job_id r;
              aj_reason := aj_reason r; aj_date_approved := aj_date_approved r;
              aj_date_applied := aj_date_applied r; aj_is_archived := Some true |}
         else r) t))
  | InsertOrReplaceStopFlag u stop =>
      let t := user_scan_control d in
      let i := next_id sc_id t in
      (changed 1,
       with_scan_control d
         {| rows := List.filter (fun r => negb (sc_of u r)) (rows t) ++
                    [{| sc_id := i; sc_user_id := u;
                        sc_stop_scan_flag := stop; sc_scan_active := false |}];
            seq := i |})
  | SelectStopFlag u =>
      (selected ((fun r => of_bool (sc_stop_scan_flag r)) <$>
                   List.filter (sc_of u) (rows (user_scan_control d))), d)
  | InsertOrReplaceScanActive u active =>
      let t := user_scan_control d in
      let i := next_id sc_id t in
      (changed 1,
       with_scan_control d
         {| rows := List.filter (fun r => negb (sc_of u r)) (rows t) ++
                    [{| sc_id := i; sc_user_id := u;
                        sc_stop_scan_flag := false; sc_scan_active := active |}];
            seq := i |})
  | SelectScanActive u =>
      (selected ((fun r => of_bool (sc_scan_active r)) <$>
                   List.filter (sc_of u) (rows (user_scan_control d))), d)
  end.


(** *** Connections and the atomic unit *)

(** What a call of the module cannot control: which of the persistence
    calls it makes fails (numbered from 0: [sqlite3.connect], then each
    [execute], then [commit]) and with what message, and the clock. *)
Record env := { fails : nat -> option string; now : timestamp }.

Definition reliable (ev : env) : Prop := forall n, fails ev n = None.

Definition steady (t : timestamp) : env := {| fails := fun _ => None; now := t |}.

(** An open connection: the working copy of the store, the number of
    persistence calls made so far, the statements that ran and the lines
    printed inside the with-block. *)
Record conn := {
  cur : db; calls : nat; executed : list sql; printed : list string }.

Definition Tx (A : Type) : Type := env -> conn -> res A * conn.

Definition tx_ret {A} (a : A) : Tx A := fun _ c => (Ok a, c).

Definition tx_bind {A B} (m : Tx A) (k : A -> Tx B) : Tx B :=
  fun ev c =>
    match m ev c with
    | (Ok a, c') => k a ev c'
    | (Raise e, c') => (Raise e, c')
    end.

Declare Scope tx_scope.
Delimit Scope tx_scope with tx.
Notation "'let*' x ':=' m 'in' k" := (tx_bind m (fun x => k))
  (at level 10, x binder, k at level 200) : tx_scope.

(** [conn.execute(sql, params)]: the call fails when the environment
    says so, raises OverflowError when a parameter cannot be bound, and
    runs the statement otherwise. *)
Definition execute (q : sql) : Tx cursor :=
  fun ev c =>
    match fails ev (calls c) with
    | Some m =>
        (Raise (OperationalError m),
         {| cur := cur c; calls := S (calls c);
            executed := executed c; printed := printed c |})
    | None =>
        if binds q then
          let '(k, d) := run (now ev) q (cur c) in
          (Ok k, {| cur := d; calls := S (calls c);
                    executed := executed c ++ [q]; printed := printed c |})
        else
          (Raise (OverflowError "Python int too large to convert to SQLite INTEGER"),
           {| cur := cur c; calls := S (calls c);
              executed := executed c; printed := printed c |})
    end.

Definition tx_print (line : string) : Tx unit :=
  fun _ c =>
    (Ok tt, {| cur := cur c; calls := calls c;
               executed := executed c; printed := printed c ++ [line] |}).

(** The process as the module sees it: the committed store, standard
    output, and the journal of the statements that connections ran
    (whether or not their transaction was committed). *)
Record world := { disk : db; out : list string; journal : list sql }.

Definition Op (A : Type) : Type := env -> world -> res A * world.

Definition op_ret {A} (a : A) : Op A := fun _ w => (Ok a, w).

Definition op_bind {A B} (m : Op A) (k : A -> Op B) : Op B :=
  fun ev w =>
    match m ev w with
    | (Ok a, w') => k a ev w'
    | (Raise e, w') => (Raise e, w')
    end.

Definition print (line : string) : Op unit :=
  fun _ w => (Ok tt, {| disk := disk w; out := out w ++ [line]; journal := journal w |}).

Declare Scope op_scope.
Delimit Scope op_scope with op.
Notation "'let*' x ':=' m 'in' k" := (op_bind m (fun x => k))
  (at level 10, x binder, k at level 200) : op_scope.

(** [try: m  except Exception as e: h e] *)
Definition try_except {A} (m : Op A) (h : exn -> Op A) : Op A :=
  fun ev w =>
    match m ev w with
    | (Ok a, w') => (Ok a, w')
    | (Raise e, w') => h e ev w'
    end.

(** [sqlite3.connect(DB_PATH)], [conn.commit()] and [conn.rollback()];
    what was printed and the statements that ran stay. *)
Definition connect (w : world) : conn :=
  {| cur := disk w; calls := 1; executed := []; printed := [] |}.

Definition commit (w : world) (c : conn) : world :=
  {| disk := cur c; out := out w ++ printed c; journal := journal w ++ executed c |}.

Definition rollback (w : world) (c : conn) : world :=
  {| disk := disk w; out := out w ++ printed c; journal := journal w ++ executed c |}.

(** [with get_conn() as conn: body]: commit on success, roll back and
    re-raise on error. *)
Definition get_conn {A} (body : Tx A) : Op A :=
  fun ev w =>
    match fails ev 0%nat with
    | Some m => (Raise (OperationalError m), w)
    | None =>
        let '(r, c) := body ev (connect w) in
        match r with
        | Raise e => (Raise e, rollback w c)
        | Ok a =>
            match fails ev (calls c) with
            | Some m => (Raise (OperationalError m), rollback w c)
            | None => (Ok a, commit w c)
            end
        end
    end.

(** *** The operations *)

Definition as_int (v : sqlval) : Z :=
  match v with Int z => z | _ => 0 end.

Definition is_null (v : sqlval) : bool :=
  match v with Null => true | _ => false end.

Definition ensure_admin_user : Tx unit :=
  (let* c := execute (SelectUser ADMIN_USER_ID) in
   match fetchone c with
   | Some _ => tx_ret tt
   | None => let* _ := execute (InsertAdminUser ADMIN_USER_ID) in tx_ret tt
   end)%tx.

Definition create_single_user_tables : Tx unit :=
  (let* _ := execute (CreateTableIfNotExists "users") in
   let* _ := execute (CreateTableIfNotExists "discovered_jobs") in
   let* _ := execute (CreateTableIfNotExists "approved_jobs") in
   let* _ := execute (CreateTableIfNotExists "user_configs") in
   let* _ := execute (CreateTableIfNotExists "user_scan_control") in
   tx_ret tt)%tx.

Definition init_db_tx : Tx unit :=
  (let* tables := execute SelectMasterTables in
   let table_names := result tables in
   let missing_tables :=
     List.filter (fun t => negb (existsb (fun v =>
        match v with Text n => String.eqb n t | _ => false end) table_names))
       required_tables in
   let* _ := match missing_tables with
             | [] => tx_ret tt
             | _ => create_single_user_tables
             end in
   let* _ := ensure_admin_user in
   tx_print "✅ Single-user database initialized")%tx.

Definition init_db : Op unit :=
  try_except (get_conn init_db_tx)
    (fun e => let* _ := print ("Error initializing database: " +:+ str e) in
              fun _ w => (Raise e, w))%op.

Definition insert_stub_tx (job_id : Z) (url location keyword : string) : Tx bool :=
  (let* cursor := execute (InsertOrIgnoreDiscovered ADMIN_USER_ID job_id url location keyword) in
   tx_ret (0 <? rowcount cursor))%tx.

Definition insert_stub (job_id : Z) (url location keyword : string) : Op bool :=
  try_except (get_conn (insert_stub_tx job_id url location keyword))
    (fun e => let* _ := print ("Error inserting job stub: " +:+ str e) in
              op_ret false)%op.

Definition row_missing_details_tx (job_id : Z) : Tx bool :=
  (let* c := execute (SelectTitle ADMIN_USER_ID job_id) in
   tx_ret match fetchone c with
          | None => true
          | Some title => is_null title
          end)%tx.

Definition row_missing_details (job_id : Z) : Op bool :=
  get_conn (row_missing_details_tx job_id).

Definition update_details_tx (job_id : Z) (title desc : option string) : Tx unit :=
  (let* _ := execute (UpdateDetails title desc ADMIN_USER_ID job_id) in tx_ret tt)%tx.

Definition update_details (job_id : Z) (title desc : option string) : Op unit :=
  get_conn (update_details_tx job_id title desc).

Definition mark_job_as_analyzed_tx (job_id : Z) : Tx unit :=
  (let* _ := execute (UpdateAnalyzed ADMIN_USER_ID job_id) in tx_ret tt)%tx.

Definition mark_job_as_analyzed (job_id : Z) : Op unit :=
  get_conn (mark_job_as_analyzed_tx job_id).

Definition approve_job_tx (linkedin_job_id : Z) (reason : string) : Tx bool :=
  (let* c := execute (SelectDiscoveredId ADMIN_USER_ID linkedin_job_id) in
   match fetchone c with
   | None => tx_ret false
   | Some id =>
       let* _ := execute (InsertOrIgnoreApproved ADMIN_USER_ID (as_int id) reason) in
       tx_ret true
   end)%tx.

Definition approve_job (linkedin_job_id : Z) (reason : string) : Op bool :=
  try_except (get_conn (approve_job_tx linkedin_job_id reason))
    (fun e => let* _ := print ("Error approving job: " +:+ str e) in
              op_ret false)%op.

Definition mark_job_as_applied_tx (approved_job_pk : Z) : Tx bool :=
  (let* cursor := execute (UpdateApplied ADMIN_USER_ID approved_job_pk) in
   tx_ret (0 <? rowcount cursor))%tx.

Definition mark_job_as_applied (approved_job_pk : Z) : Op bool :=
  try_except (get_conn (mark_job_as_applied_tx approved_job_pk))
    (fun e => let* _ := print ("Error marking job as applied: " +:+ str e) in
              op_ret false)%op.

Definition delete_approved_job_tx (approved_job_pk : Z) : Tx bool :=
  (let* cursor := execute (DeleteApproved ADMIN_USER_ID approved_job_pk) in
   tx_ret (0 <? rowcount cursor))%tx.

Definition delete_approved_job (approved_job_pk : Z) : Op bool :=
  try_except (get_conn (delete_approved_job_tx approved_job_pk))
    (fun e => let* _ := print ("Error deleting approved job: " +:+ str e) in
              op_ret false)%op.

Definition clear_all_approved_jobs_tx : Tx Z :=
  (let* cursor := execute (DeleteApprovedOf ADMIN_USER_ID) in
   tx_ret (rowcount cursor))%tx.

Definition clear_all_approved_jobs : Op Z := get_conn clear_all_approved_jobs_tx.

Definition clear_all_discovered_jobs_tx : Tx Z :=
  (* Delete approved jobs first (foreign key constraint) *)
  (let* _ := execute (DeleteApprovedOf ADMIN_USER_ID) in
   (* Then delete discovered jobs *)
   let* cursor := execute (DeleteDiscoveredOf ADMIN_USER_ID) in
   tx_ret (rowcount cursor))%tx.

Definition clear_all_discovered_jobs : Op Z :=
  try_except (get_conn clear_all_discovered_jobs_tx)
    (fun e => let* _ := print ("Error clearing discovered jobs: " +:+ str e) in
              op_ret 0)%op.

Definition archive_all_applied_jobs_tx : Tx Z :=
  (let* cursor := execute (UpdateArchived ADMIN_USER_ID) in
   tx_ret (rowcount cursor))%tx.

Definition archive_all_applied_jobs : Op Z := get_conn archive_all_applied_jobs_tx.

(** Scan control functions *)

Definition set_stop_scan_flag_tx (stop : bool) : Tx unit :=
  (let* _ := execute (InsertOrReplaceStopFlag ADMIN_USER_ID stop) in tx_ret tt)%tx.

Definition set_stop_scan_flag (stop : bool) : Op unit :=
  get_conn (set_stop_scan_flag_tx stop).

Definition should_stop_scan_tx : Tx bool :=
  (let* c := execute (SelectStopFlag ADMIN_USER_ID) in
   tx_ret match fetchone c with
          | Some v => truthy v
          | None => false
          end)%tx.

Definition should_stop_scan : Op bool := get_conn should_stop_scan_tx.

Definition set_scan_active_tx (active : bool) : Tx unit :=
  (let* _ := execute (InsertOrReplaceScanActive ADMIN_USER_ID active) in tx_ret tt)%tx.

Definition set_scan_active (active : bool) : Op unit :=
  get_conn (set_scan_active_tx active).

Definition is_scan_active_tx : Tx bool :=
  (let* c := execute (SelectScanActive ADMIN_USER_ID) in
   tx_ret match fetchone c with
          | Some v => truthy v
          | None => false
          end)%tx.

Definition is_scan_active : Op bool := get_conn is_scan_active_tx.

(** [extract_job_id_from_url] is in the module [Url] below. *)

(** *** The operations as one family *)

(** What an operation returns: None, a boolean or a count. *)
Inductive value := VNone | VBool (b : bool) | VInt (n : Z).

Inductive store_op :=
| op_insert_stub (job_id : Z) (url location keyword : string)
| op_row_missing_details (job_id : Z)
| op_update_details (job_id : Z) (title desc : option string)
| op_mark_job_as_analyzed (job_id : Z)
| op_approve_job (linkedin_job_id : Z) (reason : string)
| op_mark_job_as_applied (approved_job_pk : Z)
| op_delete_approved_job (approved_job_pk : Z)
| op_clear_all_approved_jobs
| op_clear_all_discovered_jobs
| op_archive_all_applied_jobs
| op_set_stop_scan_flag (stop : bool)
| op_should_stop_scan
| op_set_scan_active (active : bool)
| op_is_scan_active.

Definition op_map {A B} (f : A -> B) (m : Op A) : Op B :=
  fun ev w =>
    match m ev w with
    | (Ok a, w') => (Ok (f a), w')
    | (Raise e, w') => (Raise e, w')
    end.

Definition to_none (_ : unit) : value := VNone.

(** The with-block of the operation: its atomic unit. *)
Definition atomic_unit (o : store_op) : Op value :=
  match o with
  | op_insert_stub j u l k => op_map VBool (get_conn (insert_stub_tx j u l k))
  | op_row_missing_details j => op_map VBool (get_conn (row_missing_details_tx j))
  | op_update_details j t d => op_map to_none (get_conn (update_details_tx j t d))
  | op_mark_job_as_analyzed j => op_map to_none (get_conn (mark_job_as_analyzed_tx j))
  | op_approve_job j r => op_map VBool (get_conn (approve_job_tx j r))
  | op_mark_job_as_applied pk => op_map VBool (get_conn (mark_job_as_applied_tx pk))
  | op_delete_approved_job pk => op_map VBool (get_conn (delete_approved_job_tx pk))
  | op_clear_all_approved_jobs => op_map VInt (get_conn clear_all_approved_jobs_tx)
  | op_clear_all_discovered_jobs => op_map VInt (get_conn clear_all_discovered_jobs_tx)
  | op_archive_all_applied_jobs => op_map VInt (get_conn archive_all_applied_jobs_tx)
  | op_set_stop_scan_flag b => op_map to_none (get_conn (set_stop_scan_flag_tx b))
  | op_should_stop_scan => op_map VBool (get_conn should_stop_scan_tx)
  | op_set_scan_active b => op_map to_none (get_conn (set_scan_active_tx b))
  | op_is_scan_active => op_map VBool (get_conn is_scan_active_tx)
  end.

(** The operation as its caller sees it. *)
Definition perform (o : store_op) : Op value :=
  match o with
  | op_insert_stub j u l k => op_map VBool (insert_stub j u l k)
  | op_row_missing_details j => op_map VBool (row_missing_details j)
  | op_update_details j t d => op_map to_none (update_details j t d)
  | op_mark_job_as_analyzed j => op_map to_none (mark_job_as_analyzed j)
  | op_approve_job j r => op_map VBool (approve_job j r)
  | op_mark_job_as_applied pk => op_map VBool (mark_job_as_applied pk)
  | op_delete_approved_job pk => op_map VBool (delete_approved_job pk)
  | op_clear_all_approved_jobs => op_map VInt clear_all_approved_jobs
  | op_clear_all_discovered_jobs => op_map VInt clear_all_discovered_jobs
  | op_archive_all_applied_jobs => op_map VInt archive_all_applied_jobs
  | op_set_stop_scan_flag b => op_map to_none (set_stop_scan_flag b)
  | op_should_stop_scan => op_map VBool should_stop_scan
  | op_set_scan_active b => op_map to_none (set_scan_active b)
  | op_is_scan_active => op_map VBool is_scan_active
  end.

(** The operations that have an [except Exception] of their own, with
    the value it returns and the line it prints. *)
Definition handler (o : store_op) : option (value * (exn -> string)) :=
  match o with
  | op_insert_stub _ _ _ _ =>
      Some (VBool false, fun e => "Error inserting job stub: " +:+ str e)
  | op_approve_job _ _ =>
      Some (VBool false, fun e => "Error approving job: " +:+ str e)
  | op_mark_job_as_applied _ =>
      Some (VBool false, fun e => "Error marking job as applied: " +:+ str e)
  | op_delete_approved_job _ =>
      Some (VBool false, fun e => "Error deleting approved job: " +:+ str e)
  | op_clear_all_discovered_jobs =>
      Some (VInt 0, fun e => "Error clearing discovered jobs: " +:+ str e)
  | _ => None
  end.

(** *** The constraints of the schema *)

(** UNIQUE(user_id, job_id) on discovered_jobs and
    UNIQUE(user_id, discovered_job_id) on approved_jobs. *)
Definition unique_discovered (d : db) : Prop :=
  forall u j, (count (dj_is u j) (discovered_jobs d) <= 1)%nat.

Definition unique_approved (d : db) : Prop :=
  forall u dj, (count (aj_for u dj) (approved_jobs d) <= 1)%nat.

(** The claim that every failure reaches the caller as a failure: when
    the atomic unit of an operation raises, so does the operation. *)
Definition failures_are_signalled : Prop :=
  forall o ev w e w1,
    atomic_unit o ev w = (Raise e, w1) -> is_raise (fst (perform o ev w)) = true.

(** Sample data: a store with one discovered job of the owner, approved
    and not yet applied to; and a connection that fails at its second
    [execute]. *)
Definition sample_db : db :=
  {| users := [{| u_id := 1; u_email := "admin@localhost"; u_name := "Admin User" |}];
     discovered_jobs :=
       {| rows := [{| dj_id := 1; dj_user_id := 1;
                      dj_job_id := {| int64_val := 3847261012; int64_fits := eq_refl |};
                      dj_url := "https://x.example/jobs/view/software-engineer-3847261012/";
                      dj_location := "Remote"; dj_keyword := "engineer";
                      dj_title := None; dj_description := None;
                      dj_analyzed := false;
                      dj_date_discovered := "2025-06-01 10:00:00" |}];
          seq := 1 |};
     approved_jobs :=
       {| rows := [{| aj_id := 1; aj_user_id := 1; aj_discovered_job_id := 1;
                      aj_reason := Some "fits"; aj_date_approved := "2025-06-01 11:00:00";
                      aj_date_applied := None; aj_is_archived := Some false |}];
          seq := 1 |};
     user_scan_control :=
       {| rows := [{| sc_id := 1; sc_user_id := 1;
                      sc_stop_scan_flag := true; sc_scan_active := true |}];
          seq := 1 |} |}.

Definition sample_world : world := {| disk := sample_db; out := []; journal := [] |}.

Definition empty_world : world := {| disk := empty_db; out := []; journal := [] |}.

Definition noon : env := steady "2025-06-02 12:00:00".

Definition failing_second_execute : env :=
  {| fails := fun n => if (n =? 2)%nat then Some "disk I/O error" else None;
     now := "2025-06-02 12:00:00" |}.

(** *** Listings and the persisted status view *)

(** The SELECTs that return several columns or several rows. *)
Inductive query :=
| SelectUnanalyzed (u : Z)
| SelectMissingContent (u : Z)
| SelectScanControl (u : Z)
| SelectCounts (u : Z).

Definition aj_unarchived (u : Z) (r : approved_job) : bool :=
  aj_of u r &&
  match aj_is_archived r with None | Some false => true | Some true => false end.

Definition aj_applied_unarchived (u : Z) (r : approved_job) : bool :=
  aj_unarchived u r && negb (is_none (aj_date_applied r)).

Definition dj_analyzed_of (u : Z) (r : discovered_job) : bool :=
  dj_of u r && dj_analyzed r.

(** [analyzed = FALSE AND description IS NOT NULL] *)
Definition dj_unanalyzed (u : Z) (r : discovered_job) : bool :=
  dj_of u r && negb (dj_analyzed r) && negb (is_none (dj_description r)).

(** [title IS NULL OR description IS NULL] *)
Definition dj_missing_content (u : Z) (r : discovered_job) : bool :=
  dj_of u r && (is_none (dj_title r) || is_none (dj_description r)).

Definition int_of_count {A} (p : A -> bool) (t : table A) : sqlval :=
  Int (Z.of_nat (count p t)).

(** The rows a query returns, each the list of its columns. The order of
    the rows of a listing is the order of the table here; SQL promises
    none. *)
Definition answer (q : query) (d : db) : list (list sqlval) :=
  match q with
  | SelectUnanalyzed u =>
      (fun r => [Int (dj_job_id r); of_text (dj_description r)]) <$>
        List.filter (dj_unanalyzed u) (rows (discovered_jobs d))
  | SelectMissingContent u =>
      (fun r => [Int (dj_job_id r); Text (dj_url r)]) <$>
        List.filter (dj_missing_content u) (rows (discovered_jobs d))
  | SelectScanControl u =>
      (fun r => [of_bool (sc_stop_scan_flag r); of_bool (sc_scan_active r)]) <$>
        List.filter (sc_of u) (rows (user_scan_control d))
  | SelectCounts u =>
      [[int_of_count (dj_of u) (discovered_jobs d);
        int_of_count (aj_unarchived u) (approved_jobs d);
        int_of_count (aj_applied_unarchived u) (approved_jobs d);
        int_of_count (dj_analyzed_of u) (discovered_jobs d)]]
  end.

(** [conn.execute(query, params).fetchall()]; the journal keeps the
    statements of [sql] only. *)
Definition fetchall (q : query) : Tx (list (list sqlval)) :=
  fun ev c =>
    let c' := {| cur := cur c; calls := S (calls c);
                 executed := executed c; printed := printed c |} in
    match fails ev (calls c) with
    | Some m => (Raise (OperationalError m), c')
    | None => (Ok (answer q (cur c)), c')
    end.

Definition as_text (v : sqlval) : string :=
  match v with Text s => s | _ => EmptyString end.

(** [row[i]] *)
Definition column (i : nat) (row : list sqlval) : sqlval := nth i row Null.

(** Get jobs that haven't been analyzed yet *)
Definition get_unanalyzed_jobs_tx : Tx (list (Z * string)) :=
  (let* rows := fetchall (SelectUnanalyzed ADMIN_USER_ID) in
   tx_ret ((fun row => (as_int (column 0 row), as_text (column 1 row))) <$> rows))%tx.

Definition get_unanalyzed_jobs : Op (list (Z * string)) :=
  get_conn get_unanalyzed_jobs_tx.

(** Get jobs missing title or description for scraping *)
Definition get_jobs_missing_content_tx : Tx (list (Z * string)) :=
  (let* rows := fetchall (SelectMissingContent ADMIN_USER_ID) in
   tx_ret ((fun row => (as_int (column 0 row), as_text (column 1 row))) <$> rows))%tx.

Definition get_jobs_missing_content : Op (list (Z * string)) :=
  get_conn get_jobs_missing_content_tx.

(** The dictionary of [get_scan_status]. *)
Record scan_status := {
  is_active : bool;
  should_stop : bool;
  total_discovered : Z;
  total_approved : Z;
  total_applied : Z;
  total_analyzed : Z }.

Definition get_scan_status_tx : Tx scan_status :=
  (let* scan := fetchall (SelectScanControl ADMIN_USER_ID) in
   let scan_row := head scan in
   let* stats_rows := fetchall (SelectCounts ADMIN_USER_ID) in
   let stats := default [] (head stats_rows) in
   tx_ret {| is_active := match scan_row with
                          | Some r => truthy (column 1 r)
                          | None => false
                          end;
             should_stop := match scan_row with
                            | Some r => truthy (column 0 r)
                            | None => false
                            end;
             total_discovered := as_int (column 0 stats);
             total_approved := as_int (column 1 stats);
             total_applied := as_int (column 2 stats);
             total_analyzed := as_int (column 3 stats) |})%tx.

(** Get comprehensive scan status *)
Definition get_scan_status : Op scan_status :=
  try_except (get_conn get_scan_status_tx)
    (fun e => let* _ := print ("Error getting scan status: " +:+ str e) in
              op_ret {| is_active := false; should_stop := false;
                        total_discovered := 0; total_approved := 0;
                        total_applied := 0; total_analyzed := 0 |})%op.

(** *** Primary keys and the rest of the schema *)

(** INTEGER PRIMARY KEY AUTOINCREMENT: the rowids of a table are
    distinct and none exceeds the table's sequence counter. *)
Definition keys_ok {A} (key : A -> Z) (t : table A) : Prop :=
  NoDup (key <$> rows t) /\ Forall (fun r => key r <= seq t) (rows t).

(** [user_id INTEGER NOT NULL UNIQUE] on user_scan_control *)
Definition unique_scan_control (d : db) : Prop :=
  forall u, (count (sc_of u) (user_scan_control d) <= 1)%nat.

(** Everything the schema declares and SQLite enforces. *)
Definition consistent (d : db) : Prop :=
  unique_discovered d /\ unique_approved d /\ unique_scan_control d /\
  keys_ok dj_id (discovered_jobs d) /\ keys_ok aj_id (approved_jobs d) /\
  keys_ok sc_id (user_scan_control d).

(** The declared foreign key of approved_jobs, which SQLite does not
    enforce here: each approval refers to a discovered job of the same
    user. *)
Definition references_ok (d : db) : Prop :=
  forall a, a ∈ rows (approved_jobs d) ->
    exists r, r ∈ rows (discovered_jobs d) /\
              dj_id r = aj_discovered_job_id a /\ dj_user_id r = aj_user_id a.

(** Progress is not undone: a discovered job that was analyzed and is
    still stored is still analyzed, and an approval that carried an
    application timestamp and is still stored carries the same one. *)
Definition keeps_progress (d d' : db) : Prop :=
  (forall r r', r ∈ rows (discovered_jobs d) -> r' ∈ rows (discovered_jobs d') ->
     dj_id r' = dj_id r -> dj_analyzed r = true -> dj_analyzed r' = true) /\
  (forall a a' t, a ∈ rows (approved_jobs d) -> a' ∈ rows (approved_jobs d') ->
     aj_id a' = aj_id a -> aj_date_applied a = Some t -> aj_date_applied a' = Some t).

(** How a later store descends from an earlier one: the sequence
    counters have not gone back, and each row whose rowid the earlier
    store had handed out comes from the row of that rowid, with its
    progress kept. *)
Definition descends (d d' : db) : Prop :=
  seq (discovered_jobs d) <= seq (discovered_jobs d') /\
  seq (approved_jobs d) <= seq (approved_jobs d') /\
  (forall r', r' ∈ rows (discovered_jobs d') -> dj_id r' <= seq (discovered_jobs d) ->
     exists r, r ∈ rows (discovered_jobs d) /\ dj_id r = dj_id r' /\
               (dj_analyzed r = true -> dj_analyzed r' = true)) /\
  (forall a', a' ∈ rows (approved_jobs d') -> aj_id a' <= seq (approved_jobs d) ->
     exists a, a ∈ rows (approved_jobs d) /\ aj_id a = aj_id a' /\
               (forall t, aj_date_applied a = Some t -> aj_date_applied a' = Some t)).

(** A property of the store that a transaction body, or an operation,
    keeps. *)
Definition tx_keeps {A} (P : db -> Prop) (m : Tx A) : Prop :=
  forall ev c, P (cur c) -> P (cur (snd (m ev c))).

Definition op_keeps {A} (P : db -> Prop) (m : Op A) : Prop :=
  forall ev w, P (disk w) -> P (disk (snd (m ev w))).

(** The effect of UPDATE ... SET date_applied = CURRENT_TIMESTAMP on a row. *)
Definition applied_at (t : timestamp) (r : approved_job) : approved_job :=
  {| aj_id := aj_id r; aj_user_id := aj_user_id r;
     aj_discovered_job_id := aj_discovered_job_id r;
     aj_reason := aj_reason r; aj_date_approved := aj_date_approved r;
     aj_date_applied := Some t; aj_is_archived := aj_is_archived r |}.

End Db.

(** ** Regular expressions (the fragment of [re] that database.py uses) *)

Module Re.

(** A Python [str] is a sequence of Unicode code points. *)
Definition char := N.
Definition text := list char.

(** A string of this development (code points below 256) as a [str]. *)
Definition code_points (s : string) : text := N_of_ascii <$> list_ascii_of_string s.

(** Patterns: the empty pattern, one character of a class, a greedy
    [*] over a class, sequence, ordered alternation, the capturing
    group 1, and [$]. *)
Inductive re :=
| Eps
| Class (p : char -> bool)
| Star (p : char -> bool)
| Seq (r1 r2 : re)
| Alt (r1 r2 : re)
| Group (r : re)
| Eos.

Definition Chr (c : char) : re := Class (N.eqb c).
Definition Plus (p : char -> bool) : re := Seq (Class p) (Star p).
(** [(?:r)?], greedy: try [r] first *)
Definition Opt (r : re) : re := Alt r Eps.

Fixpoint Lit (s : text) : re :=
  match s with
  | [] => Eps
  | c :: s' => Seq (Chr c) (Lit s')
  end.

(** The line feed. *)
Definition newline : char := 10%N.

(** Greedy repetition with backtracking: take one more character if
    that leads to a match, give it back otherwise. *)
Fixpoint star {A} (p : char -> bool) (k : text -> option A) (s : text) : option A :=
  match s with
  | c :: s' =>
      if p c then
        match star p k s' with
        | Some a => Some a
        | None => k s
        end
      else k s
  | [] => k s
  end.

(** The backtracking matcher, in continuation-passing style: [exec r k s g]
    matches [r] at the front of [s] with group 1 currently [g], and hands
    the rest of the input and the group to [k]; the first alternative
    whose continuation succeeds wins. *)
Fixpoint exec {A} (r : re) (k : text -> option text -> option A)
    (s : text) (g : option text) : option A :=
  match r with
  | Eps => k s g
  | Class p =>
      match s with
      | c :: s' => if p c then k s' g else None
      | [] => None
      end
  | Star p => star p (fun s' => k s' g) s
  | Seq r1 r2 => exec r1 (exec r2 k) s g
  | Alt r1 r2 =>
      match exec r1 k s g with
      | Some a => Some a
      | None => exec r2 k s g
      end
  | Group r1 =>
      exec r1 (fun s' _ => k s' (Some (take (length s - length s') s))) s g
  | Eos =>
      (* without re.MULTILINE, [$] matches at the end of the string and
         just before a newline that ends the string *)
      match s with
      | [] => k s g
      | [c] => if N.eqb c newline then k s g else None
      | _ => None
      end
  end.

(** [pattern.search(s)]: the match at the leftmost position that has
    one; the result is the text of group 1 (None when the group did not
    take part in the match). *)
Fixpoint search (r : re) (s : text) : option (option text) :=
  match exec r (fun _ g => Some g) s None with
  | Some g => Some g
  | None =>
      match s with
      | [] => None
      | _ :: s' => search r s'
      end
  end.

(** What it means for [r] to match between two positions, by the
    structure of the pattern ([s] is the input from the start position on,
    [s'] from the end position on). *)
Inductive matches : re -> text -> option text -> text -> option text -> Prop :=
| M_Eps s g : matches Eps s g s g
| M_Class p c s g : p c = true -> matches (Class p) (c :: s) g s g
| M_Star_stop p s g : matches (Star p) s g s g
| M_Star_more p c s g s' g' :
    p c = true -> matches (Star p) s g s' g' -> matches (Star p) (c :: s) g s' g'
| M_Seq r1 r2 s g s1 g1 s2 g2 :
    matches r1 s g s1 g1 -> matches r2 s1 g1 s2 g2 -> matches (Seq r1 r2) s g s2 g2
| M_Alt_l r1 r2 s g s' g' : matches r1 s g s' g' -> matches (Alt r1 r2) s g s' g'
| M_Alt_r r1 r2 s g s' g' : matches r2 s g s' g' -> matches (Alt r1 r2) s g s' g'
| M_Group r s g s' g' :
    matches r s g s' g' ->
    matches (Group r) s g s' (Some (take (length s - length s') s))
| M_Eos_end g : matches Eos [] g [] g
| M_Eos_newline g : matches Eos [newline] g [newline] g.

End Re.

(** ** External-id extraction (database.py) *)

Module Url.
Import Re.

(** The decimal digits of Unicode (category Nd), which are what [\d]
    matches in a [str] pattern and what [int] reads: each script has its
    ten digits at consecutive code points, and this is the list of their
    zeros, from DIGIT ZERO (48) and ARABIC-INDIC DIGIT ZERO (1632) on
    (Unicode 14.0, the character database of CPython 3.11). *)
Definition decimal_zeros : list N :=
  [48; 1632; 1776; 1984; 2406; 2534; 2662; 2790;
   2918; 3046; 3174; 3302; 3430; 3558; 3664; 3792;
   3872; 4160; 4240; 6112; 6160; 6470; 6608; 6784;
   6800; 6992; 7088; 7232; 7248; 42528; 43216; 43264;
   43472; 43504; 43600; 44016; 65296; 66720; 68912; 69734;
   69872; 69942; 70096; 70384; 70736; 70864; 71248; 71360;
   71472; 71904; 72016; 72784; 73040; 73120; 92768; 92864;
   93008; 120782; 120792; 120802; 120812; 120822; 123200; 123632;
   125264; 130032]%N.

(** [c] is one of the ten digits that start at [zero]. *)
Definition digit_from (zero c : N) : bool := ((zero <=? c) && (c <? zero + 10))%N.

(** [\d] *)
Definition is_digit (c : char) : bool := existsb (fun zero => digit_from zero c) decimal_zeros.

(** The value of a decimal digit. *)
Definition digit_value (c : char) : Z :=
  match List.find (fun zero => digit_from zero c) decimal_zeros with
  | Some zero => Z.of_N (c - zero)
  | None => 0
  end.

Definition slash_or_query (c : char) : bool :=
  N.eqb c 47 (* / *) || N.eqb c 63 (* ? *).

Definition not_slash_or_query (c : char) : bool := negb (slash_or_query c).

Definition hyphen : char := 45%N.

Definition jobs_view : text := code_points "/jobs/view/".

(** [re.compile(r"/jobs/view/(?:[^/?]*-)?(\d+)(?:[/?]|$)")] *)
Definition _JOB_ID_RE : re :=
  Seq (Lit jobs_view)
   (Seq (Opt (Seq (Star not_slash_or_query) (Chr hyphen)))
     (Seq (Group (Plus is_digit))
          (Alt (Class slash_or_query) Eos))).

(** The value of a string of decimal digits, read in base 10. *)
Fixpoint digits_value (acc : Z) (s : text) : option Z :=
  match s with
  | [] => Some acc
  | c :: s' =>
      if is_digit c
      then digits_value (10 * acc + digit_value c) s'
      else None
  end.

(** [sys.int_info.default_max_str_digits]: the longest string of digits
    that [int] converts. Nothing in the sources changes the limit. *)
Definition int_max_str_digits : nat := 4300.

Definition decimal (n : nat) : string := NilEmpty.string_of_uint (Nat.to_uint n).

Definition exceeds_the_limit (digits : nat) : exn :=
  ValueError ("Exceeds the limit (" +:+ decimal int_max_str_digits +:+
              " digits) for integer string conversion: value has " +:+
              decimal digits +:+
              " digits; use sys.set_int_max_str_digits() to increase the limit").

(** [int(s)] for a string [s] of decimal digits, which is what group 1 of
    the pattern holds: its value, or a ValueError when it has more digits
    than the limit. (The signs, white space and underscores that [int]
    also reads are left out: a string that is not made of digits is a
    ValueError here.) *)
Definition int (s : text) : res Z :=
  match s with
  | [] => Raise (ValueError "invalid literal for int() with base 10: ''")
  | _ =>
      match digits_value 0 s with
      | Some z =>
          if (length s <=? int_max_str_digits)%nat then Ok z
          else Raise (exceeds_the_limit (length s))
      | None => Raise (ValueError "invalid literal for int() with base 10")
      end
  end.

(** Extract LinkedIn job ID from URL *)
Definition extract_job_id_from_url (url : text) : res (option Z) :=
  match search _JOB_ID_RE url with
  | Some (Some g) =>
      match int g with
      | Ok z => Ok (Some z)
      | Raise e => Raise e
      end
  | Some None => Raise (ValueError "int() argument must be a string, not 'NoneType'")
  | None => Ok None
  end.

(** The pattern as the specification words it: somewhere in the URL,
    [/jobs/view/], then optionally a slug that has no [/] or [?] and ends
    in [-], then a run of digits, then [/], [?] or the end of the string.
    [ends] says which texts may follow the digits. *)
Definition slug_ok (slug : text) : Prop :=
  slug = [] \/
  exists s, slug = s ++ [hyphen] /\ forallb not_slash_or_query s = true.

(** [ds] is a run of digits of [url] at which the pattern matches. *)
Definition digit_run (ends : text -> Prop) (url ds : text) : Prop :=
  exists pre slug rest,
    url = pre ++ jobs_view ++ slug ++ ds ++ rest /\
    slug_ok slug /\
    ds <> [] /\ forallb is_digit ds = true /\
    ends rest.

Definition has_job_id (ends : text -> Prop) (url : text) (id : Z) : Prop :=
  exists pre slug ds rest,
    url = pre ++ jobs_view ++ slug ++ ds ++ rest /\
    slug_ok slug /\
    ds <> [] /\ forallb is_digit ds = true /\
    digits_value 0 ds = Some id /\
    ends rest.

(** [/], [?] or end of string. *)
Definition spec_end (rest : text) : Prop :=
  rest = [] \/ exists c rest', rest = c :: rest' /\ slash_or_query c = true.

(** What [(?:[/?]|$)] accepts. *)
Definition regex_end (rest : text) : Prop :=
  spec_end rest \/ rest = [newline].

End Url.

(** ** The scan controller (utils.py) *)

Module Scan.
Import Db.

(** A [threading.Thread] running [scan_worker], by where it is in

      try: scrape_phase(_scan_stop_signal)
      except Exception as e: print(...)
      finally:
          _scan_stop_signal[0] = False
          database.set_stop_scan_flag(False)                         *)
Inductive worker :=
| Created      (* constructed, [start()] not yet called *)
| InBody       (* inside [scrape_phase] *)
| Resetting    (* body left; about to clear the in-memory signal *)
| Persisting   (* about to clear the persisted flag *)
| Dead.        (* [scan_worker] has returned or raised *)

(** [thread.is_alive()] *)
Definition is_alive (w : worker) : bool :=
  match w with
  | InBody | Resetting | Persisting => true
  | Created | Dead => false
  end.

(** What a call hands back: the [(ok, message)] pair of [start_scan] and
    [stop_scan], or the dictionary of [get_scan_status]. *)
Inductive reply :=
| Outcome (ok : bool) (message : string)
| Status (is_running stop_requested : bool).

(** The point an activation of [start_scan], [stop_scan] or
    [get_scan_status] has reached. *)
Inductive pc :=
| StartAcquire    (* with _scan_lock: *)
| StartCheck      (* if _scan_thread and _scan_thread.is_alive(): *)
| StartClear      (* _scan_stop_signal[0] = False *)
| StartImport     (* from scrape import scrape_phase; import database *)
| StartInit       (* database.init_db() *)
| StartFlag       (* database.set_stop_scan_flag(False) *)
| StartCreate     (* _scan_thread = threading.Thread(target=scan_worker, daemon=True) *)
| StartLaunch     (* _scan_thread.start() *)
| StopAcquire     (* with _scan_lock: *)
| StopCheck       (* if not _scan_thread or not _scan_thread.is_alive(): *)
| StopSignal      (* _scan_stop_signal[0] = True *)
| StopFlag        (* database.set_stop_scan_flag(True) *)
| StatusAcquire   (* with _scan_lock: *)
| StatusAlive     (* 'is_running': ... *)
| StatusSignal (is_running : bool)   (* 'stop_requested': ... *)
| Leave (r : reply)      (* return r, leaving the with-block *)
| Returned (r : reply).

Inductive operation := StartScan | StopScan | GetScanStatus.

Definition entry (o : operation) : pc :=
  match o with
  | StartScan => StartAcquire
  | StopScan => StopAcquire
  | GetScanStatus => StatusAcquire
  end.

(** Inside a [with _scan_lock:] block. *)
Definition inside (p : pc) : bool :=
  match p with
  | StartAcquire | StopAcquire | StatusAcquire | Returned _ => false
  | _ => true
  end.

Record state := {
  scan_thread : option nat;      (* _scan_thread, an index into [threads] *)
  scan_stop_signal : bool;       (* _scan_stop_signal[0] *)
  scan_lock : option nat;        (* _scan_lock: the activation holding it *)
  threads : list worker;         (* every Thread object constructed so far *)
  callers : list pc;             (* every activation so far *)
  sys : world }.

(** The module just imported. *)
Definition initial (w : world) : state :=
  {| scan_thread := None; scan_stop_signal := false; scan_lock := None;
     threads := []; callers := []; sys := w |}.

Definition set_scan_thread (t : option nat) (s : state) : state :=
  {| scan_thread := t; scan_stop_signal := scan_stop_signal s;
     scan_lock := scan_lock s; threads := threads s;
     callers := callers s; sys := sys s |}.

Definition set_signal (b : bool) (s : state) : state :=
  {| scan_thread := scan_thread s; scan_stop_signal := b;
     scan_lock := scan_lock s; threads := threads s;
     callers := callers s; sys := sys s |}.

Definition set_lock (l : option nat) (s : state) : state :=
  {| scan_thread := scan_thread s; scan_stop_signal := scan_stop_signal s;
     scan_lock := l; threads := threads s;
     callers := callers s; sys := sys s |}.

Definition set_threads (ts : list worker) (s : state) : state :=
  {| scan_thread := scan_thread s; scan_stop_signal := scan_stop_signal s;
     scan_lock := scan_lock s; threads := ts;
     callers := callers s; sys := sys s |}.

Definition set_callers (cs : list pc) (s : state) : state :=
  {| scan_thread := scan_thread s; scan_stop_signal := scan_stop_signal s;
     scan_lock := scan_lock s; threads := threads s;
     callers := cs; sys := sys s |}.

Definition set_sys (w : world) (s : state) : state :=
  {| scan_thread := scan_thread s; scan_stop_signal := scan_stop_signal s;
     scan_lock := scan_lock s; threads := threads s;
     callers := callers s; sys := w |}.

Definition goto (i : nat) (p : pc) (s : state) : state :=
  set_callers (<[i := p]> (callers s)) s.

(** [_scan_thread is not None and _scan_thread.is_alive()] *)
Definition thread_alive (s : state) : bool :=
  match scan_thread s with
  | Some t =>
      match threads s !! t with
      | Some w => is_alive w
      | None => false
      end
  | None => false
  end.

Definition failed_to_start (e : exn) : reply :=
  Outcome false ("Failed to start scan: " +:+ str e).

(** One step of activation [i]. [ev] is the environment of the store
    call the step makes, if it makes one; [oops] an exception raised by a
    step that is not a store call (the import, [Thread.start]). The step
    is not enabled (None) when [i] waits for the lock or has returned. *)
Definition caller_step (i : nat) (ev : env) (oops : option exn) (s : state)
  : option state :=
  match callers s !! i with
  | None => None
  | Some p =>
    match p with
    | StartAcquire =>
        match scan_lock s with
        | None => Some (goto i StartCheck (set_lock (Some i) s))
        | Some _ => None
        end
    | StartCheck =>
        if thread_alive s
        then Some (goto i (Leave (Outcome false "Scan is already running")) s)
        else Some (goto i StartClear s)
    | StartClear => Some (goto i StartImport (set_signal false s))
    | StartImport =>
        match oops with
        | Some e => Some (goto i (Leave (failed_to_start e)) s)
        | None => Some (goto i StartInit s)
        end
    | StartInit =>
        match init_db ev (sys s) with
        | (Ok _, w) => Some (goto i StartFlag (set_sys w s))
        | (Raise e, w) => Some (goto i (Leave (failed_to_start e)) (set_sys w s))
        end
    | StartFlag =>
        match set_stop_scan_flag false ev (sys s) with
        | (Ok _, w) => Some (goto i StartCreate (set_sys w s))
        | (Raise e, w) => Some (goto i (Leave (failed_to_start e)) (set_sys w s))
        end
    | StartCreate =>
        Some (goto i StartLaunch
                (set_scan_thread (Some (length (threads s)))
                   (set_threads (threads s ++ [Created]) s)))
    | StartLaunch =>
        match oops with
        | Some e => Some (goto i (Leave (failed_to_start e)) s)
        | None =>
            match scan_thread s with
            | Some t =>
                Some (goto i (Leave (Outcome true "Scan started successfully"))
                        (set_threads (<[t := InBody]> (threads s)) s))
            | None => None
            end
        end
    | StopAcquire =>
        match scan_lock s with
        | None => Some (goto i StopCheck (set_lock (Some i) s))
        | Some _ => None
        end
    | StopCheck =>
        if thread_alive s
        then Some (goto i StopSignal s)
        else Some (goto i (Leave (Outcome false "No scan is currently running")) s)
    | StopSignal => Some (goto i StopFlag (set_signal true s))
    | StopFlag =>
        match set_stop_scan_flag true ev (sys s) with
        | (Ok _, w) => Some (goto i (Leave (Outcome true "Stop signal sent")) (set_sys w s))
        | (Raise e, w) =>
            Some (goto i (Leave (Outcome false ("Failed to send stop signal: " +:+ str e)))
                    (set_sys w s))
        end
    | StatusAcquire =>
        match scan_lock s with
        | None => Some (goto i StatusAlive (set_lock (Some i) s))
        | Some _ => None
        end
    | StatusAlive => Some (goto i (StatusSignal (thread_alive s)) s)
    | StatusSignal r => Some (goto i (Leave (Status r (scan_stop_signal s))) s)
    | Leave r => Some (goto i (Returned r) (set_lock None s))
    | Returned _ => None
    end
  end.

(** What the scheduler and the outside world decide. *)
Inductive event :=
| Call (o : operation)
    (* a request enters [start_scan], [stop_scan] or [get_scan_status] *)
| Caller (i : nat) (ev : env) (oops : option exn)
    (* activation [i] takes its next step *)
| Scrape (t : nat) (io : world -> world)
    (* worker [t], inside [scrape_phase], acts on the store and stdout *)
| Finish (t : nat) (raised : option exn)
    (* [scrape_phase] returns or raises in worker [t] *)
| Cleanup (t : nat) (ev : env).
    (* worker [t] takes the next step of its finally-block *)

(** Modelled from the spec: [scrape_phase] (module [scrape], not part of
    the sources) is the long-running, cooperatively cancellable unit: it
    reads the stop signal it is given and works on the store; it does not
    touch [_scan_thread] or [_scan_lock] and does not write the signal.
    Its actions are the [Scrape] events and its end is [Finish]. *)
Definition scrape_phase (io : world -> world) (s : state) : state :=
  set_sys (io (sys s)) s.

Definition step (s : state) (e : event) : option state :=
  match e with
  | Call o => Some (set_callers (callers s ++ [entry o]) s)
  | Caller i ev oops => caller_step i ev oops s
  | Scrape t io =>
      match threads s !! t with
      | Some InBody => Some (scrape_phase io s)
      | _ => None
      end
  | Finish t raised =>
      match threads s !! t with
      | Some InBody =>
          let s' := set_threads (<[t := Resetting]> (threads s)) s in
          match raised with
          | Some e =>
              Some (set_sys (snd (print ("Error during scan: " +:+ str e)
                                    (steady EmptyString) (sys s'))) s')
          | None => Some s'
          end
      | _ => None
      end
  | Cleanup t ev =>
      match threads s !! t with
      | Some Resetting =>
          (* Reset stop signal when scan completes *)
          Some (set_threads (<[t := Persisting]> (threads s)) (set_signal false s))
      | Some Persisting =>
          let '(_, w) := set_stop_scan_flag false ev (sys s) in
          Some (set_threads (<[t := Dead]> (threads s)) (set_sys w s))
      | _ => None
      end
  end.

Fixpoint run (s : state) (es : list event) : option state :=
  match es with
  | [] => Some s
  | e :: es' =>
      match step s e with
      | Some s' => run s' es'
      | None => None
      end
  end.

(** The states the process can be in. *)
Inductive reachable : state -> Prop :=
| reachable_initial w : reachable (initial w)
| reachable_step s e s' : reachable s -> step s e = Some s' -> reachable s'.

(** The scan tasks that are live. *)
Definition live (s : state) (t : nat) : Prop :=
  exists w, threads s !! t = Some w /\ is_alive w = true.

Definition at_most_one_live (s : state) : Prop :=
  forall t1 t2, live s t1 -> live s t2 -> t1 = t2.

(** Activation [i] is inside a [with _scan_lock:] block. *)
Definition in_critical_section (s : state) (i : nat) : Prop :=
  exists p, callers s !! i = Some p /\ inside p = true.

(** The persisted stop flag, as [should_stop_scan] reads it. *)
Definition persisted_stop_flag (s : state) : bool :=
  match should_stop_scan (steady EmptyString) (sys s) with
  | (Ok b, _) => b
  | (Raise _, _) => false
  end.

(** An uninterrupted call: the request enters and its activation runs to
    its return while nothing else is scheduled. [ev] is used for every
    store call it makes. *)
Fixpoint drive (fuel : nat) (i : nat) (ev : env) (oops : option exn) (s : state)
  : option (reply * state) :=
  match callers s !! i with
  | Some (Returned r) => Some (r, s)
  | _ =>
      match fuel with
      | O => None
      | S fuel' =>
          match caller_step i ev oops s with
          | Some s' => drive fuel' i ev oops s'
          | None => None
          end
      end
  end.

Definition call (o : operation) (ev : env) (oops : option exn) (s : state)
  : option (reply * state) :=
  drive 9 (length (callers s)) ev oops (set_callers (callers s ++ [entry o]) s).

Definition start_scan := call StartScan.
Definition stop_scan := call StopScan.
Definition get_scan_status := call GetScanStatus.


(** Sample run: from a fresh import, one [start_scan] runs to its
    return on connections that work; the scan task is then in its body. *)
Definition start_events : list event :=
  Call StartScan :: replicate 9 (Caller 0 noon None).

Definition running : state :=
  default (initial sample_world) (run (initial sample_world) start_events).

(** Sample schedule: the task leaves its body and clears the in-memory
    signal; before it has cleared the persisted flag, a [stop_scan] runs
    to its return; then the task finishes its finally-block. *)
Definition late_stop_events : list event :=
  start_events ++
  [Finish 0 None; Cleanup 0 noon; Call StopScan] ++ replicate 5 (Caller 1 noon None).

Definition late_stop_exit_events : list event :=
  late_stop_events ++ [Cleanup 0 noon].

(** *** The invariant of the controller *)

(** Whoever is inside a with-block holds the lock. *)
Definition lock_inv (s : state) : Prop :=
  forall i p, callers s !! i = Some p -> inside p = true -> scan_lock s = Some i.

(** In [start_scan], past the liveness check and before the new thread
    is started. *)
Definition past_check (p : pc) : bool :=
  match p with
  | StartClear | StartImport | StartInit | StartFlag | StartCreate | StartLaunch => true
  | _ => false
  end.

(** A live task is the one [_scan_thread] refers to; while a
    [start_scan] is between its check and its [start()], no task is
    live; and the thread about to be started is a fresh one. *)
Definition thread_inv (s : state) : Prop :=
  (forall t, live s t -> scan_thread s = Some t) /\
  (forall i p, callers s !! i = Some p -> past_check p = true ->
               forall t, ~ live s t) /\
  (forall i, callers s !! i = Some StartLaunch ->
             exists t, scan_thread s = Some t /\ threads s !! t = Some Created).

Definition inv (s : state) : Prop := lock_inv s /\ thread_inv s.

End Scan.

(** ** The evaluation dispatcher (evaluate.py) *)

Module Evaluate.

(** The configuration: sections of string settings. *)
Abbreviation config := (gmap string (gmap string string)).

(** [d.get(section, {}).get(key)] *)
Definition setting (c : config) (section key : string) : option string :=
  match c !! section with
  | Some d => d !! key
  | None => None
  end.

(** [str(n)] for an integer *)
Definition str_of_int (n : Z) : string :=
  DecimalString.NilZero.string_of_int (Z.to_int n).

(** [s.lower()] on code points below 256 *)
Definition lower_char (c : ascii) : ascii :=
  let n := nat_of_ascii c in
  if ((65 <=? n) && (n <=? 90) ||
      (192 <=? n) && (n <=? 222) && negb (n =? 215))%nat
  then ascii_of_nat (n + 32) else c.

Fixpoint lower (s : string) : string :=
  match s with
  | EmptyString => EmptyString
  | String c s' => String (lower_char c) (lower s')
  end.

(** [s.strip()] *)
Definition is_space (c : ascii) : bool :=
  let n := nat_of_ascii c in
  ((9 <=? n) && (n <=? 13) || (28 <=? n) && (n <=? 32) || (n =? 133) || (n =? 160))%nat.

Fixpoint lstrip (s : string) : string :=
  match s with
  | String c s' => if is_space c then lstrip s' else s
  | EmptyString => EmptyString
  end.

Fixpoint rstrip (s : string) : string :=
  match s with
  | EmptyString => EmptyString
  | String c s' =>
      match rstrip s' with
      | EmptyString => if is_space c then EmptyString else String c EmptyString
      | t => String c t
      end
  end.

Definition strip (s : string) : string := rstrip (lstrip s).

(** Remove or replace non-ASCII characters. The replaced punctuation
    (U+2011 ... U+201D) lies above code point 255, so on these strings
    only the removal is left. *)
Fixpoint sanitize_text (s : string) : string :=
  match s with
  | EmptyString => EmptyString
  | String c s' =>
      if (nat_of_ascii c <? 128)%nat then String c (sanitize_text s')
      else sanitize_text s'
  end.

Definition nl : string := String "010" EmptyString.
Definition dq : string := String (ascii_of_nat 34) EmptyString.

(** [if not s] on an optional string *)
Definition unset (o : option string) : bool :=
  match o with
  | None => true
  | Some s => String.eqb s EmptyString
  end.

Definition prompt_eligibility (job_description : string) (user_config : config)
    (resume : option string) : string :=
  let base :=
    "You are an AI recruiter assistant." +:+ nl +:+
    "You are a helpful assistant that evaluates job postings with a realistic understanding of hiring practices. " +:+
    "Remember that many job 'requirements' are actually preferences, and hiring managers often consider candidates who meet 70-80% of listed requirements. " +:+
    "Analyse the following LinkedIn job description and determine whether the " +:+
    "candidate is eligible for the role." +:+
    "Assume the candidate is eligible via US citizenship or residency requirements." in
  let base :=
    match setting user_config "prompts" "evaluation_prompt" with
    | Some p => base +:+ nl +:+ nl +:+ "Evaluation Criteria:" +:+ nl +:+ p
    | None => base
    end in
  let resume := if unset resume then setting user_config "resume" "text" else resume in
  let base :=
    base +:+ nl +:+ nl +:+ "Job Description:" +:+ nl +:+
    sanitize_text (strip job_description) +:+
    (if unset resume then EmptyString
     else nl +:+ nl +:+ "Candidate Resume:" +:+ nl +:+
          sanitize_text (strip (default EmptyString resume))) in
  base +:+ nl +:+ nl +:+
  "Respond using ONLY valid JSON with the following schema:" +:+ nl +:+
  "{" +:+ nl +:+
  "  " +:+ dq +:+ "eligible" +:+ dq +:+ ": bool," +:+ nl +:+
  "  " +:+ dq +:+ "reasoning" +:+ dq +:+ ": str," +:+ nl +:+
  "  " +:+ dq +:+ "missing_requirements" +:+ dq +:+ ": [str]" +:+ nl +:+
  "}".

Definition _OPENAI_MODEL : string := "o3".
Definition _GEMINI_MODEL : string := "models/gemini-2.5-flash-preview-04-17".

(** [_FENCE_RE.sub] with the empty replacement: a leading [```json\n] or [```\n] and a
    trailing [\n```] are removed. *)
Definition drop_prefix (p s : string) : option string :=
  if String.prefix p s then Some (String.substring (String.length p)
                                    (String.length s - String.length p) s)
  else None.

Definition fence : string := "```".

Definition strip_fence (txt : string) : string :=
  let t :=
    match drop_prefix (fence +:+ "json" +:+ nl) txt with
    | Some t => t
    | None => default txt (drop_prefix (fence +:+ nl) txt)
    end in
  let n := String.length t in
  if (4 <=? n)%nat && String.eqb (String.substring (n - 4) 4 t) (nl +:+ fence)
  then String.substring 0 (n - 4) t else t.

(** [\w] on code points below 256: letters, digits and other numeric
    characters, and the underscore. *)
Definition is_word (c : ascii) : bool :=
  let n := nat_of_ascii c in
  ((48 <=? n) && (n <=? 57) || (65 <=? n) && (n <=? 90) || (n =? 95) ||
   (97 <=? n) && (n <=? 122) || (n =? 170) || (n =? 178) || (n =? 179) ||
   (n =? 181) || (n =? 185) || (n =? 186) || (188 <=? n) && (n <=? 190) ||
   (192 <=? n) && (n <=? 214) || (216 <=? n) && (n <=? 246) || (248 <=? n))%nat.

(** Two characters that [re.I] takes for the same. *)
Definition same_letter (a c : ascii) : bool :=
  Ascii.eqb (lower_char a) (lower_char c).

(** The rest of [s] after a copy of [word], letter case aside. *)
Fixpoint match_word (word s : list ascii) : option (list ascii) :=
  match word with
  | [] => Some s
  | a :: word' =>
      match s with
      | c :: s' => if same_letter a c then match_word word' s' else None
      | [] => None
      end
  end.

(** [(?<!\w)], given the character before the position, and [(?!\w)],
    given the text from the position on. *)
Definition not_after_word (prev : option ascii) : bool :=
  match prev with Some c => negb (is_word c) | None => true end.

Definition not_before_word (s : list ascii) : bool :=
  match s with c :: _ => negb (is_word c) | [] => true end.

(** [re.search(rf"(?<!\w){re.escape(word)}(?!\w)", title, re.I)],
    as a truth value; [prev] is the character before [s]. *)
Fixpoint search_word (prev : option ascii) (word s : list ascii) : bool :=
  (not_after_word prev &&
   match match_word word s with
   | Some rest => not_before_word rest
   | None => false
   end) ||
  match s with
  | c :: s' => search_word (Some c) word s'
  | [] => false
  end.

(** Check if title contains exclusion keywords. *)
Definition contains_exclusions (title : string)
    (exclusion_keywords : option (list string)) : bool :=
  match exclusion_keywords with
  | None | Some [] => false
  | Some words =>
      existsb (fun word => search_word None (list_ascii_of_string word)
                             (list_ascii_of_string title)) words
  end.

(** The character before a position that has [pre] behind it, [prev]
    being the character before [pre]. *)
Definition before (prev : option ascii) (pre : list ascii) : option ascii :=
  match last pre with Some c => Some c | None => prev end.

(** Every character is ASCII. *)
Definition ascii_only (s : string) : Prop :=
  Forall (fun c => (nat_of_ascii c < 128)%nat) (list_ascii_of_string s).

(** The key is absent (or empty) or is the placeholder. *)
Definition not_configured (placeholder : string) (key : option string) : Prop :=
  unset key = true \/ key = Some placeholder.

(** The provider the configuration selects. *)
Definition selected_provider (user_config : config) : string :=
  lower (default "openai" (setting user_config "general" "ai_provider")).

(** Sample configurations: the provider spelled with capitals and the
    placeholder key of the example configuration; and a provider that
    does not exist. *)
Definition placeholder_config : config :=
  {[ "general" := {[ "ai_provider" := "OpenAI" ]};
     "api_keys" := {[ "openai_api_key" := "YOUR_OPENAI_API_KEY_HERE" ]} ]}.

Definition claude_config : config :=
  {[ "general" := {[ "ai_provider" := "Claude" ]} ]}.

(** Sample configurations with a key that is set. *)
Definition openai_config : config :=
  {[ "general" := {[ "ai_provider" := "OpenAI" ]};
     "api_keys" := {[ "openai_api_key" := "sk-sample" ]} ]}.

Definition gemini_config : config :=
  {[ "general" := {[ "ai_provider" := "gemini" ]};
     "api_keys" := {[ "google_api_key" := "sample-key" ]} ]}.

(** The calls that leave the process, in the order they are made. *)
Inductive request :=
| OpenAIChatCompletion (api_key model prompt : string)
| GenaiConfigure (api_key : string)
| GenaiGenerateContent (model prompt : string).

Section Dispatch.

(** The verdict is whatever the JSON parser produces. *)
Context {json : Type}.
(** [config.get_user_config], not part of the sources. *)
Variable get_user_config : Z -> config.
(** The provider clients: the text they answer with, or the exception
    they raise. *)
Variable provider : request -> res string.
Variable json_loads : string -> res json.

Definition call_openai (prompt api_key : string) : res json * list request :=
  (* Ensure the prompt is ASCII-only *)
  let sanitized_prompt := sanitize_text prompt in
  let req := OpenAIChatCompletion api_key _OPENAI_MODEL sanitized_prompt in
  match provider req with
  | Ok content => (json_loads content, [req])
  | Raise e => (Raise e, [req])
  end.

Definition call_gemini (prompt : string) (user_config : config)
  : res json * list request :=
  let google_api_key := setting user_config "api_keys" "google_api_key" in
  if unset google_api_key
     || String.eqb (default EmptyString google_api_key) "YOUR_GOOGLE_API_KEY_HERE"
  then (Raise (ValueError "Google API Key not configured for user or is a placeholder."), [])
  else
    let key := default EmptyString google_api_key in
    match provider (GenaiConfigure key) with
    | Raise e =>
        (Raise (ValueError ("Failed to configure Google Gemini API: " +:+ str e)),
         [GenaiConfigure key])
    | Ok _ =>
        let req := GenaiGenerateContent _GEMINI_MODEL prompt in
        match provider req with
        | Ok text => (json_loads (strip_fence (strip text)), [GenaiConfigure key; req])
        | Raise e => (Raise e, [GenaiConfigure key; req])
        end
    end.

Definition analyze_job (job_description : string) (user_id : Z)
    (resume : option string) : res json * list request :=
  (* Get user-specific configuration *)
  let user_config := get_user_config user_id in
  let prompt := prompt_eligibility job_description user_config resume in
  let provider_to_use :=
    lower (default "openai" (setting user_config "general" "ai_provider")) in
  if String.eqb provider_to_use "openai" then
    let openai_api_key := setting user_config "api_keys" "openai_api_key" in
    if unset openai_api_key
       || String.eqb (default EmptyString openai_api_key) "YOUR_OPENAI_API_KEY_HERE"
    then (Raise (ValueError ("OpenAI API Key not configured for user " +:+
                             str_of_int user_id +:+ " or is a placeholder.")), [])
    else call_openai prompt (default EmptyString openai_api_key)
  else if String.eqb provider_to_use "gemini" then
    call_gemini prompt user_config
  else
    (Raise (ValueError ("Invalid AI provider configured for user " +:+
                        str_of_int user_id +:+ ": '" +:+ provider_to_use +:+
                        "'. Must be 'openai' or 'gemini'.")), []).

(** The list comprehension: one [analyze_job] after the other, in
    order; an exception ends it. *)
Fixpoint batch_analyse_jobs (job_descriptions : list string) (user_id : Z)
    (resume : option string) : res (list json) * list request :=
  match job_descriptions with
  | [] => (Ok [], [])
  | desc :: rest =>
      match analyze_job desc user_id resume with
      | (Raise e, sent) => (Raise e, sent)
      | (Ok verdict, sent) =>
          match batch_analyse_jobs rest user_id resume with
          | (Ok verdicts, sent') => (Ok (verdict :: verdicts), sent ++ sent')
          | (Raise e, sent') => (Raise e, sent ++ sent')
          end
      end
  end.

End Dispatch.

End Evaluate.

(** ** The request handlers that call the store (app.py) *)

Module App.
Import Db Evaluate.

(** The body of a JSON response. *)
Record response := { success : bool; message : string }.

Definition error_response (e : exn) : Op response :=
  op_ret {| success := false; message := "Error: " +:+ str e |}.


(** Delete an approved job *)
Definition delete_approved_job (approved_id : Z) : Op response :=
  try_except
    (let* ok := Db.delete_approved_job approved_id in
     op_ret (if ok : bool
             then {| success := true; message := "Job deleted" |}
             else {| success := false; message := "Job not found" |}))%op
    error_response.

(** Archive all applied jobs *)
Definition archive_applied_jobs : Op response :=
  try_except
    (let* n := archive_all_applied_jobs in
     op_ret {| success := true;
               message := "Archived " +:+ str_of_int n +:+ " applied jobs" |})%op
    error_response.

(** Clear all approved jobs *)
Definition clear_all_approved : Op response :=
  try_except
    (let* n := clear_all_approved_jobs in
     op_ret {| success := true;
               message := "Cleared " +:+ str_of_int n +:+ " approved jobs" |})%op
    error_response.


End App.

(** * Properties *)

(** ** The job store *)

Module StoreFacts.
Import Db.

Lemma filter_nil_of_existsb {A} (p : A -> bool) (l : list A) :
  existsb p l = false -> List.filter p l = [].
Proof.
  induction l as [|x l IH]; simpl; [done|].
  destruct (p x); simpl; [done|]. exact IH.
Qed.

Lemma existsb_of_filter_nil {A} (p : A -> bool) (l : list A) :
  List.filter p l = [] -> existsb p l = false.
Proof.
  induction l as [|x l IH]; simpl; [done|].
  destruct (p x); simpl; [done|]. exact IH.
Qed.

Lemma filter_id_of_forall {A} (p : A -> bool) (l : list A) :
  (forall x, In x l -> p x = true) -> List.filter p l = l.
Proof.
  induction l as [|x l IH]; simpl; intros H; [done|].
  rewrite (H x) by auto. f_equal. apply IH. auto.
Qed.

Lemma filter_negb_filter {A} (p : A -> bool) (l : list A) :
  List.filter p (List.filter (fun x => negb (p x)) l) = [].
Proof.
  induction l as [|x l IH]; simpl; [done|].
  destruct (p x) eqn:E; simpl; [done|]. rewrite E. exact IH.
Qed.

Lemma map_id_of_none {A} (p : A -> bool) (f : A -> A) (l : list A) :
  List.filter p l = [] -> (fun r => if p r then f r else r) <$> l = l.
Proof.
  induction l as [|x l IH]; [done|].
  rewrite fmap_cons. simpl. destruct (p x) eqn:E; [done|].
  intros H. f_equal. auto.
Qed.

Lemma db_eta (d : db) :
  {| users := users d; discovered_jobs := discovered_jobs d;
     approved_jobs := approved_jobs d;
     user_scan_control := user_scan_control d |} = d.
Proof. by destruct d. Qed.

Lemma table_eta {A} (t : table A) : {| rows := rows t; seq := seq t |} = t.
Proof. by destruct t. Qed.

(** Unfolds an operation down to the statements it runs. *)
Ltac unfold_op :=
  unfold try_except, op_bind, op_ret, print, get_conn, commit, rollback, connect,
    tx_bind, tx_ret, tx_print, execute; simpl.

(** A connection that fails at [sqlite3.connect], at a statement or at
    the commit leaves the committed store as it was. *)
Lemma get_conn_rollback {A} (body : Tx A) ev w e w' :
  get_conn body ev w = (Raise e, w') -> disk w' = disk w.
Proof.
  unfold get_conn. destruct (fails ev 0%nat); [by intros [= _ <-]|].
  destruct (body ev _) as [[a|e'] c].
  - destruct (fails ev (calls c)); [by intros [= _ <-]|done].
  - by intros [= _ <-].
Qed.

(** A transaction of one statement, on a connection that works. *)
Lemma one_statement {A} q (f : cursor -> A) ev w :
  reliable ev -> binds q = true ->
  get_conn (tx_bind (execute q) (fun c => tx_ret (f c))) ev w =
  (Ok (f (fst (run (now ev) q (disk w)))),
   {| disk := snd (run (now ev) q (disk w)); out := out w;
      journal := journal w ++ [q] |}).
Proof.
  intros Hev Hq. unfold_op. rewrite !Hev. simpl. rewrite Hq.
  destruct (run (now ev) q (disk w)) as [k d]. simpl.
  rewrite !Hev. unfold commit. simpl. by rewrite app_nil_r.
Qed.

(** The same when a parameter does not fit: nothing runs. *)
Lemma one_statement_overflow {A} q (f : cursor -> A) ev w :
  reliable ev -> binds q = false ->
  get_conn (tx_bind (execute q) (fun c => tx_ret (f c))) ev w =
  (Raise (OverflowError "Python int too large to convert to SQLite INTEGER"),
   {| disk := disk w; out := out w ++ []; journal := journal w ++ [] |}).
Proof. intros Hev Hq. unfold_op. rewrite !Hev. simpl. by rewrite Hq. Qed.

(** The same on any connection: it either does just that or raises. *)
Lemma one_statement_cases {A} q (f : cursor -> A) ev w :
  get_conn (tx_bind (execute q) (fun c => tx_ret (f c))) ev w =
  (Ok (f (fst (run (now ev) q (disk w)))),
   {| disk := snd (run (now ev) q (disk w)); out := out w;
      journal := journal w ++ [q] |}) \/
  exists e w', get_conn (tx_bind (execute q) (fun c => tx_ret (f c))) ev w = (Raise e, w')
               /\ disk w' = disk w /\ out w' = out w.
Proof.
  unfold_op. destruct (fails ev 0%nat); [right; by eexists _, _|].
  destruct (fails ev 1%nat); simpl.
  { right. eexists _, _. split; [reflexivity|]. simpl. by rewrite app_nil_r. }
  destruct (binds q); simpl;
    [|right; eexists _, _; split; [reflexivity|]; simpl; by rewrite app_nil_r].
  destruct (run (now ev) q (disk w)) as [k d]. simpl.
  destruct (fails ev 2%nat); simpl.
  { right. eexists _, _. split; [reflexivity|]. simpl. by rewrite app_nil_r. }
  left. by rewrite app_nil_r.
Qed.

Lemma count_tinsert {A} (p : A -> bool) key mk (t : table A) :
  count p (tinsert key mk t) =
  (count p t + (if p (mk (next_id key t)) then 1 else 0))%nat.
Proof.
  unfold count, tinsert. simpl. rewrite List.filter_app, length_app. simpl.
  by destruct (p _).
Qed.

Lemma count_zero {A} (p : A -> bool) (t : table A) :
  existsb p (rows t) = false -> count p t = 0%nat.
Proof. intros H. unfold count. by rewrite (filter_nil_of_existsb _ _ H). Qed.


(** *** Job ids and the 64-bit range *)

Lemma to_int64_fits z :
  fits_int64 z = true -> exists i, to_int64 z = Some i /\ int64_val i = z.
Proof.
  assert (H : forall b (E : fits_int64 z = b), b = true ->
            exists i,
              match b as b' return fits_int64 z = b' -> option int64 with
              | true => fun H => Some {| int64_val := z; int64_fits := H |}
              | false => fun _ => None
              end E = Some i /\ int64_val i = z).
  { intros [] E Hb; [by eexists|done]. }
  intros Hz. exact (H _ eq_refl Hz).
Qed.

(** A row of discovered_jobs carries a job id that fits. *)
Lemma dj_is_fits u j r : dj_is u j r = true -> fits_int64 j = true.
Proof.
  unfold dj_is. intros [_ Hj]%andb_prop. apply Z.eqb_eq in Hj as <-.
  apply int64_fits.
Qed.

Lemma no_row_out_of_range u j (l : list discovered_job) :
  fits_int64 j = false -> List.filter (dj_is u j) l = [].
Proof.
  intros Hj. apply filter_nil_of_existsb.
  destruct (existsb (dj_is u j) l) eqn:E; [|done].
  apply existsb_exists in E as (r & _ & Hr). apply dj_is_fits in Hr. congruence.
Qed.




Lemma count_pos_of_existsb {A} (p : A -> bool) (t : table A) :
  existsb p (rows t) = true -> (0 < count p t)%nat.
Proof.
  unfold count. intros H. destruct (List.filter p (rows t)) eqn:E; simpl; [|lia].
  by rewrite (existsb_of_filter_nil _ _ E) in H.
Qed.

Lemma head_filter_find {A B} (p : A -> bool) (f : A -> B) (l : list A) :
  head (f <$> List.filter p l) = f <$> List.find p l.
Proof.
  induction l as [|x l IH]; simpl; [done|]. by destruct (p x).
Qed.



Lemma with_approved_same (d : db) :
  with_approved d {| rows := rows (approved_jobs d); seq := seq (approved_jobs d) |} = d.
Proof. unfold with_approved. rewrite table_eta. apply db_eta. Qed.

Lemma unapplied_none pk (l : list approved_job) :
  (forall r, r ∈ l -> aj_pk ADMIN_USER_ID pk r = true -> aj_date_applied r <> None) ->
  List.filter (aj_unapplied ADMIN_USER_ID pk) l = [].
Proof.
  induction l as [|x l IH]; intros H; simpl; [done|].
  unfold aj_unapplied at 1.
  destruct (aj_pk ADMIN_USER_ID pk x) eqn:E; simpl.
  - destruct (aj_date_applied x) eqn:E'; simpl.
    + apply IH. intros r Hr. apply H. by right.
    + exfalso. apply (H x); [by left|done|done].
  - apply IH. intros r Hr. apply H. by right.
Qed.

(** C5. [mark_job_as_applied] on a connection that works, when the
    owner has an approved row [approved_job_pk] with no application
    timestamp: it returns True and stamps that row with the current time.
    When there is no such row, or the row has a timestamp already, it
    returns False (without raising, on any connection) and changes
    nothing. In every case a row that has an application timestamp is
    still there afterwards, timestamp and all. *)
Theorem mark_job_as_applied_once approved_job_pk ev w :
  let before := rows (approved_jobs (disk w)) in
  let after := rows (approved_jobs (disk (snd (mark_job_as_applied approved_job_pk ev w)))) in
  (reliable ev ->
   existsb (aj_unapplied ADMIN_USER_ID approved_job_pk) before = true ->
   fst (mark_job_as_applied approved_job_pk ev w) = Ok true /\
   after = (fun r => if aj_unapplied ADMIN_USER_ID approved_job_pk r
                     then applied_at (now ev) r else r) <$> before) /\
  ((forall r, r ∈ before -> aj_pk ADMIN_USER_ID approved_job_pk r = true ->
              aj_date_applied r <> None) ->
   fst (mark_job_as_applied approved_job_pk ev w) = Ok false /\
   disk (snd (mark_job_as_applied approved_job_pk ev w)) = disk w) /\
  (forall r t, r ∈ before -> aj_date_applied r = Some t -> r ∈ after).
Proof.
  intros before after. subst before after.
  unfold mark_job_as_applied, mark_job_as_applied_tx, try_except.
  split; [|split].
  - intros Hev Hex. rewrite one_statement by done. simpl. split; [|done].
    pose proof (count_pos_of_existsb _ _ Hex). f_equal. apply Z.ltb_lt. lia.
  - intros Hnone. apply unapplied_none in Hnone.
    destruct (one_statement_cases (UpdateApplied ADMIN_USER_ID approved_job_pk)
                (fun cursor => 0 <? rowcount cursor) ev w) as [->|(e & w' & -> & Hd & _)].
    + simpl. unfold count. rewrite Hnone. simpl. split; [done|].
      unfold tmap. simpl.
      rewrite (map_id_of_none _ (fun r => _) _ Hnone). apply with_approved_same.
    + unfold_op. by split.
  - intros r t Hin Happ.
    destruct (one_statement_cases (UpdateApplied ADMIN_USER_ID approved_job_pk)
                (fun cursor => 0 <? rowcount cursor) ev w) as [->|(e & w' & -> & Hd & _)].
    + simpl.
      apply (list_elem_of_fmap_2' _ _ r); [done|].
      unfold aj_unapplied. rewrite Happ. simpl. by rewrite andb_false_r.
    + unfold_op. by rewrite Hd.
Qed.

Lemma count_tfilter_negb {A} (p : A -> bool) (t : table A) :
  count p (tfilter (fun r => negb (p r)) t) = 0%nat.
Proof. unfold count, tfilter. simpl. by rewrite filter_negb_filter. Qed.

(** C6. [clear_all_discovered_jobs] on a connection that works runs
    two statements in this order: the DELETE on approved_jobs, after which
    the owner has no approved row while the discovered rows are all still
    there, then the DELETE on discovered_jobs. Afterwards the owner has no
    row in either table, and the value returned is the number of discovered
    rows the owner had. *)
Theorem clear_all_discovered_jobs_spec ev w :
  reliable ev ->
  let mid := snd (run (now ev) (DeleteApprovedOf ADMIN_USER_ID) (disk w)) in
  exists w',
    clear_all_discovered_jobs ev w =
      (Ok (Z.of_nat (count (dj_of ADMIN_USER_ID) (discovered_jobs (disk w)))), w') /\
    journal w' = journal w ++ [DeleteApprovedOf ADMIN_USER_ID;
                               DeleteDiscoveredOf ADMIN_USER_ID] /\
    count (aj_of ADMIN_USER_ID) (approved_jobs mid) = 0%nat /\
    discovered_jobs mid = discovered_jobs (disk w) /\
    disk w' = snd (run (now ev) (DeleteDiscoveredOf ADMIN_USER_ID) mid) /\
    count (dj_of ADMIN_USER_ID) (discovered_jobs (disk w')) = 0%nat /\
    count (aj_of ADMIN_USER_ID) (approved_jobs (disk w')) = 0%nat.
Proof.
  intros Hev mid. subst mid.
  unfold clear_all_discovered_jobs, clear_all_discovered_jobs_tx. unfold_op.
  repeat (progress (rewrite ?Hev; simpl)).
  eexists. split; [reflexivity|]. simpl.
  split; [done|]. split; [apply count_tfilter_negb|]. split; [done|].
  split; [done|]. split; apply count_tfilter_negb.
Qed.

(** C10. [set_stop_scan_flag v] on a connection that works replaces the
    owner's scan-control row: the stored stop flag is then [v] and the
    stored scan_active flag is false, whatever both were before; and
    [set_scan_active v] likewise stores [v] as scan_active and false as
    the stop flag. *)
Theorem scan_control_writers_replace_row v ev ev1 ev2 w :
  reliable ev -> reliable ev1 -> reliable ev2 ->
  (exists w', set_stop_scan_flag v ev w = (Ok tt, w') /\
     fst (should_stop_scan ev1 w') = Ok v /\
     fst (is_scan_active ev2 w') = Ok false /\
     List.filter (sc_of ADMIN_USER_ID) (rows (user_scan_control (disk w'))) =
       [{| sc_id := next_id sc_id (user_scan_control (disk w));
           sc_user_id := ADMIN_USER_ID;
           sc_stop_scan_flag := v; sc_scan_active := false |}]) /\
  (exists w', set_scan_active v ev w = (Ok tt, w') /\
     fst (should_stop_scan ev1 w') = Ok false /\
     fst (is_scan_active ev2 w') = Ok v /\
     List.filter (sc_of ADMIN_USER_ID) (rows (user_scan_control (disk w'))) =
       [{| sc_id := next_id sc_id (user_scan_control (disk w));
           sc_user_id := ADMIN_USER_ID;
           sc_stop_scan_flag := false; sc_scan_active := v |}]).
Proof.
  intros Hev Hev1 Hev2.
  assert (Hrows : forall r,
    sc_of ADMIN_USER_ID r = true ->
    List.filter (sc_of ADMIN_USER_ID)
      (List.filter (fun r => negb (sc_of ADMIN_USER_ID r))
         (rows (user_scan_control (disk w))) ++ [r]) = [r]).
  { intros r Hr. rewrite List.filter_app, filter_negb_filter. simpl. by rewrite Hr. }
  unfold set_stop_scan_flag, set_scan_active, should_stop_scan, is_scan_active,
    set_stop_scan_flag_tx, set_scan_active_tx, should_stop_scan_tx, is_scan_active_tx.
  split; rewrite one_statement by done; eexists; (split; [reflexivity|]);
    rewrite !one_statement by done; simpl; rewrite Hrows by done; simpl;
    by destruct v.
Qed.

Lemma op_map_raise {A B} (f : A -> B) (m : Op A) ev w e w1 :
  op_map f m ev w = (Raise e, w1) -> m ev w = (Raise e, w1).
Proof.
  unfold op_map. destruct (m ev w) as [[a|e'] w']; intros H; [discriminate|].
  by inversion H.
Qed.

(** An operation without a handler of its own re-raises what its
    atomic unit raised. *)
Lemma propagates {A} (f : A -> value) (body : Tx A) ev w e w1 :
  op_map f (get_conn body) ev w = (Raise e, w1) ->
  disk w1 = disk w /\ disk (snd (op_map f (get_conn body) ev w)) = disk w /\
  fst (op_map f (get_conn body) ev w) = Raise e.
Proof.
  intros H. rewrite H. simpl. apply op_map_raise in H.
  by rewrite (get_conn_rollback _ _ _ _ _ H).
Qed.

(** An operation with a handler prints a line and returns the
    handler's value. *)
Lemma swallows {A} (f : A -> value) (body : Tx A) (a : A) (line : exn -> string) ev w e w1 :
  op_map f (get_conn body) ev w = (Raise e, w1) ->
  let r := op_map f (try_except (get_conn body)
                       (fun e => op_bind (print (line e)) (fun _ => op_ret a))) ev w in
  disk w1 = disk w /\ disk (snd r) = disk w /\
  fst r = Ok (f a) /\ out (snd r) = out w1 ++ [line e].
Proof.
  intros H. apply op_map_raise in H. unfold op_map, try_except. rewrite H.
  unfold_op. by rewrite (get_conn_rollback _ _ _ _ _ H).
Qed.

(** C7, the claim as stated fails: a [clear_all_discovered_jobs] whose
    second DELETE fails is rolled back, and then returns 0, the value a
    successful call returns on a store without discovered jobs; the
    discovered job is still there. *)
Lemma failed_clear_returns_zero :
  fst (atomic_unit op_clear_all_discovered_jobs failing_second_execute sample_world)
    = Raise (OperationalError "disk I/O error") /\
  fst (perform op_clear_all_discovered_jobs failing_second_execute sample_world)
    = Ok (VInt 0) /\
  fst (perform op_clear_all_discovered_jobs noon empty_world) = Ok (VInt 0) /\
  count (dj_of ADMIN_USER_ID)
    (discovered_jobs
       (disk (snd (perform op_clear_all_discovered_jobs failing_second_execute
                     sample_world)))) = 1%nat /\
  ~ failures_are_signalled.
Proof.
  repeat split; try reflexivity.
  intros H.
  specialize (H op_clear_all_discovered_jobs failing_second_execute sample_world
                (OperationalError "disk I/O error") _ eq_refl).
  discriminate H.
Qed.

(** C7, amended. Whenever the atomic unit of an operation raises, the
    committed store is what it was before the call. The operations
    without a handler of their own then raise the same exception;
    [insert_stub], [approve_job], [mark_job_as_applied],
    [delete_approved_job] and [clear_all_discovered_jobs] print one line
    and return False (or 0). *)
Theorem failure_rolls_back o ev w e w1 :
  atomic_unit o ev w = (Raise e, w1) ->
  disk w1 = disk w /\
  disk (snd (perform o ev w)) = disk w /\
  match handler o with
  | None => fst (perform o ev w) = Raise e
  | Some (v, line) =>
      fst (perform o ev w) = Ok v /\ out (snd (perform o ev w)) = out w1 ++ [line e]
  end.
Proof.
  destruct o; simpl; intros H;
    first [ by apply propagates | exact (swallows _ _ _ _ _ _ _ _ H) ].
Qed.

(** *** The theorems at sample inputs *)

Lemma reliable_noon : reliable noon.
Proof. intros n. reflexivity. Qed.




Lemma mark_job_as_applied_once_witness :
  fst (mark_job_as_applied 1 noon sample_world) = Ok true /\
  fst (mark_job_as_applied 1 noon (snd (mark_job_as_applied 1 noon sample_world)))
    = Ok false.
Proof.
  split.
  - apply (mark_job_as_applied_once 1 noon sample_world); [apply reliable_noon|reflexivity].
  - apply (mark_job_as_applied_once 1 noon (snd (mark_job_as_applied 1 noon sample_world))).
    intros r Hr _. vm_compute in Hr. apply list_elem_of_In in Hr.
    destruct Hr as [<-|[]]. discriminate.
Defined.

Lemma clear_all_discovered_jobs_spec_witness :
  reliable noon /\
  exists w',
    clear_all_discovered_jobs noon sample_world = (Ok 1%Z, w') /\
    count (dj_of ADMIN_USER_ID) (discovered_jobs (disk w')) = 0%nat /\
    count (aj_of ADMIN_USER_ID) (approved_jobs (disk w')) = 0%nat.
Proof.
  split; [apply reliable_noon|].
  destruct (clear_all_discovered_jobs_spec noon sample_world reliable_noon)
    as (w' & Hret & _ & _ & _ & _ & Hd & Ha).
  exists w'. split; [exact Hret|]. split; [exact Hd|exact Ha].
Defined.

Lemma scan_control_writers_replace_row_witness :
  reliable noon /\
  (exists w', set_stop_scan_flag false noon sample_world = (Ok tt, w') /\
     fst (should_stop_scan noon w') = Ok false /\
     fst (is_scan_active noon w') = Ok false) /\
  (exists w', set_scan_active false noon sample_world = (Ok tt, w') /\
     fst (should_stop_scan noon w') = Ok false /\
     fst (is_scan_active noon w') = Ok false).
Proof.
  split; [apply reliable_noon|].
  destruct (scan_control_writers_replace_row false noon noon noon sample_world
              reliable_noon reliable_noon reliable_noon)
    as [(w1 & H1 & H2 & H3 & _) (w2 & H4 & H5 & H6 & _)].
  split; [exists w1|exists w2]; (split; [assumption|]); split; assumption.
Defined.

Lemma failure_rolls_back_witness :
  atomic_unit op_clear_all_discovered_jobs failing_second_execute sample_world =
    (Raise (OperationalError "disk I/O error"),
     rollback sample_world
       {| cur := snd (run "2025-06-02 12:00:00" (DeleteApprovedOf ADMIN_USER_ID) sample_db);
          calls := 3; executed := [DeleteApprovedOf ADMIN_USER_ID]; printed := [] |}) /\
  disk (snd (perform op_clear_all_discovered_jobs failing_second_execute sample_world))
    = sample_db /\
  fst (perform op_clear_all_discovered_jobs failing_second_execute sample_world)
    = Ok (VInt 0).
Proof.
  split; [reflexivity|].
  destruct (failure_rolls_back op_clear_all_discovered_jobs failing_second_execute
              sample_world _ _ eq_refl) as (_ & Hd & Hr & _).
  split; [exact Hd|exact Hr].
Defined.

End StoreFacts.

(** ** The matcher *)

Module ReFacts.
Import Re.

Lemma star_sound {A} p (k : text -> option A) s a g :
  star p k s = Some a ->
  exists s', matches (Star p) s g s' g /\ k s' = Some a.
Proof.
  induction s as [|c s IH]; simpl.
  - intros H. exists []. split; [constructor|done].
  - destruct (p c) eqn:Hc.
    + destruct (star p k s) as [a'|] eqn:Hs.
      * intros [= ->]. destruct (IH eq_refl) as (s' & Hm & Hk).
        exists s'. split; [by constructor|done].
      * intros H. exists (c :: s). split; [constructor|done].
    + intros H. exists (c :: s). split; [constructor|done].
Qed.

Lemma star_complete {A} p s g s' g' :
  matches (Star p) s g s' g' ->
  g' = g /\ forall (k : text -> option A) a, k s' = Some a -> is_Some (star p k s).
Proof.
  intros H. remember (Star p) as r eqn:Hr.
  induction H; try discriminate; injection Hr as ->.
  - split; [done|]. intros k a Hk. destruct s as [|c s]; simpl; [by eexists|].
    destruct (p c); [|by eexists]. destruct (star p k s); by eexists.
  - destruct (IHmatches eq_refl) as [-> IH]. split; [done|].
    intros k a Hk. simpl. rewrite H.
    destruct (IH k a Hk) as [a' ->]. by eexists.
Qed.

(** Whatever the matcher returns comes from a match of the pattern. *)
Lemma exec_sound {A} r : forall (k : text -> option text -> option A) s g a,
  exec r k s g = Some a ->
  exists s' g', matches r s g s' g' /\ k s' g' = Some a.
Proof.
  induction r as [|p|p|r1 IH1 r2 IH2|r1 IH1 r2 IH2|r IH|]; intros k s g a; simpl.
  - intros H. exists s, g. split; [constructor|done].
  - destruct s as [|c s]; [done|]. destruct (p c) eqn:Hc; [|done].
    intros H. exists s, g. split; [by constructor|done].
  - intros H. destruct (star_sound _ _ _ _ g H) as (s' & Hm & Hk). by exists s', g.
  - intros H. destruct (IH1 _ _ _ _ H) as (s1 & g1 & Hm1 & H1).
    destruct (IH2 _ _ _ _ H1) as (s2 & g2 & Hm2 & H2).
    exists s2, g2. split; [by econstructor|done].
  - destruct (exec r1 k s g) as [a'|] eqn:E.
    + intros [= ->]. destruct (IH1 _ _ _ _ E) as (s' & g' & Hm & Hk).
      exists s', g'. split; [by apply M_Alt_l|done].
    + intros H. destruct (IH2 _ _ _ _ H) as (s' & g' & Hm & Hk).
      exists s', g'. split; [by apply M_Alt_r|done].
  - intros H. destruct (IH _ _ _ _ H) as (s' & g' & Hm & Hk).
    exists s', (Some (take (length s - length s') s)). split; [by econstructor|done].
  - destruct s as [|c [|c' s]]; [| |done].
    + intros H. exists [], g. split; [constructor|done].
    + destruct (N.eqb c newline) eqn:Hc; [|done]. apply N.eqb_eq in Hc as ->.
      intros H. exists [newline], g. split; [constructor|done].
Qed.

(** Where the pattern has a match that the continuation accepts, the
    matcher finds one. *)
Lemma exec_complete {A} r s g s' g' :
  matches r s g s' g' ->
  forall (k : text -> option text -> option A) a,
    k s' g' = Some a -> is_Some (exec r k s g).
Proof.
  induction 1; intros k a Hk; simpl.
  - by eexists.
  - rewrite H. by eexists.
  - destruct s as [|c s]; simpl; [by eexists|].
    destruct (p c); [|by eexists].
    destruct (star p (fun s' => k s' g) s); by eexists.
  - rewrite H.
    destruct (star_complete (A:=A) _ _ _ _ _ H0) as [-> Hs].
    destruct (Hs (fun s' => k s' g) a Hk) as [a' ->]. by eexists.
  - destruct (IHmatches2 k a Hk) as [a2 H2]. apply (IHmatches1 _ a2 H2).
  - destruct (IHmatches k a Hk) as [a' ->]. by eexists.
  - destruct (exec r1 k s g); [by eexists|]. apply (IHmatches k a Hk).
  - apply (IHmatches _ a Hk).
  - by eexists.
  - by eexists.
Qed.

(** [search] succeeds exactly when the pattern matches at some position,
    and its result is the group of a match. *)
Lemma search_sound r s g :
  search r s = Some g ->
  exists pre s0 s', s = pre ++ s0 /\ matches r s0 None s' g.
Proof.
  induction s as [|c s IH]; simpl.
  - destruct (exec r _ [] None) as [g'|] eqn:E; [|done]. intros [= ->].
    destruct (exec_sound _ _ _ _ _ E) as (s' & g' & Hm & [= ->]).
    by exists [], [], s'.
  - destruct (exec r _ (c :: s) None) as [g'|] eqn:E.
    + intros [= ->]. destruct (exec_sound _ _ _ _ _ E) as (s' & g' & Hm & [= ->]).
      by exists [], (c :: s), s'.
    + intros H. destruct (IH H) as (pre & s0 & s' & -> & Hm).
      by exists (c :: pre), s0, s'.
Qed.

Lemma search_complete r pre s0 s' g :
  matches r s0 None s' g -> is_Some (search r (pre ++ s0)).
Proof.
  intros Hm.
  assert (H0 : is_Some (search r s0)).
  { destruct (exec_complete _ _ _ _ _ Hm (fun _ g => Some g) g eq_refl) as [g' E].
    destruct s0; simpl; rewrite E; by eexists. }
  induction pre as [|c pre IH]; [done|]. simpl.
  destruct (exec r _ (c :: pre ++ s0) None); [by eexists|done].
Qed.

(** The shape of the matches of the derived patterns. *)
Lemma matches_star_inv p s g s' g' :
  matches (Star p) s g s' g' ->
  exists l, s = l ++ s' /\ forallb p l = true /\ g' = g.
Proof.
  intros H. remember (Star p) as r eqn:Hr.
  induction H; try discriminate; injection Hr as ->.
  - by exists [].
  - destruct (IHmatches eq_refl) as (l & -> & Hl & ->).
    exists (c :: l). simpl. by rewrite H, Hl.
Qed.

Lemma matches_star_intro p l s g :
  forallb p l = true -> matches (Star p) (l ++ s) g s g.
Proof.
  induction l as [|c l IH]; simpl; [constructor|].
  intros [Hc Hl]%andb_prop. constructor; auto.
Qed.

Lemma matches_class_inv p s g s' g' :
  matches (Class p) s g s' g' -> exists c, s = c :: s' /\ p c = true /\ g' = g.
Proof. inversion 1; subst. by eexists. Qed.

Lemma matches_lit_inv l : forall s g s' g',
  matches (Lit l) s g s' g' -> s = l ++ s' /\ g' = g.
Proof.
  induction l as [|c l IH]; simpl; intros s g s' g' H.
  - by inversion H.
  - inversion H; subst. 
    match goal with H1 : matches (Chr c) _ _ _ _ |- _ =>
      apply matches_class_inv in H1 as (c' & -> & Hc & ->) end.
    apply N.eqb_eq in Hc as <-.
    match goal with H2 : matches (Lit l) _ _ _ _ |- _ =>
      apply IH in H2 as [-> ->] end.
    done.
Qed.

Lemma matches_lit_intro l s g : matches (Lit l) (l ++ s) g s g.
Proof.
  induction l as [|c l IH]; simpl; [constructor|].
  econstructor; [|exact IH]. constructor. apply N.eqb_refl.
Qed.

End ReFacts.

(** ** External-id extraction *)

Module UrlFacts.
Import Re ReFacts Url.

Lemma matches_seq_inv r1 r2 s g s2 g2 :
  matches (Seq r1 r2) s g s2 g2 ->
  exists s1 g1, matches r1 s g s1 g1 /\ matches r2 s1 g1 s2 g2.
Proof. inversion 1; subst. by eexists _, _. Qed.

Lemma matches_alt_inv r1 r2 s g s' g' :
  matches (Alt r1 r2) s g s' g' -> matches r1 s g s' g' \/ matches r2 s g s' g'.
Proof. inversion 1; subst; auto. Qed.

Lemma matches_group_inv r s g s' g' :
  matches (Group r) s g s' g' ->
  (exists g0, matches r s g s' g0) /\ g' = Some (take (length s - length s') s).
Proof. inversion 1; subst. split; [by eexists|done]. Qed.

Lemma matches_eos_inv s g s' g' :
  matches Eos s g s' g' -> s' = s /\ g' = g /\ (s = [] \/ s = [newline]).
Proof. inversion 1; subst; auto. Qed.

Lemma matches_eps_inv s g s' g' : matches Eps s g s' g' -> s' = s /\ g' = g.
Proof. by inversion 1. Qed.

Lemma take_consumed (l s : text) : take (length (l ++ s) - length s) (l ++ s) = l.
Proof.
  rewrite length_app. replace (length l + length s - length s)%nat with (length l) by lia.
  apply take_app_length.
Qed.

(** A match of the pattern at the front of [s], read off the pattern. *)
Lemma job_id_match_inv s s' g :
  matches _JOB_ID_RE s None s' g ->
  exists slug ds rest,
    s = jobs_view ++ slug ++ ds ++ rest /\ slug_ok slug /\
    ds <> [] /\ forallb is_digit ds = true /\ g = Some ds /\ regex_end rest.
Proof.
  unfold _JOB_ID_RE. intros H.
  apply matches_seq_inv in H as (s1 & g1 & Hlit & H).
  apply matches_lit_inv in Hlit as [-> ->].
  apply matches_seq_inv in H as (s2 & g2 & Hopt & H).
  apply matches_seq_inv in H as (s3 & g3 & Hgrp & Hend).
  apply matches_group_inv in Hgrp as [[g0 Hds] ->].
  apply matches_seq_inv in Hds as (s4 & g4 & Hd & Hds).
  apply matches_class_inv in Hd as (d & -> & Hd & ->).
  apply matches_star_inv in Hds as (ds & -> & Hds & ->).
  assert (Hslug : exists slug, s1 = slug ++ d :: ds ++ s3 /\ slug_ok slug).
  { apply matches_alt_inv in Hopt as [Hopt|Hopt].
    - apply matches_seq_inv in Hopt as (s5 & g5 & Hst & Hch).
      apply matches_star_inv in Hst as (l & -> & Hl & ->).
      apply matches_class_inv in Hch as (c & -> & Hc & _).
      apply N.eqb_eq in Hc as <-.
      exists (l ++ [hyphen]). split; [by rewrite <- app_assoc|].
      right. by exists l.
    - apply matches_eps_inv in Hopt as [<- _]. exists []. split; [done|by left]. }
  destruct Hslug as (slug & -> & Hslug).
  exists slug, (d :: ds), s3.
  split; [done|]. split; [done|]. split; [done|].
  split; [simpl; by rewrite Hd, Hds|].
  assert (Hg : g = Some (d :: ds) /\ regex_end s3).
  { change (d :: ds ++ s3) with ((d :: ds) ++ s3) in Hend.
    rewrite take_consumed in Hend.
    apply matches_alt_inv in Hend as [Hend|Hend].
    - apply matches_class_inv in Hend as (c & -> & Hc & ->).
      split; [done|]. left. right. by exists c, s'.
    - apply matches_eos_inv in Hend as (-> & -> & [->| ->]).
      + split; [done|]. left. by left.
      + split; [done|]. by right. }
  by destruct Hg.
Qed.

Lemma job_id_match_intro slug ds rest :
  slug_ok slug -> ds <> [] -> forallb is_digit ds = true -> regex_end rest ->
  exists s', matches _JOB_ID_RE (jobs_view ++ slug ++ ds ++ rest) None s' (Some ds).
Proof.
  intros Hslug Hne Hds Hend.
  destruct ds as [|d ds]; [done|]. simpl in Hds. apply andb_prop in Hds as [Hd Hds].
  assert (Hin : matches (Plus is_digit) ((d :: ds) ++ rest) None rest None).
  { econstructor; [by constructor|]. by apply matches_star_intro. }
  pose proof (M_Group _ _ _ _ _ Hin) as Hgrp. rewrite take_consumed in Hgrp.
  assert (Htail : exists s', matches (Alt (Class slash_or_query) Eos) rest
                               (Some (d :: ds)) s' (Some (d :: ds))).
  { destruct Hend as [[->|(c & rest' & -> & Hc)]| ->].
    - exists []. apply M_Alt_r. constructor.
    - exists rest'. apply M_Alt_l. by constructor.
    - exists [newline]. apply M_Alt_r. constructor. }
  destruct Htail as [s' Htail]. exists s'.
  unfold _JOB_ID_RE. econstructor; [apply matches_lit_intro|].
  econstructor; [|econstructor; [exact Hgrp|exact Htail]].
  destruct Hslug as [->|(l & -> & Hl)].
  - apply M_Alt_r. constructor.
  - apply M_Alt_l. rewrite <- app_assoc.
    econstructor; [by apply matches_star_intro|]. constructor. apply N.eqb_refl.
Qed.

Lemma digits_value_total ds : forall acc,
  forallb is_digit ds = true -> is_Some (digits_value acc ds).
Proof.
  induction ds as [|d ds IH]; simpl; intros acc H; [by eexists|].
  apply andb_prop in H as [-> H]. by apply IH.
Qed.

(** [int] on a run of digits: its value within the limit, ValueError
    beyond. *)
Lemma int_digits ds :
  ds <> [] -> forallb is_digit ds = true ->
  exists z, digits_value 0 ds = Some z /\
    int ds = if (length ds <=? int_max_str_digits)%nat then Ok z
             else Raise (exceeds_the_limit (length ds)).
Proof.
  intros Hne Hds. destruct (digits_value_total ds 0 Hds) as [z Hz].
  exists z. split; [done|]. unfold int. destruct ds; [done|]. by rewrite Hz.
Qed.

(** What [search] hands to [extract_job_id_from_url]. *)
Lemma search_job_id url g :
  search _JOB_ID_RE url = Some g ->
  exists ds, g = Some ds /\ digit_run regex_end url ds.
Proof.
  intros H. apply search_sound in H as (pre & s0 & s' & -> & Hm).
  apply job_id_match_inv in Hm as (slug & ds & rest & -> & Hslug & Hne & Hds & -> & Hend).
  exists ds. split; [done|]. by exists pre, slug, rest.
Qed.

Lemma search_finds url ds :
  digit_run regex_end url ds -> is_Some (search _JOB_ID_RE url).
Proof.
  intros (pre & slug & rest & -> & Hslug & Hne & Hds & Hend).
  destruct (job_id_match_intro slug ds rest Hslug Hne Hds Hend) as [s' Hm].
  by apply (search_complete _ pre _ _ _ Hm).
Qed.

(** A run of digits is no longer than the URL it is in, by the eleven
    characters of [/jobs/view/] at least. *)
Lemma digit_run_length ends url ds :
  digit_run ends url ds -> (length ds + 11 <= length url)%nat.
Proof.
  intros (pre & slug & rest & -> & _). rewrite !length_app.
  change (length jobs_view) with 11%nat. lia.
Qed.

(** The outcome of the extraction, by the run of digits that the search
    has found. *)
Lemma extract_found url :
  (extract_job_id_from_url url = Ok None /\ search _JOB_ID_RE url = None) \/
  exists ds id,
    digit_run regex_end url ds /\ digits_value 0 ds = Some id /\
    extract_job_id_from_url url =
      if (length ds <=? int_max_str_digits)%nat then Ok (Some id)
      else Raise (exceeds_the_limit (length ds)).
Proof.
  unfold extract_job_id_from_url.
  destruct (search _JOB_ID_RE url) as [g|] eqn:Hsearch; [right|by left].
  destruct (search_job_id _ _ Hsearch) as (ds & -> & Hrun).
  pose proof Hrun as (_ & _ & _ & _ & _ & Hne & Hds & _).
  destruct (int_digits ds Hne Hds) as (id & Hval & ->).
  exists ds, id. split; [done|]. split; [done|]. by destruct (_ <=? _)%nat.
Qed.

(** C9, the claim as stated fails: in a URL that ends in a newline the
    digits are followed by neither [/] nor [?] nor the end of the string,
    and its job id is extracted all the same. *)
Lemma trailing_newline_is_matched :
  let url := code_points ("/jobs/view/1" +:+ String "010" EmptyString) in
  extract_job_id_from_url url = Ok (Some 1) /\
  ~ exists id, has_job_id spec_end url id.
Proof.
  split; [reflexivity|].
  intros (id & pre & slug & ds & rest & Heq & _ & Hne & Hds & _ & Hend).
  assert (Hlen := f_equal length Heq). rewrite !length_app in Hlen.
  change (length jobs_view) with 11%nat in Hlen. simpl in Hlen.
  destruct ds as [|d ds]; [done|]. simpl in Hlen.
  destruct Hend as [->|(c & rest' & -> & Hc)].
  - apply (f_equal (@rev char)) in Heq. rewrite !rev_app_distr in Heq. simpl in Heq.
    assert (Hlast : forallb is_digit (rev (d :: ds)) = true).
    { rewrite forallb_forall in *. intros x Hx. apply Hds. by apply in_rev. }
    simpl in Hlast. destruct (rev ds ++ [d]) as [|x l] eqn:E.
    + by destruct (rev ds).
    + rewrite <- !app_assoc in Heq. simpl in Heq. injection Heq as <- _. done.
  - simpl in Hlen.
    assert (pre = [] /\ slug = [] /\ ds = [] /\ rest' = []) as (-> & -> & -> & ->).
    { repeat split; apply length_zero_iff_nil; lia. }
    simpl in Heq. injection Heq as _ <-. done.
Qed.

(** C9, the claim fails a second way: a URL whose run of digits is
    longer than [int] converts matches the pattern, and the extraction
    raises the ValueError of [int]. *)
Lemma long_digit_run_raises :
  let url := jobs_view ++ replicate 4301 49%N in
  digit_run spec_end url (replicate 4301 49%N) /\
  extract_job_id_from_url url =
    Raise (ValueError ("Exceeds the limit (4300 digits) for integer string conversion: " +:+
                       "value has 4301 digits; " +:+
                       "use sys.set_int_max_str_digits() to increase the limit")).
Proof.
  split; [|by vm_compute].
  exists [], [], []. split; [by rewrite app_nil_r|]. split; [by left|].
  split; [done|]. split; [by vm_compute|by left].
Qed.

(** C9, amended. [extract_job_id_from_url] looks for [/jobs/view/], an
    optional slug without [/] or [?] that ends in [-], and a run of decimal
    digits (of any script) followed by [/], [?], the end of the string or a
    newline that ends the string. When it returns an id, the id is the
    value of such a run of at most 4300 digits. It raises only the
    ValueError of [int], and then the URL has such a run of more than 4300
    digits. It returns None exactly when the URL has no such run. When
    the URL has such runs and none is longer than 4300 digits it returns an
    id; a URL of fewer than 4312 characters never raises. The URL of the
    example gives 3847261012, one with no digits after [/jobs/view/] gives
    None, and digits of another script count: ARABIC-INDIC ONE, TWO, THREE
    give 123. *)
Theorem extract_job_id_from_url_spec url :
  (forall id, extract_job_id_from_url url = Ok (Some id) ->
     has_job_id regex_end url id /\
     exists ds, digit_run regex_end url ds /\ digits_value 0 ds = Some id /\
                (length ds <= int_max_str_digits)%nat) /\
  (forall e, extract_job_id_from_url url = Raise e ->
     exists ds, digit_run regex_end url ds /\
                (int_max_str_digits < length ds)%nat /\
                e = exceeds_the_limit (length ds)) /\
  (extract_job_id_from_url url = Ok None <->
   forall ds, ~ digit_run regex_end url ds) /\
  ((exists ds, digit_run regex_end url ds) ->
   (forall ds, digit_run regex_end url ds -> (length ds <= int_max_str_digits)%nat) ->
   exists id, extract_job_id_from_url url = Ok (Some id)) /\
  ((length url < int_max_str_digits + 12)%nat ->
   exists o, extract_job_id_from_url url = Ok o) /\
  extract_job_id_from_url
    (code_points "https://x.example/jobs/view/software-engineer-3847261012/")
    = Ok (Some 3847261012) /\
  extract_job_id_from_url (code_points "https://x.example/jobs/view/software-engineer/")
    = Ok None /\
  extract_job_id_from_url (jobs_view ++ [1633; 1634; 1635]%N) = Ok (Some 123).
Proof.
  destruct (extract_found url) as [[Hex Hsearch]|(ds & id & Hrun & Hval & Hex)].
  - (* the search finds nothing *)
    assert (Hno : forall ds, ~ digit_run regex_end url ds).
    { intros ds Hrun. destruct (search_finds _ _ Hrun) as [g Hg]. congruence. }
    rewrite Hex.
    split; [done|]. split; [done|]. split; [done|].
    split; [by intros [ds Hrun]; destruct (Hno ds)|].
    split; [by eexists|]. by repeat split.
  - pose proof (digit_run_length _ _ _ Hrun) as Hlen.
    rewrite Hex. destruct (length ds <=? int_max_str_digits)%nat eqn:Hlim.
    + apply Nat.leb_le in Hlim.
      split.
      { intros id' [= <-]. split; [|by exists ds].
        destruct Hrun as (pre & slug & rest & Heq & Hslug & Hne & Hds & Hend).
        by exists pre, slug, ds, rest. }
      split; [done|].
      split; [split; [done|by intros Hno; destruct (Hno ds)]|].
      split; [by eexists|]. split; [by eexists|]. by repeat split.
    + apply Nat.leb_gt in Hlim.
      split; [done|].
      split; [by intros e [= <-]; exists ds|].
      split; [split; [done|by intros Hno; destruct (Hno ds)]|].
      split; [intros _ Hall; specialize (Hall ds Hrun); lia|].
      split; [intros Hshort; unfold int_max_str_digits in *; lia|]. by repeat split.
Qed.

Lemma extract_job_id_from_url_spec_witness :
  has_job_id regex_end
    (code_points "https://x.example/jobs/view/software-engineer-3847261012/")
    3847261012 /\
  exists o, extract_job_id_from_url (code_points "https://x.example/jobs/view/") = Ok o.
Proof.
  split.
  - apply (extract_job_id_from_url_spec
             (code_points "https://x.example/jobs/view/software-engineer-3847261012/")).
    reflexivity.
  - apply (extract_job_id_from_url_spec (code_points "https://x.example/jobs/view/")).
    vm_compute. lia.
Defined.

End UrlFacts.

(** ** The scan controller *)

Module ScanFacts.
Import Db Scan.

(** Liveness only depends on the list of threads. *)
Lemma live_threads s s' t : threads s' = threads s -> live s' t <-> live s t.
Proof. unfold live. by intros ->. Qed.

Lemma live_update s s' t w w' :
  threads s !! t = Some w -> threads s' = <[t := w']> (threads s) ->
  forall t', live s' t' -> (t' = t /\ is_alive w' = true) \/ (t' <> t /\ live s t').
Proof.
  intros Ht Hs' t' (w0 & Hw0 & Ha). rewrite Hs' in Hw0.
  destruct (decide (t' = t)) as [->|Hne].
  - left. split; [done|]. rewrite list_lookup_insert_eq in Hw0.
    + by injection Hw0 as ->.
    + by eapply lookup_lt_Some.
  - right. split; [done|]. rewrite list_lookup_insert_ne in Hw0 by done. by exists w0.
Qed.

Lemma live_append s s' t :
  threads s' = threads s ++ [Created] -> live s' t -> live s t.
Proof.
  intros Hs' (w & Hw & Ha). rewrite Hs' in Hw.
  apply lookup_app_Some in Hw as [Hw|[_ Hw]]; [by exists w|].
  destruct (t - length (threads s))%nat; simpl in Hw; [|done].
  injection Hw as <-. done.
Qed.

Lemma moved_lookup (cs : list pc) i p p' j q :
  cs !! i = Some p -> <[i := p']> cs !! j = Some q ->
  (j = i /\ q = p') \/ (j <> i /\ cs !! j = Some q).
Proof.
  intros Hi Hj. destruct (decide (j = i)) as [->|Hne].
  - left. split; [done|]. rewrite list_lookup_insert_eq in Hj; [congruence|].
    by eapply lookup_lt_Some.
  - right. by rewrite list_lookup_insert_ne in Hj.
Qed.

(** Activation [i] moves from [p] to [p']. *)
Lemma lock_inv_move s s' i p p' :
  lock_inv s -> callers s !! i = Some p ->
  callers s' = <[i := p']> (callers s) ->
  (inside p' = true -> scan_lock s' = Some i) ->
  (forall j, j <> i -> scan_lock s = Some j -> scan_lock s' = Some j) ->
  lock_inv s'.
Proof.
  intros Hinv Hi Hcs Hin Hkeep j q Hj Hq. rewrite Hcs in Hj.
  destruct (moved_lookup _ _ _ _ _ _ Hi Hj) as [[-> ->]|[Hne Hj']]; [auto|].
  apply Hkeep; [done|]. by apply (Hinv j q).
Qed.

Lemma thread_inv_move s s' i p p' :
  thread_inv s -> callers s !! i = Some p ->
  callers s' = <[i := p']> (callers s) ->
  threads s' = threads s -> scan_thread s' = scan_thread s ->
  (past_check p' = true -> past_check p = true \/ forall t, ~ live s t) ->
  (p' = StartLaunch -> p = StartLaunch) ->
  thread_inv s'.
Proof.
  intros (H1 & H2 & H3) Hi Hcs Hts Hst Hpast Hlaunch.
  split; [|split].
  - intros t Ht. rewrite Hst. apply H1. by apply (live_threads s s').
  - intros j q Hj Hq t Ht. apply (live_threads s s') in Ht; [|done].
    rewrite Hcs in Hj.
    destruct (moved_lookup _ _ _ _ _ _ Hi Hj) as [[-> ->]|[Hne Hj']].
    + destruct (Hpast Hq) as [Hp|Hno]; [by apply (H2 i p Hi Hp t)|by apply (Hno t)].
    + by apply (H2 j q Hj' Hq t).
  - intros j Hj. rewrite Hcs in Hj. rewrite Hts, Hst.
    destruct (moved_lookup _ _ _ _ _ _ Hi Hj) as [[-> Hp]|[Hne Hj']].
    + apply H3 with i. rewrite Hi. f_equal. by apply Hlaunch.
    + by apply H3 with j.
Qed.

Lemma past_check_inside p : past_check p = true -> inside p = true.
Proof. by destruct p. Qed.

Lemma no_live_of_check s :
  thread_inv s -> thread_alive s = false -> forall t, ~ live s t.
Proof.
  intros (H1 & _) Hcheck t Ht. pose proof (H1 t Ht) as Hst.
  destruct Ht as (w & Hw & Ha). unfold thread_alive in Hcheck.
  rewrite Hst, Hw in Hcheck. congruence.
Qed.

(** Steps that leave the activations, the lock and [_scan_thread]
    alone, start no thread and keep unstarted threads unstarted. *)
Lemma inv_quiet s s' :
  callers s' = callers s -> scan_lock s' = scan_lock s ->
  scan_thread s' = scan_thread s ->
  (forall t, live s' t -> live s t) ->
  (forall t, threads s !! t = Some Created -> threads s' !! t = Some Created) ->
  inv s -> inv s'.
Proof.
  intros Hcs Hl Hst Hlive Hcreated [Hlock (H1 & H2 & H3)]. split; [|split; [|split]].
  - intros i p. rewrite Hcs, Hl. apply Hlock.
  - intros t Ht. rewrite Hst. auto.
  - intros i p. rewrite Hcs. intros Hi Hp t Ht. apply (H2 i p Hi Hp t). auto.
  - intros i. rewrite Hcs, Hst. intros Hi.
    destruct (H3 i Hi) as (t & Ht & Hc). exists t. auto.
Qed.

Lemma inv_call s o : inv s -> inv (set_callers (callers s ++ [entry o]) s).
Proof.
  intros [Hlock (H1 & H2 & H3)].
  assert (Hold : forall j q, (callers s ++ [entry o]) !! j = Some q ->
            callers s !! j = Some q \/ q = entry o).
  { intros j q Hj. apply lookup_app_Some in Hj as [Hj|[_ Hj]]; [by left|right].
    destruct (j - length (callers s))%nat; simpl in Hj; [congruence|done]. }
  split; [|split; [|split]]; simpl.
  - intros j q Hj Hq. destruct (Hold j q Hj) as [Hj'| ->]; [by apply (Hlock j q)|].
    by destruct o.
  - apply H1.
  - intros j q Hj Hq. destruct (Hold j q Hj) as [Hj'| ->]; [by apply (H2 j q)|].
    by destruct o.
  - intros j Hj. destruct (Hold j _ Hj) as [Hj'|Hq]; [by apply (H3 j)|].
    by destruct o.
Qed.

(** Closes the two halves of the invariant after a step that moves one
    activation and leaves the threads alone. *)
Ltac move_step Hlock Hthr Hi :=
  split;
  [ eapply lock_inv_move; [exact Hlock|exact Hi|reflexivity| |]; simpl; auto;
    try (intros; discriminate)
  | eapply thread_inv_move; [exact Hthr|exact Hi|reflexivity|reflexivity|reflexivity| |];
    simpl; auto; try done ].

(** The steps of an activation keep the invariant. *)
Lemma inv_caller_step s i ev oops s' :
  inv s -> caller_step i ev oops s = Some s' -> inv s'.
Proof.
  intros [Hlock Hthr] Hstep. unfold caller_step in Hstep.
  destruct (callers s !! i) as [p|] eqn:Hi; [|done].
  assert (Hmine : inside p = true -> scan_lock s = Some i) by (apply (Hlock i p Hi)).
  assert (Hother : inside p = true -> forall j, j <> i -> scan_lock s = Some j ->
                     scan_lock s = Some j) by done.
  destruct p; simpl in Hmine.
  - (* StartAcquire *)
    destruct (scan_lock s) eqn:Hl; [done|]. injection Hstep as <-.
    move_step Hlock Hthr Hi. intros j _. rewrite Hl. done.
  - (* StartCheck *)
    destruct (thread_alive s) eqn:Hcheck; injection Hstep as <-; move_step Hlock Hthr Hi.
    intros _. right. by apply no_live_of_check.
  - injection Hstep as <-. move_step Hlock Hthr Hi.
  - destruct oops; injection Hstep as <-; move_step Hlock Hthr Hi.
  - destruct (init_db ev (sys s)) as [[[]|e] w]; injection Hstep as <-; move_step Hlock Hthr Hi.
  - destruct (set_stop_scan_flag false ev (sys s)) as [[[]|e] w];
      injection Hstep as <-; move_step Hlock Hthr Hi.
  - (* StartCreate *)
    injection Hstep as <-. destruct Hthr as (H1 & H2 & H3).
    assert (Hno : forall t, ~ live s t) by (apply (H2 i StartCreate Hi eq_refl)).
    split.
    + eapply lock_inv_move; [exact Hlock|exact Hi|reflexivity| |]; simpl; auto.
    + assert (Hno' : forall t, ~ live (goto i StartLaunch
                (set_scan_thread (Some (length (threads s)))
                   (set_threads (threads s ++ [Created]) s))) t).
      { intros t Ht. apply (Hno t). by eapply live_append; [|exact Ht]. }
      split; [|split].
      * intros t Ht. by destruct (Hno' t).
      * intros j q _ _. apply Hno'.
      * intros j _. exists (length (threads s)). split; [done|]. simpl.
        by rewrite lookup_app_r, Nat.sub_diag.
  - (* StartLaunch *)
    destruct oops; [injection Hstep as <-; move_step Hlock Hthr Hi|].
    destruct Hthr as (H1 & H2 & H3).
    destruct (H3 i Hi) as (t & Hst & Hcreated). rewrite Hst in Hstep.
    injection Hstep as <-.
    assert (Hno : forall t, ~ live s t) by (apply (H2 i StartLaunch Hi eq_refl)).
    assert (Halone : forall j q, j <> i -> callers s !! j = Some q -> inside q = false).
    { intros j q Hne Hj. destruct (inside q) eqn:Hq; [|done].
      pose proof (Hlock j q Hj Hq) as Hlj. rewrite Hmine in Hlj by done. congruence. }
    split.
    + eapply lock_inv_move; [exact Hlock|exact Hi|reflexivity| |]; simpl; auto.
    + split; [|split].
      * intros t' Ht'. simpl.
        pose proof (fun H => live_update s _ t Created InBody Hcreated H t' Ht') as Hu.
        destruct (Hu eq_refl) as [[-> _]|[_ Hl]]; [done|by destruct (Hno t')].
      * intros j q Hj Hq. simpl in Hj.
        destruct (moved_lookup _ _ _ _ _ _ Hi Hj) as [[-> ->]|[Hne Hj']]; [done|].
        apply past_check_inside in Hq. by rewrite (Halone j q Hne Hj') in Hq.
      * intros j Hj. simpl in Hj.
        destruct (moved_lookup _ _ _ _ _ _ Hi Hj) as [[-> Hq]|[Hne Hj']]; [done|].
        by pose proof (Halone j _ Hne Hj').
  - destruct (scan_lock s) eqn:Hl; [done|]. injection Hstep as <-.
    move_step Hlock Hthr Hi. intros j _. rewrite Hl. done.
  - destruct (thread_alive s) eqn:Hcheck; injection Hstep as <-; move_step Hlock Hthr Hi.
  - injection Hstep as <-. move_step Hlock Hthr Hi.
  - destruct (set_stop_scan_flag true ev (sys s)) as [[[]|e] w];
      injection Hstep as <-; move_step Hlock Hthr Hi.
  - destruct (scan_lock s) eqn:Hl; [done|]. injection Hstep as <-.
    move_step Hlock Hthr Hi. intros j _. rewrite Hl. done.
  - injection Hstep as <-. move_step Hlock Hthr Hi.
  - injection Hstep as <-. move_step Hlock Hthr Hi.
  - (* Leave *)
    injection Hstep as <-. move_step Hlock Hthr Hi.
    intros j Hne Hj. rewrite Hmine in Hj by done. congruence.
  - done.
Qed.

Lemma inv_initial w : inv (initial w).
Proof.
  split; [|split; [|split]]; simpl.
  - by intros i p.
  - by intros t (w' & Hw & _).
  - by intros i p.
  - by intros i.
Qed.

(** Every step keeps the invariant. *)
Lemma inv_step s e s' : inv s -> step s e = Some s' -> inv s'.
Proof.
  intros Hinv Hstep. destruct e as [o|i ev oops|t io|t raised|t ev]; simpl in Hstep.
  - injection Hstep as <-. by apply inv_call.
  - by eapply inv_caller_step.
  - destruct (threads s !! t) as [[]|]; try done. injection Hstep as <-.
    by apply (inv_quiet s).
  - destruct (threads s !! t) as [[]|] eqn:Ht; try done.
    assert (Hq : inv (set_threads (<[t := Resetting]> (threads s)) s)).
    { apply (inv_quiet s); try done; simpl.
      - intros t' Ht'.
        pose proof (fun H => live_update s _ t InBody Resetting Ht H t' Ht') as Hu.
        destruct (Hu eq_refl) as [[-> _]|[_ Hl]]; [by exists InBody|done].
      - intros t' Hc. rewrite list_lookup_insert_ne; [done|]. congruence. }
    destruct raised; injection Hstep as <-; [|done].
    revert Hq. by apply inv_quiet.
  - destruct (threads s !! t) as [[]|] eqn:Ht; try done.
    + injection Hstep as <-. apply (inv_quiet s); try done; simpl.
      * intros t' Ht'.
        pose proof (fun H => live_update (set_signal false s) _ t Resetting Persisting Ht H t' Ht') as Hu.
        destruct (Hu eq_refl) as [[-> _]|[_ Hl]]; [by exists Resetting|done].
      * intros t' Hc. rewrite list_lookup_insert_ne; [done|]. congruence.
    + destruct (set_stop_scan_flag false ev (sys s)) as [r w]. injection Hstep as <-.
      apply (inv_quiet s); try done; simpl.
      * intros t' Ht'.
        pose proof (fun H => live_update (set_sys w s) _ t Persisting Dead Ht H t' Ht') as Hu.
        destruct (Hu eq_refl) as [[-> Hd]|[_ Hl]]; [done|done].
      * intros t' Hc. rewrite list_lookup_insert_ne; [done|]. congruence.
Qed.

Lemma reachable_inv s : reachable s -> inv s.
Proof.
  induction 1 as [w|s e s' _ IH Hstep]; [apply inv_initial|by eapply inv_step].
Qed.

(** *** Uninterrupted calls *)

Lemma goto_at i p q s : callers s !! i = Some q -> callers (goto i p s) !! i = Some p.
Proof.
  intros H. simpl. apply list_lookup_insert_eq. by eapply lookup_lt_Some.
Qed.

Lemma entered s o :
  callers (set_callers (callers s ++ [entry o]) s) !! length (callers s) = Some (entry o).
Proof. simpl. by rewrite lookup_app_r, Nat.sub_diag. Qed.

Lemma drive_step fuel i ev oops s p s' :
  callers s !! i = Some p -> (forall r, p <> Returned r) ->
  caller_step i ev oops s = Some s' ->
  drive (S fuel) i ev oops s = drive fuel i ev oops s'.
Proof.
  intros Hi Hp Hstep. simpl. rewrite Hi, Hstep.
  destruct p; try done. by destruct (Hp r).
Qed.

Lemma drive_done fuel i ev oops s r :
  callers s !! i = Some (Returned r) -> drive fuel i ev oops s = Some (r, s).
Proof. intros Hi. destruct fuel; simpl; by rewrite Hi. Qed.

(** [start_scan] while a task is live. *)
Lemma start_scan_live ev oops s :
  scan_lock s = None -> thread_alive s = true ->
  exists s', start_scan ev oops s = Some (Outcome false "Scan is already running", s') /\
             threads s' = threads s /\ scan_thread s' = scan_thread s /\
             scan_stop_signal s' = scan_stop_signal s /\ sys s' = sys s /\
             scan_lock s' = None.
Proof.
  intros Hl Ha. unfold start_scan, call.
  set (i := length (callers s)). set (s0 := set_callers _ s).
  assert (H0 : callers s0 !! i = Some StartAcquire) by apply (entered s StartScan).
  erewrite drive_step; [|exact H0|done|unfold caller_step; rewrite H0; simpl; by rewrite Hl].
  set (s1 := goto i StartCheck _).
  assert (H1 : callers s1 !! i = Some StartCheck) by (by eapply goto_at).
  erewrite drive_step; [|exact H1|done|
    unfold caller_step; rewrite H1; by replace (thread_alive s1) with true].
  set (s2 := goto i (Leave _) s1).
  assert (H2 : callers s2 !! i = Some (Leave (Outcome false "Scan is already running")))
    by (by eapply goto_at).
  erewrite drive_step; [|exact H2|done|unfold caller_step; by rewrite H2].
  set (s3 := goto i (Returned _) _).
  assert (H3 : callers s3 !! i = Some (Returned (Outcome false "Scan is already running")))
    by (by eapply goto_at).
  rewrite (drive_done _ _ _ _ _ _ H3). by exists s3.
Qed.

(** [stop_scan] while no task is live. *)
Lemma stop_scan_idle ev oops s :
  scan_lock s = None -> thread_alive s = false ->
  exists s', stop_scan ev oops s = Some (Outcome false "No scan is currently running", s') /\
             threads s' = threads s /\ scan_thread s' = scan_thread s /\
             scan_stop_signal s' = scan_stop_signal s /\ sys s' = sys s /\
             scan_lock s' = None.
Proof.
  intros Hl Ha. unfold stop_scan, call.
  set (i := length (callers s)). set (s0 := set_callers _ s).
  assert (H0 : callers s0 !! i = Some StopAcquire) by apply (entered s StopScan).
  erewrite drive_step; [|exact H0|done|unfold caller_step; rewrite H0; simpl; by rewrite Hl].
  set (s1 := goto i StopCheck _).
  assert (H1 : callers s1 !! i = Some StopCheck) by (by eapply goto_at).
  erewrite drive_step; [|exact H1|done|
    unfold caller_step; rewrite H1; by replace (thread_alive s1) with false].
  set (s2 := goto i (Leave _) s1).
  assert (H2 : callers s2 !! i = Some (Leave (Outcome false "No scan is currently running")))
    by (by eapply goto_at).
  erewrite drive_step; [|exact H2|done|unfold caller_step; by rewrite H2].
  set (s3 := goto i (Returned _) _).
  assert (H3 : callers s3 !! i = Some (Returned (Outcome false "No scan is currently running")))
    by (by eapply goto_at).
  rewrite (drive_done _ _ _ _ _ _ H3). by exists s3.
Qed.

Lemma thread_alive_live s :
  inv s -> thread_alive s = true <-> exists t, live s t.
Proof.
  intros [_ (H1 & _)]. split.
  - unfold thread_alive. destruct (scan_thread s) as [t|]; [|done].
    destruct (threads s !! t) as [w|] eqn:Hw; [|done]. intros Ha. exists t. by exists w.
  - intros [t Ht]. destruct (thread_alive s) eqn:E; [done|].
    pose proof (H1 t Ht) as Hst. destruct Ht as (w & Hw & Ha).
    unfold thread_alive in E. rewrite Hst, Hw in E. congruence.
Qed.

(** C1. In every state the process can reach: at most one scan task is
    live; an activation inside a [with _scan_lock:] block of [start_scan],
    [stop_scan] or [get_scan_status] holds the lock, so there is at most
    one; a [start_scan] that finds a live task at its check returns
    (False, "Scan is already running") and constructs no thread, and so
    does a whole call made while a task is live; a [stop_scan] that finds
    no live task returns (False, "No scan is currently running"). *)
Theorem single_flight s :
  reachable s ->
  at_most_one_live s /\
  (forall i, in_critical_section s i -> scan_lock s = Some i) /\
  (forall i j, in_critical_section s i -> in_critical_section s j -> i = j) /\
  (forall i ev oops,
     callers s !! i = Some StartCheck -> (exists t, live s t) ->
     exists s1 s2,
       step s (Caller i ev oops) = Some s1 /\ step s1 (Caller i ev oops) = Some s2 /\
       callers s2 !! i = Some (Returned (Outcome false "Scan is already running")) /\
       threads s2 = threads s) /\
  (forall i ev oops,
     callers s !! i = Some StopCheck -> (forall t, ~ live s t) ->
     exists s1 s2,
       step s (Caller i ev oops) = Some s1 /\ step s1 (Caller i ev oops) = Some s2 /\
       callers s2 !! i = Some (Returned (Outcome false "No scan is currently running")) /\
       scan_stop_signal s2 = scan_stop_signal s /\ sys s2 = sys s) /\
  (forall ev oops,
     scan_lock s = None -> (exists t, live s t) ->
     exists s', start_scan ev oops s =
                  Some (Outcome false "Scan is already running", s') /\
                threads s' = threads s) /\
  (forall ev oops,
     scan_lock s = None -> (forall t, ~ live s t) ->
     exists s', stop_scan ev oops s =
                  Some (Outcome false "No scan is currently running", s') /\
                scan_stop_signal s' = scan_stop_signal s /\ sys s' = sys s).
Proof.
  intros Hreach. pose proof (reachable_inv s Hreach) as Hinv.
  pose proof Hinv as [Hlock (H1 & H2 & H3)].
  assert (Hidle : (forall t, ~ live s t) -> thread_alive s = false).
  { intros Hno. destruct (thread_alive s) eqn:E; [|done].
    apply thread_alive_live in E as [t Ht]; [|done]. by destruct (Hno t). }
  split; [|split; [|split; [|split; [|split; [|split]]]]].
  - intros t1 t2 Ht1 Ht2. apply H1 in Ht1, Ht2. congruence.
  - intros i (p & Hi & Hp). by apply (Hlock i p).
  - intros i j (p & Hi & Hp) (q & Hj & Hq).
    pose proof (Hlock i p Hi Hp). pose proof (Hlock j q Hj Hq). congruence.
  - intros i ev oops Hi Hlive. apply thread_alive_live in Hlive; [|done].
    simpl. unfold caller_step at 1. rewrite Hi, Hlive.
    eexists. eexists. split; [reflexivity|].
    unfold caller_step. erewrite goto_at by exact Hi.
    split; [reflexivity|]. split; [|done]. eapply goto_at. by eapply goto_at.
  - intros i ev oops Hi Hno. apply Hidle in Hno.
    simpl. unfold caller_step at 1. rewrite Hi, Hno.
    eexists. eexists. split; [reflexivity|].
    unfold caller_step. erewrite goto_at by exact Hi.
    split; [reflexivity|]. split; [|done]. eapply goto_at. by eapply goto_at.
  - intros ev oops Hl Hlive. apply thread_alive_live in Hlive; [|done].
    destruct (start_scan_live ev oops s Hl Hlive) as (s' & Hs & Ht & _). by exists s'.
  - intros ev oops Hl Hno. apply Hidle in Hno.
    destruct (stop_scan_idle ev oops s Hl Hno) as (s' & Hs & _ & _ & Hsig & Hsys & _).
    by exists s'.
Qed.

Lemma stop_flag_written v ev w u w' s :
  set_stop_scan_flag v ev w = (Ok u, w') -> sys s = w' ->
  persisted_stop_flag s = v.
Proof.
  intros Hw Hs. unfold persisted_stop_flag. rewrite Hs.
  assert (H : fst (should_stop_scan (steady EmptyString) w') = Ok v).
  { revert Hw.
    unfold set_stop_scan_flag, set_stop_scan_flag_tx, should_stop_scan, should_stop_scan_tx.
    intros Hw.
    destruct (StoreFacts.one_statement_cases (InsertOrReplaceStopFlag ADMIN_USER_ID v)
                (fun _ => tt) ev w) as [Heq|(e & w1 & Heq & _)];
      rewrite Heq in Hw; [|done]. injection Hw as _ <-.
    rewrite StoreFacts.one_statement by done. simpl.
    rewrite List.filter_app, StoreFacts.filter_negb_filter. simpl. by destruct v. }
  destruct (should_stop_scan (steady EmptyString) w') as [[b|e] w'']; simpl in H; congruence.
Qed.

Lemma stop_flag_cleared ev w s :
  reliable ev -> sys s = snd (set_stop_scan_flag false ev w) ->
  persisted_stop_flag s = false.
Proof.
  intros Hev Hs.
  destruct (set_stop_scan_flag false ev w) as [[[]|e] w'] eqn:Hw.
  - by apply (stop_flag_written false ev w tt w').
  - unfold set_stop_scan_flag, set_stop_scan_flag_tx in Hw.
    by rewrite StoreFacts.one_statement in Hw.
Qed.

Lemma lookup_insert_same (ts : list worker) t w w0 :
  ts !! t = Some w0 -> <[t := w]> ts !! t = Some w.
Proof. intros H. apply list_lookup_insert_eq. by eapply lookup_lt_Some. Qed.

(** [get_scan_status] once the task is dead and the signal cleared. *)
Lemma get_scan_status_idle ev oops s :
  scan_lock s = None -> thread_alive s = false -> scan_stop_signal s = false ->
  exists s', get_scan_status ev oops s = Some (Status false false, s').
Proof.
  intros Hl Ha Hsig. unfold get_scan_status, call.
  set (i := length (callers s)). set (s0 := set_callers _ s).
  assert (H0 : callers s0 !! i = Some StatusAcquire) by apply (entered s GetScanStatus).
  erewrite drive_step; [|exact H0|done|unfold caller_step; rewrite H0; simpl; by rewrite Hl].
  set (s1 := goto i StatusAlive _).
  assert (H1 : callers s1 !! i = Some StatusAlive) by (by eapply goto_at).
  erewrite drive_step; [|exact H1|done|unfold caller_step; by rewrite H1].
  replace (thread_alive s1) with false by done.
  set (s2 := goto i (StatusSignal false) s1).
  assert (H2 : callers s2 !! i = Some (StatusSignal false)) by (by eapply goto_at).
  erewrite drive_step; [|exact H2|done|unfold caller_step; by rewrite H2].
  replace (scan_stop_signal s2) with false by done.
  set (s3 := goto i (Leave _) s2).
  assert (H3 : callers s3 !! i = Some (Leave (Status false false))) by (by eapply goto_at).
  erewrite drive_step; [|exact H3|done|unfold caller_step; by rewrite H3].
  set (s4 := goto i (Returned _) _).
  assert (H4 : callers s4 !! i = Some (Returned (Status false false))) by (by eapply goto_at).
  rewrite (drive_done _ _ _ _ _ _ H4). by exists s4.
Qed.

(** [stop_scan] while the task is live. *)
Lemma stop_scan_live ev oops s :
  scan_lock s = None -> thread_alive s = true ->
  exists r s',
    stop_scan ev oops s = Some (r, s') /\
    threads s' = threads s /\ scan_thread s' = scan_thread s /\
    scan_stop_signal s' = true /\ scan_lock s' = None /\
    sys s' = snd (set_stop_scan_flag true ev (sys s)) /\
    r = match fst (set_stop_scan_flag true ev (sys s)) with
        | Ok _ => Outcome true "Stop signal sent"
        | Raise e => Outcome false ("Failed to send stop signal: " +:+ str e)
        end.
Proof.
  intros Hl Ha. unfold stop_scan, call.
  set (i := length (callers s)). set (s0 := set_callers _ s).
  assert (H0 : callers s0 !! i = Some StopAcquire) by apply (entered s StopScan).
  erewrite drive_step; [|exact H0|done|unfold caller_step; rewrite H0; simpl; by rewrite Hl].
  set (s1 := goto i StopCheck _).
  assert (H1 : callers s1 !! i = Some StopCheck) by (by eapply goto_at).
  erewrite drive_step; [|exact H1|done|
    unfold caller_step; rewrite H1; by replace (thread_alive s1) with true].
  set (s2 := goto i StopSignal s1).
  assert (H2 : callers s2 !! i = Some StopSignal) by (by eapply goto_at).
  erewrite drive_step; [|exact H2|done|unfold caller_step; by rewrite H2].
  set (s3 := goto i StopFlag _).
  assert (H3 : callers s3 !! i = Some StopFlag) by (by eapply goto_at).
  assert (Hsys : sys s3 = sys s) by done.
  destruct (set_stop_scan_flag true ev (sys s)) as [[[]|e] w] eqn:Hw.
  - erewrite drive_step; [|exact H3|done|unfold caller_step; by rewrite H3, Hsys, Hw].
    set (s4 := goto i (Leave _) _).
    assert (H4 : callers s4 !! i = Some (Leave (Outcome true "Stop signal sent")))
      by (by eapply goto_at).
    erewrite drive_step; [|exact H4|done|unfold caller_step; by rewrite H4].
    set (s5 := goto i (Returned _) _).
    assert (H5 : callers s5 !! i = Some (Returned (Outcome true "Stop signal sent")))
      by (by eapply goto_at).
    rewrite (drive_done _ _ _ _ _ _ H5). by eexists _, s5.
  - erewrite drive_step; [|exact H3|done|unfold caller_step; by rewrite H3, Hsys, Hw].
    set (s4 := goto i (Leave _) _).
    assert (H4 : callers s4 !! i =
                 Some (Leave (Outcome false ("Failed to send stop signal: " +:+ str e))))
      by (by eapply goto_at).
    erewrite drive_step; [|exact H4|done|unfold caller_step; by rewrite H4].
    set (s5 := goto i (Returned _) _).
    assert (H5 : callers s5 !! i =
                 Some (Returned (Outcome false ("Failed to send stop signal: " +:+ str e))))
      by (by eapply goto_at).
    rewrite (drive_done _ _ _ _ _ _ H5). by eexists _, s5.
Qed.

Lemma run_app s es1 es2 s1 :
  run s es1 = Some s1 -> run s (es1 ++ es2) = run s1 es2.
Proof.
  revert s. induction es1 as [|e es1 IH]; simpl; intros s H; [congruence|].
  destruct (step s e); [by apply IH|done].
Qed.

(** The worker leaves its body... *)
Lemma body_exit s t io raised :
  threads s !! t = Some InBody ->
  exists s',
    run s [Scrape t io; Finish t raised] = Some s' /\
    threads s' !! t = Some Resetting /\
    scan_thread s' = scan_thread s /\ scan_lock s' = scan_lock s.
Proof.
  intros Ht. unfold run. unfold step at 1. rewrite Ht.
  assert (H1 : threads (scrape_phase io s) !! t = Some InBody) by done.
  unfold step. rewrite H1.
  destruct raised; eexists; (split; [reflexivity|]); simpl;
    (split; [by eapply lookup_insert_same|done]).
Qed.

(** ... and runs its finally-block. *)
Lemma finally_block s t ev1 ev2 :
  threads s !! t = Some Resetting ->
  exists s',
    run s [Cleanup t ev1; Cleanup t ev2] = Some s' /\
    scan_stop_signal s' = false /\ threads s' !! t = Some Dead /\
    scan_thread s' = scan_thread s /\ scan_lock s' = scan_lock s /\
    (reliable ev2 -> persisted_stop_flag s' = false).
Proof.
  intros Ht. unfold run. unfold step at 1. rewrite Ht.
  set (s3 := set_threads _ (set_signal false s)).
  assert (H3 : threads s3 !! t = Some Persisting) by (by eapply lookup_insert_same).
  unfold step. rewrite H3.
  destruct (set_stop_scan_flag false ev2 (sys s3)) as [r w] eqn:Hw.
  eexists. split; [reflexivity|]. simpl.
  split; [done|]. split; [by eapply lookup_insert_same|].
  split; [done|]. split; [done|].
  intros Hev2. apply (stop_flag_cleared ev2 (sys s3)); [done|]. by rewrite Hw.
Qed.

Lemma worker_exit s t io raised ev1 ev2 :
  threads s !! t = Some InBody ->
  exists s',
    run s [Scrape t io; Finish t raised; Cleanup t ev1; Cleanup t ev2] = Some s' /\
    scan_stop_signal s' = false /\ threads s' !! t = Some Dead /\
    scan_thread s' = scan_thread s /\ scan_lock s' = scan_lock s /\
    (reliable ev2 -> persisted_stop_flag s' = false).
Proof.
  intros Ht.
  destruct (body_exit s t io raised Ht) as (s1 & Hrun1 & Ht1 & Hst1 & Hl1).
  destruct (finally_block s1 t ev1 ev2 Ht1) as (s2 & Hrun2 & Hsig & Hdead & Hst2 & Hl2 & Hp).
  exists s2.
  change [Scrape t io; Finish t raised; Cleanup t ev1; Cleanup t ev2]
    with ([Scrape t io; Finish t raised] ++ [Cleanup t ev1; Cleanup t ev2]).
  rewrite (run_app _ _ _ _ Hrun1). split; [done|]. split; [done|]. split; [done|].
  split; [congruence|]. split; [congruence|done].
Qed.

(** A [stop_scan] called while the scan task is inside its body:
    when it returns success, the in-memory signal and the persisted flag
    are both set (and it does return success when its store call works).
    When the task then leaves its body, by returning or by raising, and
    runs its finally-block with a store call that works, both are
    cleared, the task is dead and [get_scan_status] reports
    is_running = False, stop_requested = False. *)
Lemma stop_then_exit s t ev oops :
  scan_lock s = None -> scan_thread s = Some t -> threads s !! t = Some InBody ->
  exists r s1,
    stop_scan ev oops s = Some (r, s1) /\
    (reliable ev -> r = Outcome true "Stop signal sent") /\
    (forall m, r = Outcome true m ->
       scan_stop_signal s1 = true /\ persisted_stop_flag s1 = true /\
       forall io raised ev1 ev2, reliable ev2 ->
         exists s2,
           run s1 [Scrape t io; Finish t raised; Cleanup t ev1; Cleanup t ev2] = Some s2 /\
           scan_stop_signal s2 = false /\ persisted_stop_flag s2 = false /\
           threads s2 !! t = Some Dead /\
           forall ev3 oops3,
             exists s3, get_scan_status ev3 oops3 s2 = Some (Status false false, s3)).
Proof.
  intros Hl Hst Ht.
  assert (Ha : thread_alive s = true) by (unfold thread_alive; by rewrite Hst, Ht).
  destruct (stop_scan_live ev oops s Hl Ha) as (r & s1 & Hstop & Hts & Hst1 & Hsig & Hl1 & Hsys & Hr).
  exists r, s1. split; [done|]. split.
  - intros Hev. rewrite Hr. unfold set_stop_scan_flag, set_stop_scan_flag_tx.
    by rewrite StoreFacts.one_statement.
  - intros m Hm. split; [done|].
    destruct (set_stop_scan_flag true ev (sys s)) as [[[]|e] w] eqn:Hw; simpl in Hr;
      [|congruence].
    split.
    { by apply (stop_flag_written true ev (sys s) tt w). }
    intros io raised ev1 ev2 Hev2.
    rewrite <- Hts in Ht.
    destruct (worker_exit s1 t io raised ev1 ev2 Ht) as (s2 & Hrun & Hsig2 & Hdead & Hst2 & Hl2 & Hp).
    exists s2. split; [done|]. split; [done|]. split; [by apply Hp|]. split; [done|].
    intros ev3 oops3. apply get_scan_status_idle; [congruence| |done].
    unfold thread_alive. by rewrite Hst2, Hst1, Hst, Hdead.
Qed.

(** *** The theorems at a sample state *)

Lemma reachable_run s es s' : reachable s -> run s es = Some s' -> reachable s'.
Proof.
  revert s. induction es as [|e es IH]; simpl; intros s Hs H; [congruence|].
  destruct (step s e) as [s1|] eqn:E; [|done].
  apply (IH s1); [by eapply reachable_step|done].
Qed.

Lemma reachable_running : reachable running.
Proof.
  apply (reachable_run (initial sample_world) start_events); [constructor|].
  by vm_compute.
Qed.

Lemma single_flight_witness :
  reachable running /\ live running 0 /\ at_most_one_live running /\
  exists s', start_scan noon None running =
               Some (Outcome false "Scan is already running", s') /\
             threads s' = threads running.
Proof.
  assert (Hlive : live running 0) by (exists InBody; by vm_compute).
  split; [apply reachable_running|]. split; [exact Hlive|].
  destruct (single_flight running reachable_running) as (H1 & _ & _ & _ & _ & Hstart & _).
  split; [exact H1|]. apply Hstart; [reflexivity|by exists 0%nat].
Defined.

(** C2. The finally-block of the scan task clears the two flags
    without taking [_scan_lock]. A [stop_scan] that runs between its two
    statements finds the task live and returns (True, "Stop signal sent")
    with both flags set; the task then clears the persisted flag only and
    exits. The in-memory signal stays set: [get_scan_status] reports
    is_running = False, stop_requested = True. *)
Theorem late_stop_leaves_signal_set :
  exists s1 s2,
    run (initial sample_world) late_stop_events = Some s1 /\
    threads s1 !! 0%nat = Some Persisting /\ thread_alive s1 = true /\
    callers s1 !! 1%nat = Some (Returned (Outcome true "Stop signal sent")) /\
    scan_stop_signal s1 = true /\ persisted_stop_flag s1 = true /\
    run (initial sample_world) late_stop_exit_events = Some s2 /\
    threads s2 !! 0%nat = Some Dead /\
    scan_stop_signal s2 = true /\ persisted_stop_flag s2 = false /\
    fst <$> get_scan_status noon None s2 = Some (Status false true).
Proof.
  eexists. eexists.
  split; [by vm_compute|]. do 5 (split; [by vm_compute|]).
  split; [by vm_compute|]. do 3 (split; [by vm_compute|]). by vm_compute.
Qed.

Lemma stop_then_exit_witness :
  threads running !! 0%nat = Some InBody /\
  exists s1,
    stop_scan noon None running = Some (Outcome true "Stop signal sent", s1) /\
    scan_stop_signal s1 = true /\ persisted_stop_flag s1 = true /\
    exists s2,
      run s1 [Scrape 0 id; Finish 0 (Some (RuntimeError "boom"));
              Cleanup 0 noon; Cleanup 0 noon] = Some s2 /\
      scan_stop_signal s2 = false /\ persisted_stop_flag s2 = false.
Proof.
  split; [reflexivity|].
  destruct (stop_then_exit running 0 noon None eq_refl eq_refl eq_refl)
    as (r & s1 & Hstop & Hok & Hafter).
  pose proof (Hok StoreFacts.reliable_noon) as Hr. subst r.
  destruct (Hafter _ eq_refl) as (Hsig & Hflag & Hexit).
  exists s1. split; [exact Hstop|]. split; [exact Hsig|]. split; [exact Hflag|].
  destruct (Hexit id (Some (RuntimeError "boom")) noon noon StoreFacts.reliable_noon)
    as (s2 & Hrun & Hsig2 & Hflag2 & _).
  exists s2. split; [exact Hrun|]. split; [exact Hsig2|exact Hflag2].
Defined.

End ScanFacts.

(** ** The evaluation dispatcher *)

Module EvaluateFacts.
Import Evaluate.

Section Dispatch.

Context {json : Type}.
Variable get_user_config : Z -> config.
Variable provider : request -> res string.
Variable json_loads : string -> res json.

Lemma not_configured_test placeholder key :
  not_configured placeholder key ->
  unset key || String.eqb (default EmptyString key) placeholder = true.
Proof.
  intros [->| ->]; [done|]. simpl. rewrite String.eqb_refl. apply orb_true_r.
Qed.

(** C8. [analyze_job] picks the provider by the lower-cased
    [ai_provider] setting (so "OpenAI" and "GEMINI" select the two
    providers). With "openai" and an OpenAI key that is absent or the
    placeholder, and with "gemini" and a Google key that is absent or
    the placeholder, it raises ValueError having sent nothing to any
    provider; with any other name it raises a ValueError whose text
    quotes the (lower-cased) name, again having sent nothing. *)
Theorem analyze_job_configuration_errors job_description user_id resume :
  let user_config := get_user_config user_id in
  let name := selected_provider user_config in
  (name = "openai" ->
   not_configured "YOUR_OPENAI_API_KEY_HERE"
     (setting user_config "api_keys" "openai_api_key") ->
   analyze_job get_user_config provider json_loads job_description user_id resume =
     (Raise (ValueError ("OpenAI API Key not configured for user " +:+
                         str_of_int user_id +:+ " or is a placeholder.")), [])) /\
  (name = "gemini" ->
   not_configured "YOUR_GOOGLE_API_KEY_HERE"
     (setting user_config "api_keys" "google_api_key") ->
   analyze_job get_user_config provider json_loads job_description user_id resume =
     (Raise (ValueError "Google API Key not configured for user or is a placeholder."),
      [])) /\
  (name <> "openai" -> name <> "gemini" ->
   analyze_job get_user_config provider json_loads job_description user_id resume =
     (Raise (ValueError ("Invalid AI provider configured for user " +:+
                         str_of_int user_id +:+ ": '" +:+ name +:+
                         "'. Must be 'openai' or 'gemini'.")), [])) /\
  lower "OpenAI" = "openai" /\ lower "GEMINI" = "gemini".
Proof.
  intros user_config name. subst user_config name. unfold analyze_job, selected_provider.
  split; [|split; [|split; [|by split]]].
  - intros -> Hkey. simpl. by rewrite (not_configured_test _ _ Hkey).
  - intros -> Hkey. simpl. unfold call_gemini. by rewrite (not_configured_test _ _ Hkey).
  - intros Ho Hg. apply String.eqb_neq in Ho, Hg. by rewrite Ho, Hg.
Qed.

End Dispatch.

Lemma analyze_job_configuration_errors_witness :
  analyze_job (fun _ => placeholder_config) (fun _ => Ok "{}") (fun s => Ok s)
    "Build things." 1 None =
    (Raise (ValueError "OpenAI API Key not configured for user 1 or is a placeholder."), [])
  /\
  analyze_job (fun _ => claude_config) (fun _ => Ok "{}") (fun s => Ok s)
    "Build things." 1 None =
    (Raise (ValueError
       "Invalid AI provider configured for user 1: 'claude'. Must be 'openai' or 'gemini'."),
     []).
Proof.
  split.
  - apply (analyze_job_configuration_errors (fun _ => placeholder_config)
             (fun _ => Ok "{}") (fun s => Ok s) "Build things." 1 None);
      [reflexivity|by right].
  - apply (analyze_job_configuration_errors (fun _ => claude_config)
             (fun _ => Ok "{}") (fun s => Ok s) "Build things." 1 None);
      by vm_compute.
Defined.

End EvaluateFacts.

(** ** The store: invariants, listings and the remaining operations *)

Module StoreInvariants.
Import Db StoreFacts.

(** *** Tables *)

Lemma next_id_gt_seq {A} (key : A -> Z) (t : table A) : seq t < next_id key t.
Proof.
  unfold next_id. induction (rows t) as [|r l IH]; csimpl; lia.
Qed.

Lemma next_id_gt_key {A} (key : A -> Z) (t : table A) r :
  r ∈ rows t -> key r < next_id key t.
Proof.
  unfold next_id. induction (rows t) as [|x l IH]; csimpl; intros H.
  - by apply elem_of_nil in H.
  - apply elem_of_cons in H as [->|H]; [lia|]. specialize (IH H). lia.
Qed.

Lemma count_app_one {A} (p : A -> bool) (l : list A) x :
  length (List.filter p (l ++ [x])) =
  (length (List.filter p l) + if p x then 1 else 0)%nat.
Proof. rewrite List.filter_app, length_app. simpl. by destruct (p x). Qed.

Lemma count_tmap {A} (p : A -> bool) (f : A -> A) (t : table A) :
  (forall r, p (f r) = p r) -> count p (tmap f t) = count p t.
Proof.
  intros H. unfold count, tmap. simpl.
  induction (rows t) as [|x l IH]; [done|].
  rewrite fmap_cons. simpl. rewrite H. destruct (p x); simpl; by rewrite IH.
Qed.

Lemma filter_filter_le {A} (p q : A -> bool) (l : list A) :
  (length (List.filter p (List.filter q l)) <= length (List.filter p l))%nat.
Proof.
  induction l as [|x l IH]; simpl; [done|].
  destruct (q x); simpl; destruct (p x); simpl; lia.
Qed.

Lemma count_tfilter_le {A} (p q : A -> bool) (t : table A) :
  (count p (tfilter q t) <= count p t)%nat.
Proof. apply filter_filter_le. Qed.

Lemma elem_of_filter {A} (p : A -> bool) (l : list A) x :
  x ∈ List.filter p l <-> x ∈ l /\ p x = true.
Proof. rewrite !list_elem_of_In. apply List.filter_In. Qed.

Lemma NoDup_fmap_filter {A} (key : A -> Z) (p : A -> bool) (l : list A) :
  NoDup (key <$> l) -> NoDup (key <$> List.filter p l).
Proof.
  induction l as [|x l IH]; csimpl; [done|].
  intros [Hx Hl]%NoDup_cons. destruct (p x); [|auto].
  csimpl. apply NoDup_cons. split; [|auto].
  intros (y & Hy & Hin)%list_elem_of_fmap. apply elem_of_filter in Hin as [Hin _].
  apply Hx. apply list_elem_of_fmap. by exists y.
Qed.

Lemma keys_ok_tfilter {A} (key : A -> Z) (p : A -> bool) (t : table A) :
  keys_ok key t -> keys_ok key (tfilter p t).
Proof.
  intros [Hnd Hle]. split; simpl.
  - by apply NoDup_fmap_filter.
  - rewrite Forall_forall in *. intros r Hr%elem_of_filter. apply Hle, Hr.
Qed.

Lemma keys_ok_tmap {A} (key : A -> Z) (f : A -> A) (t : table A) :
  (forall r, key (f r) = key r) -> keys_ok key t -> keys_ok key (tmap f t).
Proof.
  intros Hf [Hnd Hle]. split; simpl.
  - rewrite <- list_fmap_compose.
    erewrite list_fmap_ext; [exact Hnd|]. intros i x _. simpl. apply Hf.
  - rewrite Forall_forall in *. intros r (x & -> & Hx)%list_elem_of_fmap.
    rewrite Hf. by apply Hle.
Qed.

(** Appending a row with the next rowid. *)
Lemma keys_ok_append {A} (key : A -> Z) (t : table A) (l : list A) r :
  keys_ok key t -> (forall x, x ∈ l -> x ∈ rows t) -> NoDup (key <$> l) ->
  key r = next_id key t ->
  keys_ok key {| rows := l ++ [r]; seq := next_id key t |}.
Proof.
  intros [Hnd Hle] Hsub Hl Hr. split; simpl.
  - rewrite fmap_app. apply NoDup_app. split; [done|]. split.
    + intros k (x & -> & Hx)%list_elem_of_fmap Hk. simpl in Hk.
      apply list_elem_of_singleton in Hk.
      pose proof (next_id_gt_key key t x (Hsub x Hx)). lia.
    + simpl. apply NoDup_singleton.
  - rewrite Forall_forall in *. intros x [Hx|Hx]%elem_of_app.
    + pose proof (next_id_gt_key key t x (Hsub x Hx)). lia.
    + apply list_elem_of_singleton in Hx as ->. lia.
Qed.

Lemma keys_ok_tinsert {A} (key : A -> Z) (mk : Z -> A) (t : table A) :
  (forall i, key (mk i) = i) -> keys_ok key t -> keys_ok key (tinsert key mk t).
Proof.
  intros Hmk Hok. unfold tinsert. apply keys_ok_append; auto. apply Hok.
Qed.

(** *** What transactions and operations keep *)

Lemma keeps_ret {A} P (a : A) : tx_keeps P (tx_ret a).
Proof. by intros ev c. Qed.

Lemma keeps_bind {A B} P (m : Tx A) (k : A -> Tx B) :
  tx_keeps P m -> (forall a, tx_keeps P (k a)) -> tx_keeps P (tx_bind m k).
Proof.
  intros Hm Hk ev c Hc. unfold tx_bind. specialize (Hm ev c Hc).
  destruct (m ev c) as [[a|e] c']; simpl in *; [by apply Hk|done].
Qed.

Lemma keeps_execute P q :
  (forall now d, P d -> P (snd (run now q d))) -> tx_keeps P (execute q).
Proof.
  intros Hq ev c Hc. unfold execute. destruct (fails ev (calls c)); [done|].
  destruct (binds q); [|done].
  specialize (Hq (now ev) (cur c) Hc). by destruct (run (now ev) q (cur c)).
Qed.

Lemma keeps_fetchall P q : tx_keeps P (fetchall q).
Proof. intros ev c Hc. unfold fetchall. by destruct (fails ev (calls c)). Qed.

Lemma keeps_print P line : tx_keeps P (tx_print line).
Proof. by intros ev c. Qed.

Lemma keeps_get_conn {A} P (body : Tx A) : tx_keeps P body -> op_keeps P (get_conn body).
Proof.
  intros Hb ev w Hw. unfold get_conn. destruct (fails ev 0%nat); [done|].
  specialize (Hb ev (connect w) Hw).
  destruct (body ev (connect w)) as [[a|e] c]; simpl in *; [|done].
  by destruct (fails ev (calls c)).
Qed.

Lemma keeps_try_print {A} P (m : Op A) (line : exn -> string) (a : A) :
  op_keeps P m ->
  op_keeps P (try_except m (fun e => op_bind (print (line e)) (fun _ => op_ret a))).
Proof.
  intros Hm ev w Hw. unfold try_except. specialize (Hm ev w Hw).
  by destruct (m ev w) as [[x|e] w'].
Qed.

Lemma keeps_op_map {A B} P (f : A -> B) (m : Op A) : op_keeps P m -> op_keeps P (op_map f m).
Proof.
  intros Hm ev w Hw. unfold op_map. specialize (Hm ev w Hw).
  by destruct (m ev w) as [[x|e] w'].
Qed.

(** Breaks a transaction body down to its statements. *)
Ltac keeps_tx :=
  repeat first
    [ apply keeps_ret | apply keeps_print | apply keeps_fetchall
    | apply keeps_bind; [|intros ?]
    | match goal with |- tx_keeps _ (match ?x with _ => _ end) => destruct x end ].

(** *** The constraints of the schema are kept *)

Lemma dj_is_true u j r :
  dj_is u j r = true <-> dj_user_id r = u /\ int64_val (dj_job_id r) = j.
Proof. unfold dj_is. rewrite andb_true_iff, !Z.eqb_eq. done. Qed.

Lemma aj_for_true u d r :
  aj_for u d r = true <-> aj_user_id r = u /\ aj_discovered_job_id r = d.
Proof. unfold aj_for. rewrite andb_true_iff, !Z.eqb_eq. done. Qed.

Lemma consistent_with_discovered d t :
  consistent d -> (forall u j, (count (dj_is u j) t <= 1)%nat) -> keys_ok dj_id t ->
  consistent (with_discovered d t).
Proof. unfold consistent. simpl. tauto. Qed.

Lemma consistent_with_approved d t :
  consistent d -> (forall u j, (count (aj_for u j) t <= 1)%nat) -> keys_ok aj_id t ->
  consistent (with_approved d t).
Proof. unfold consistent. simpl. tauto. Qed.

Lemma consistent_with_scan_control d t :
  consistent d -> (forall u, (count (sc_of u) t <= 1)%nat) -> keys_ok sc_id t ->
  consistent (with_scan_control d t).
Proof. unfold consistent. simpl. tauto. Qed.

Lemma replace_row_consistent d u (mk : Z -> scan_control) :
  (forall i, sc_id (mk i) = i) -> (forall i, sc_user_id (mk i) = u) ->
  consistent d ->
  consistent (with_scan_control d
    {| rows := List.filter (fun r => negb (sc_of u r)) (rows (user_scan_control d)) ++
               [mk (next_id sc_id (user_scan_control d))];
       seq := next_id sc_id (user_scan_control d) |}).
Proof.
  intros Hid Hu Hd. pose proof Hd as (_ & _ & H3 & _ & _ & H6).
  apply consistent_with_scan_control; [done| |].
  - intros u'. unfold count. simpl. rewrite count_app_one.
    replace (sc_of u' (mk (next_id sc_id (user_scan_control d)))) with (u =? u')
      by (unfold sc_of; by rewrite Hu).
    destruct (u =? u') eqn:E.
    + apply Z.eqb_eq in E as <-. by rewrite filter_negb_filter.
    + pose proof (filter_filter_le (sc_of u') (fun r => negb (sc_of u r))
                    (rows (user_scan_control d))).
      specialize (H3 u'). unfold count in H3. lia.
  - apply keys_ok_append; [done| |by apply NoDup_fmap_filter, H6|apply Hid].
    by intros x [Hx _]%elem_of_filter.
Qed.

Lemma to_int64_val z i : to_int64 z = Some i -> int64_val i = z.
Proof.
  assert (H : forall b (E : fits_int64 z = b),
            match b as b' return fits_int64 z = b' -> option int64 with
            | true => fun H => Some {| int64_val := z; int64_fits := H |}
            | false => fun _ => None
            end E = Some i -> int64_val i = z).
  { intros [] E; [by intros [= <-]|done]. }
  exact (H _ eq_refl).
Qed.

(** Every statement keeps the constraints. *)
Lemma run_consistent now q d : consistent d -> consistent (snd (run now q d)).
Proof.
  intros Hd. pose proof Hd as (H1 & H2 & H3 & H4 & H5 & H6).
  destruct q; simpl; try done.
  - (* INSERT OR IGNORE INTO discovered_jobs *)
    destruct (to_int64 j) as [job_id|] eqn:Hj; [|done].
    apply to_int64_val in Hj.
    destruct (existsb _ _) eqn:E; simpl; [done|].
    apply consistent_with_discovered; [done| |by apply keys_ok_tinsert].
    intros u' j'. rewrite count_tinsert. simpl.
    destruct (dj_is u' j' _) eqn:E'; [|specialize (H1 u' j'); lia].
    apply dj_is_true in E' as [<- <-]. simpl. rewrite Hj.
    rewrite (count_zero _ _ E). lia.
  - apply consistent_with_discovered; [done| |by apply keys_ok_tmap; [intros r; destruct (dj_is u j r)|]].
    intros u' j'. rewrite count_tmap; [apply H1|]. intros r. by destruct (dj_is u j r).
  - apply consistent_with_discovered; [done| |by apply keys_ok_tmap; [intros r; destruct (dj_is u j r)|]].
    intros u' j'. rewrite count_tmap; [apply H1|]. intros r. by destruct (dj_is u j r).
  - (* INSERT OR IGNORE INTO approved_jobs *)
    destruct (existsb _ _) eqn:E; simpl; [done|].
    apply consistent_with_approved; [done| |by apply keys_ok_tinsert].
    intros u' j'. rewrite count_tinsert. simpl.
    destruct (aj_for u' j' _) eqn:E'; [|specialize (H2 u' j'); lia].
    apply aj_for_true in E' as [<- <-]. simpl.
    rewrite (count_zero _ _ E). lia.
  - apply consistent_with_approved; [done| |by apply keys_ok_tmap; [intros r; destruct (aj_unapplied u pk r)|]].
    intros u' j'. rewrite count_tmap; [apply H2|]. intros r. by destruct (aj_unapplied u pk r).
  - apply consistent_with_approved; [done| |by apply keys_ok_tfilter].
    intros u' j'. etransitivity; [apply count_tfilter_le|apply H2].
  - apply consistent_with_approved; [done| |by apply keys_ok_tfilter].
    intros u' j'. etransitivity; [apply count_tfilter_le|apply H2].
  - apply consistent_with_discovered; [done| |by apply keys_ok_tfilter].
    intros u' j'. etransitivity; [apply count_tfilter_le|apply H1].
  - apply consistent_with_approved; [done| |by apply keys_ok_tmap; [intros r; destruct (aj_archivable u r)|]].
    intros u' j'. rewrite count_tmap; [apply H2|]. intros r. by destruct (aj_archivable u r).
  - by apply (replace_row_consistent d u
                (fun i => {| sc_id := i; sc_user_id := u;
                             sc_stop_scan_flag := stop; sc_scan_active := false |})).
  - by apply (replace_row_consistent d u
                (fun i => {| sc_id := i; sc_user_id := u;
                             sc_stop_scan_flag := false; sc_scan_active := active |})).
Qed.

Ltac keeps_op :=
  repeat first [ apply keeps_op_map | apply keeps_try_print | apply keeps_get_conn ].

(** A property every statement keeps is kept by every operation. *)
Lemma perform_keeps P o :
  (forall now q d, P d -> P (snd (run now q d))) -> op_keeps P (perform o).
Proof.
  intros Hrun.
  destruct o; simpl;
    unfold insert_stub, row_missing_details, update_details, mark_job_as_analyzed,
      approve_job, mark_job_as_applied, delete_approved_job, clear_all_approved_jobs,
      clear_all_discovered_jobs, archive_all_applied_jobs, set_stop_scan_flag,
      should_stop_scan, set_scan_active, is_scan_active;
    keeps_op;
    unfold insert_stub_tx, row_missing_details_tx, update_details_tx,
      mark_job_as_analyzed_tx, approve_job_tx, mark_job_as_applied_tx,
      delete_approved_job_tx, clear_all_approved_jobs_tx, clear_all_discovered_jobs_tx,
      archive_all_applied_jobs_tx, set_stop_scan_flag_tx, should_stop_scan_tx,
      set_scan_active_tx, is_scan_active_tx;
    keeps_tx; apply keeps_execute; intros; by apply Hrun.
Qed.

Lemma init_db_keeps P :
  (forall now q d, P d -> P (snd (run now q d))) -> op_keeps P init_db.
Proof.
  intros Hrun ev w Hw. unfold init_db, try_except.
  assert (Hg : op_keeps P (get_conn init_db_tx)).
  { apply keeps_get_conn. unfold init_db_tx, create_single_user_tables, ensure_admin_user.
    keeps_tx; apply keeps_execute; intros; by apply Hrun. }
  specialize (Hg ev w Hw). by destruct (get_conn init_db_tx ev w) as [[x|e] w'].
Qed.

(** X1. Every operation of the store, and [init_db], takes a store that
    satisfies the constraints of the schema to one that does. *)
Theorem operations_keep_constraints ev w :
  consistent (disk w) ->
  (forall o, consistent (disk (snd (perform o ev w)))) /\
  consistent (disk (snd (init_db ev w))).
Proof.
  intros Hw. split.
  - intros o. by apply (perform_keeps consistent o run_consistent).
  - by apply (init_db_keeps consistent run_consistent).
Qed.

(** *** Progress is kept *)

Lemma descends_refl d : descends d d.
Proof.
  split; [done|]. split; [done|]. split.
  - intros r Hr _. by exists r.
  - intros a Ha _. by exists a.
Qed.

Lemma descends_with_discovered d0 d t :
  descends d0 d ->
  seq (discovered_jobs d) <= seq t ->
  (forall r', r' ∈ rows t ->
     dj_id r' > seq (discovered_jobs d) \/
     exists r, r ∈ rows (discovered_jobs d) /\ dj_id r = dj_id r' /\
               (dj_analyzed r = true -> dj_analyzed r' = true)) ->
  descends d0 (with_discovered d t).
Proof.
  intros (H1 & H2 & H3 & H4) Hseq Hrows. split; [simpl; lia|]. split; [done|].
  split; [|done]. simpl. intros r' Hr' Hid.
  destruct (Hrows r' Hr') as [Hnew|(r & Hr & Hrid & Hp)]; [lia|].
  destruct (H3 r Hr) as (r0 & Hr0 & Hr0id & Hp0); [lia|].
  exists r0. split; [done|]. split; [congruence|]. auto.
Qed.

Lemma descends_with_approved d0 d t :
  descends d0 d ->
  seq (approved_jobs d) <= seq t ->
  (forall a', a' ∈ rows t ->
     aj_id a' > seq (approved_jobs d) \/
     exists a, a ∈ rows (approved_jobs d) /\ aj_id a = aj_id a' /\
               (forall s, aj_date_applied a = Some s -> aj_date_applied a' = Some s)) ->
  descends d0 (with_approved d t).
Proof.
  intros (H1 & H2 & H3 & H4) Hseq Hrows. split; [done|]. split; [simpl; lia|].
  split; [done|]. simpl. intros a' Ha' Hid.
  destruct (Hrows a' Ha') as [Hnew|(a & Ha & Haid & Hp)]; [lia|].
  destruct (H4 a Ha) as (a0 & Ha0 & Ha0id & Hp0); [lia|].
  exists a0. split; [done|]. split; [congruence|]. auto.
Qed.

Lemma rows_tinsert {A} (key : A -> Z) mk (t : table A) r :
  r ∈ rows (tinsert key mk t) -> r ∈ rows t \/ r = mk (next_id key t).
Proof.
  unfold tinsert. simpl. intros [H|H]%elem_of_app; [by left|right].
  by apply list_elem_of_singleton in H.
Qed.

Lemma rows_tmap {A} (f : A -> A) (t : table A) r :
  r ∈ rows (tmap f t) -> exists x, x ∈ rows t /\ r = f x.
Proof. unfold tmap. simpl. intros (x & -> & Hx)%list_elem_of_fmap. by exists x. Qed.

Lemma rows_tfilter {A} (p : A -> bool) (t : table A) r :
  r ∈ rows (tfilter p t) -> r ∈ rows t.
Proof. unfold tfilter. simpl. by intros [H _]%elem_of_filter. Qed.

(** Every statement keeps the descent. *)
Lemma run_descends d0 now q d : descends d0 d -> descends d0 (snd (run now q d)).
Proof.
  intros Hd. destruct q; simpl; try done; try exact Hd.
  - destruct (to_int64 j) as [job_id|]; [|done].
    destruct (existsb _ _); simpl; [done|].
    apply descends_with_discovered; [done|simpl; pose proof (next_id_gt_seq dj_id (discovered_jobs d)); lia|].
    intros r' [Hr'| ->]%rows_tinsert; [right; by exists r'|left]. simpl.
    pose proof (next_id_gt_seq dj_id (discovered_jobs d)). lia.
  - apply descends_with_discovered; [done|done|].
    intros r' (x & Hx & ->)%rows_tmap. right. exists x. split; [done|].
    by destruct (dj_is u j x).
  - apply descends_with_discovered; [done|done|].
    intros r' (x & Hx & ->)%rows_tmap. right. exists x. split; [done|].
    by destruct (dj_is u j x).
  - destruct (existsb _ _); simpl; [done|].
    apply descends_with_approved; [done|simpl; pose proof (next_id_gt_seq aj_id (approved_jobs d)); lia|].
    intros r' [Hr'| ->]%rows_tinsert; [right; by exists r'|left]. simpl.
    pose proof (next_id_gt_seq aj_id (approved_jobs d)). lia.
  - apply descends_with_approved; [done|done|].
    intros r' (x & Hx & ->)%rows_tmap. right. exists x. split; [done|].
    unfold aj_unapplied. destruct (aj_pk u pk x); simpl; [|done].
    destruct (aj_date_applied x) eqn:E; simpl; [by rewrite E|done].
  - apply descends_with_approved; [done|done|].
    intros r' Hr'%rows_tfilter. right. by exists r'.
  - apply descends_with_approved; [done|done|].
    intros r' Hr'%rows_tfilter. right. by exists r'.
  - apply descends_with_discovered; [done|done|].
    intros r' Hr'%rows_tfilter. right. by exists r'.
  - apply descends_with_approved; [done|done|].
    intros r' (x & Hx & ->)%rows_tmap. right. exists x. split; [done|].
    by destruct (aj_archivable u x).
Qed.

Lemma same_key {A} (key : A -> Z) (l : list A) x y :
  NoDup (key <$> l) -> x ∈ l -> y ∈ l -> key x = key y -> x = y.
Proof.
  induction l as [|z l IH]; csimpl; intros Hnd Hx Hy Hk; [by apply elem_of_nil in Hx|].
  apply NoDup_cons in Hnd as [Hz Hnd].
  apply elem_of_cons in Hx as [->|Hx]; apply elem_of_cons in Hy as [->|Hy]; auto.
  - destruct Hz. rewrite Hk. by apply list_elem_of_fmap_2.
  - destruct Hz. rewrite <- Hk. by apply list_elem_of_fmap_2.
Qed.

Lemma descends_keeps_progress d d' :
  consistent d -> descends d d' -> keeps_progress d d'.
Proof.
  intros (_ & _ & _ & [Hnd1 Hle1] & [Hnd2 Hle2] & _) (_ & _ & H3 & H4).
  rewrite Forall_forall in Hle1. rewrite Forall_forall in Hle2. split.
  - intros r r' Hr Hr' Hid Han.
    destruct (H3 r' Hr') as (r0 & Hr0 & Hr0id & Hp); [rewrite Hid; by apply Hle1|].
    assert (r0 = r) as -> by (apply (same_key dj_id (rows (discovered_jobs d))); auto; congruence).
    auto.
  - intros a a' t Ha Ha' Hid Happ.
    destruct (H4 a' Ha') as (a0 & Ha0 & Ha0id & Hp); [rewrite Hid; by apply Hle2|].
    assert (a0 = a) as -> by (apply (same_key aj_id (rows (approved_jobs d))); auto; congruence).
    auto.
Qed.

(** X2. No operation of the store undoes progress: a discovered job that
    was analyzed stays analyzed for as long as it is stored, and an
    application timestamp, once set, stays as it is for as long as the
    approval is stored. *)
Theorem operations_keep_progress o ev w :
  consistent (disk w) -> keeps_progress (disk w) (disk (snd (perform o ev w))).
Proof.
  intros Hw. apply descends_keeps_progress; [done|].
  apply (perform_keeps (descends (disk w)) o (run_descends (disk w))).
  apply descends_refl.
Qed.

(** *** Approvals refer to stored jobs *)

Lemma references_with_discovered d t :
  references_ok d ->
  (forall r, r ∈ rows (discovered_jobs d) ->
     exists r', r' ∈ rows t /\ dj_id r' = dj_id r /\ dj_user_id r' = dj_user_id r) ->
  references_ok (with_discovered d t).
Proof.
  intros Hd Ht a Ha. destruct (Hd a Ha) as (r & Hr & Hid & Hu).
  destruct (Ht r Hr) as (r' & Hr' & Hid' & Hu'). exists r'. simpl.
  split; [done|]. split; congruence.
Qed.

Lemma references_with_approved d t :
  references_ok d ->
  (forall a, a ∈ rows t ->
     (exists a0, a0 ∈ rows (approved_jobs d) /\
                 aj_discovered_job_id a = aj_discovered_job_id a0 /\
                 aj_user_id a = aj_user_id a0) \/
     exists r, r ∈ rows (discovered_jobs d) /\
               dj_id r = aj_discovered_job_id a /\ dj_user_id r = aj_user_id a) ->
  references_ok (with_approved d t).
Proof.
  intros Hd Ht a Ha. simpl in *.
  destruct (Ht a Ha) as [(a0 & Ha0 & Hid & Hu)|H]; [|done].
  destruct (Hd a0 Ha0) as (r & Hr & Hid' & Hu'). exists r. split; [done|]. split; congruence.
Qed.

(** The statements other than the INSERT into approved_jobs and the
    DELETE on discovered_jobs keep the references whatever their
    parameters. *)
Lemma run_references now q d :
  (forall u dj reason, q <> InsertOrIgnoreApproved u dj reason) ->
  (forall u, q <> DeleteDiscoveredOf u) ->
  references_ok d -> references_ok (snd (run now q d)).
Proof.
  intros Hins Hdel Hd. destruct q; simpl; try done; try exact Hd.
  - destruct (to_int64 j) as [job_id|]; [|done].
    destruct (existsb _ _); simpl; [done|].
    apply references_with_discovered; [done|]. intros r Hr. exists r.
    split; [|done]. unfold tinsert. simpl. apply elem_of_app. by left.
  - apply references_with_discovered; [done|]. intros r Hr.
    eexists. split; [by apply list_elem_of_fmap_2|]. by destruct (dj_is u j r).
  - apply references_with_discovered; [done|]. intros r Hr.
    eexists. split; [by apply list_elem_of_fmap_2|]. by destruct (dj_is u j r).
  - by destruct (Hins u d0 reason).
  - apply references_with_approved; [done|]. intros a (x & Hx & ->)%rows_tmap.
    left. exists x. split; [done|]. by destruct (aj_unapplied u pk x).
  - apply references_with_approved; [done|]. intros a Ha%rows_tfilter. left. by exists a.
  - apply references_with_approved; [done|]. intros a Ha%rows_tfilter. left. by exists a.
  - by destruct (Hdel u).
  - apply references_with_approved; [done|]. intros a (x & Hx & ->)%rows_tmap.
    left. exists x. split; [done|]. by destruct (aj_archivable u x).
Qed.

Lemma approve_keeps_references j reason :
  tx_keeps references_ok (approve_job_tx j reason).
Proof.
  intros ev c Hc. unfold approve_job_tx, tx_bind, execute.
  destruct (fails ev (calls c)); [done|]. simpl.
  destruct (binds _); [|done]. simpl.
  unfold fetchone. simpl. rewrite head_filter_find.
  destruct (List.find _ _) as [r|] eqn:Hfind; simpl; [|done].
  destruct (fails ev (S (calls c))); [done|]. simpl.
  apply List.find_some in Hfind as [Hr Hj]. apply list_elem_of_In in Hr.
  apply dj_is_true in Hj as [Hu _].
  destruct (existsb _ _); simpl; [done|].
  apply references_with_approved; [done|].
  intros a [Ha| ->]%rows_tinsert; [left; by exists a|right].
  exists r. by simpl.
Qed.

Lemma clear_discovered_keeps_references :
  tx_keeps references_ok clear_all_discovered_jobs_tx.
Proof.
  intros ev c Hc. unfold clear_all_discovered_jobs_tx, tx_bind, execute.
  assert (Hmid : references_ok
            (with_approved (cur c)
               (tfilter (fun r => negb (aj_of ADMIN_USER_ID r)) (approved_jobs (cur c))))).
  { apply references_with_approved; [done|]. intros a Ha%rows_tfilter. left. by exists a. }
  destruct (fails ev (calls c)); [done|]. simpl.
  destruct (fails ev (S (calls c))); [done|]. simpl.
  intros a Ha. simpl in Ha. apply elem_of_filter in Ha as [Ha Hu].
  destruct (Hc a Ha) as (r & Hr & Hid & Hur). exists r. simpl.
  split; [|done]. apply elem_of_filter. split; [done|].
  unfold dj_of, aj_of in *. by rewrite Hur.
Qed.

(** X3. Every operation of the store keeps the approvals attached: in
    the store it leaves, each approved row refers to a discovered row of
    the same user. *)
Theorem operations_keep_references o ev w :
  references_ok (disk w) -> references_ok (disk (snd (perform o ev w))).
Proof.
  revert ev w. change (op_keeps references_ok (perform o)).
  destruct o; simpl;
    unfold insert_stub, row_missing_details, update_details, mark_job_as_analyzed,
      approve_job, mark_job_as_applied, delete_approved_job, clear_all_approved_jobs,
      clear_all_discovered_jobs, archive_all_applied_jobs, set_stop_scan_flag,
      should_stop_scan, set_scan_active, is_scan_active;
    keeps_op;
    first
      [ apply approve_keeps_references
      | apply clear_discovered_keeps_references
      | unfold insert_stub_tx, row_missing_details_tx, update_details_tx,
          mark_job_as_analyzed_tx, mark_job_as_applied_tx,
          delete_approved_job_tx, clear_all_approved_jobs_tx,
          archive_all_applied_jobs_tx, set_stop_scan_flag_tx, should_stop_scan_tx,
          set_scan_active_tx, is_scan_active_tx;
        keeps_tx; apply keeps_execute; intros; by apply run_references ].
Qed.

(** *** Single operations *)

Lemma one_query {A} q (f : list (list sqlval) -> A) ev w :
  reliable ev ->
  get_conn (tx_bind (fetchall q) (fun rows => tx_ret (f rows))) ev w =
  (Ok (f (answer q (disk w))),
   {| disk := disk w; out := out w; journal := journal w |}).
Proof.
  intros Hev. unfold get_conn, tx_bind, fetchall, tx_ret, commit, connect. simpl.
  repeat (progress (rewrite ?Hev; simpl)). by rewrite !app_nil_r.
Qed.

Lemma find_fmap {A} (p : A -> bool) (f : A -> A) (l : list A) :
  (forall x, p (f x) = p x) -> List.find p (f <$> l) = f <$> List.find p l.
Proof.
  intros H. induction l as [|x l IH]; csimpl; [done|].
  rewrite H. by destruct (p x).
Qed.

Lemma find_app_none {A} (p : A -> bool) (l k : list A) :
  List.find p l = None -> List.find p (l ++ k) = List.find p k.
Proof. induction l as [|x l IH]; simpl; [done|]. by destruct (p x). Qed.

Lemma find_none_existsb {A} (p : A -> bool) (l : list A) :
  List.find p l = None <-> existsb p l = false.
Proof. induction l as [|x l IH]; simpl; [done|]. by destruct (p x). Qed.

Lemma row_missing_details_reliable j ev w :
  reliable ev -> fits_int64 j = true ->
  fst (row_missing_details j ev w) =
  Ok match List.find (dj_is ADMIN_USER_ID j) (rows (discovered_jobs (disk w))) with
     | None => true
     | Some r => is_none (dj_title r)
     end.
Proof.
  intros Hev Hj. unfold row_missing_details, row_missing_details_tx.
  rewrite one_statement by done. simpl. unfold fetchone. simpl.
  rewrite head_filter_find. destruct (List.find _ _) as [r|]; simpl; [|done].
  by destruct (dj_title r).
Qed.

(** X4. [update_details] overwrites: afterwards [row_missing_details]
    says whether the title just written is None, for a stored job; for a
    job that is not stored [update_details] changes nothing (on any
    connection) and [row_missing_details] stays True. A stub just
    inserted misses its details. *)
Theorem details_round_trip j title desc ev ev' w :
  fits_int64 j = true -> reliable ev -> reliable ev' ->
  let stored := existsb (dj_is ADMIN_USER_ID j) (rows (discovered_jobs (disk w))) in
  fst (row_missing_details j ev' (snd (update_details j title desc ev w))) =
    Ok (if stored then is_none title else true) /\
  (stored = false ->
   forall ev0, disk (snd (update_details j title desc ev0 w)) = disk w) /\
  (stored = false ->
   forall url location keyword,
     fst (row_missing_details j ev'
            (snd (insert_stub j url location keyword ev w))) = Ok true).
Proof.
  intros Hj Hev Hev' stored. subst stored. split; [|split].
  - rewrite row_missing_details_reliable by done.
    unfold update_details, update_details_tx. rewrite one_statement by done. simpl.
    rewrite find_fmap
      by (intros x; destruct (dj_is ADMIN_USER_ID j x) eqn:E; [exact E|done]).
    destruct (List.find _ _) as [r|] eqn:Hfind; simpl.
    + pose proof Hfind as [_ Hr]%List.find_some. rewrite Hr. simpl.
      destruct (existsb _ _) eqn:E; [done|].
      apply find_none_existsb in E. congruence.
    + apply find_none_existsb in Hfind. by rewrite Hfind.
  - intros Habsent ev0. unfold update_details, update_details_tx.
    destruct (one_statement_cases (UpdateDetails title desc ADMIN_USER_ID j)
                (fun _ => tt) ev0 w) as [->|(e & w' & -> & Hd & _)]; [|done].
    simpl. unfold tmap.
    rewrite (map_id_of_none _ (fun r => _) _ (filter_nil_of_existsb _ _ Habsent)).
    rewrite table_eta. unfold with_discovered. simpl. apply db_eta.
  - intros Habsent url location keyword.
    rewrite row_missing_details_reliable by done.
    unfold insert_stub, insert_stub_tx, try_except. rewrite one_statement by done.
    cbn [run fst snd]. destruct (to_int64_fits j Hj) as (job_id & -> & Hid).
    rewrite Habsent. simpl.
    rewrite find_app_none by (by apply find_none_existsb).
    simpl. unfold dj_is. simpl. by rewrite Hid, !Z.eqb_refl.
Qed.

Lemma fmap_idem {A} (f : A -> A) (l : list A) :
  (forall x, f (f x) = f x) -> f <$> (f <$> l) = f <$> l.
Proof. intros H. induction l as [|x l IH]; csimpl; [done|]. by rewrite H, IH. Qed.

Lemma filter_fmap_none {A} (p : A -> bool) (f : A -> A) (l : list A) :
  (forall x, p (f x) = false) -> List.filter p (f <$> l) = [].
Proof. intros H. induction l as [|x l IH]; csimpl; [done|]. by rewrite H. Qed.

Lemma filter_length_mono {A} (p q : A -> bool) (l : list A) :
  (forall x, p x = true -> q x = true) ->
  (length (List.filter p l) <= length (List.filter q l))%nat.
Proof.
  intros H. induction l as [|x l IH]; simpl; [done|].
  destruct (p x) eqn:E; [rewrite (H x E); simpl; lia|].
  destruct (q x); simpl; lia.
Qed.

Lemma count_pos_ltb {A} (p : A -> bool) (t : table A) :
  (0 <? Z.of_nat (count p t)) = existsb p (rows t).
Proof.
  destruct (existsb p (rows t)) eqn:E.
  - pose proof (count_pos_of_existsb _ _ E). apply Z.ltb_lt. lia.
  - by rewrite (count_zero _ _ E).
Qed.

Lemma unanalyzed_listing ev w :
  reliable ev ->
  fst (get_unanalyzed_jobs ev w) =
  Ok ((fun r => (int64_val (dj_job_id r), default EmptyString (dj_description r))) <$>
        List.filter (dj_unanalyzed ADMIN_USER_ID) (rows (discovered_jobs (disk w)))).
Proof.
  intros Hev. unfold get_unanalyzed_jobs, get_unanalyzed_jobs_tx.
  rewrite one_query by done. simpl. f_equal.
  rewrite <- list_fmap_compose. apply list_fmap_ext. intros i r _. simpl.
  by destruct (dj_description r).
Qed.

(** X5. [get_unanalyzed_jobs] lists exactly the owner's jobs that have a
    description and are not analyzed, each with its description.
    [mark_job_as_analyzed] takes the job off that list, and marking it
    again changes nothing. *)
Theorem analyzed_jobs_leave_the_queue j ev ev' ev'' w :
  fits_int64 j = true -> reliable ev -> reliable ev' -> reliable ev'' ->
  (exists l, fst (get_unanalyzed_jobs ev' w) = Ok l /\
     forall j' desc,
       (j', desc) ∈ l <->
       exists r, r ∈ rows (discovered_jobs (disk w)) /\
                 dj_user_id r = ADMIN_USER_ID /\ int64_val (dj_job_id r) = j' /\
                 dj_analyzed r = false /\ dj_description r = Some desc) /\
  (exists l, fst (get_unanalyzed_jobs ev' (snd (mark_job_as_analyzed j ev w))) = Ok l /\
     forall desc, (j, desc) ∉ l) /\
  disk (snd (mark_job_as_analyzed j ev'' (snd (mark_job_as_analyzed j ev w)))) =
    disk (snd (mark_job_as_analyzed j ev w)).
Proof.
  intros Hj Hev Hev' Hev''. split; [|split].
  - eexists. split; [by apply unanalyzed_listing|]. intros j' desc. split.
    + intros (r & [= -> Hd] & [Hr Hp]%elem_of_filter)%list_elem_of_fmap.
      exists r. unfold dj_unanalyzed, dj_of in Hp.
      apply andb_prop in Hp as [[Hu Ha]%andb_prop Hn].
      apply Z.eqb_eq in Hu. apply negb_true_iff in Ha.
      destruct (dj_description r); [by simpl in *; subst|done].
    + intros (r & Hr & Hu & <- & Ha & Hd). apply list_elem_of_fmap.
      exists r. rewrite Hd. split; [done|]. apply elem_of_filter. split; [done|].
      unfold dj_unanalyzed, dj_of. rewrite Hu, Ha, Hd. by rewrite Z.eqb_refl.
  - eexists. split; [by apply unanalyzed_listing|]. intros desc.
    unfold mark_job_as_analyzed, mark_job_as_analyzed_tx. rewrite one_statement by done.
    simpl. intros (r & [= Hjr _] & [Hr Hp]%elem_of_filter)%list_elem_of_fmap.
    apply list_elem_of_fmap in Hr as (x & -> & _).
    unfold dj_unanalyzed, dj_of in Hp.
    destruct (dj_is ADMIN_USER_ID j x) eqn:E; simpl in *.
    + by rewrite andb_false_r in Hp.
    + apply andb_prop in Hp as [[Hu _]%andb_prop _].
      unfold dj_is in E. rewrite Hu in E. simpl in E. apply Z.eqb_neq in E. congruence.
  - unfold mark_job_as_analyzed, mark_job_as_analyzed_tx.
    rewrite !one_statement by done. simpl. unfold with_discovered, tmap. simpl.
    rewrite fmap_idem; [done|].
    intros x. destruct (dj_is ADMIN_USER_ID j x) eqn:E; [|by rewrite E].
    unfold dj_is in *. simpl. by rewrite E.
Qed.

(** X6. [delete_approved_job] on a connection that works returns whether
    the owner had an approval with that key, removes it and nothing
    else, and leaves the discovered jobs alone; deleting again returns
    False on any connection. *)
Theorem delete_approved_job_spec pk ev ev' w :
  reliable ev ->
  let w' := snd (delete_approved_job pk ev w) in
  fst (delete_approved_job pk ev w) =
    Ok (existsb (aj_pk ADMIN_USER_ID pk) (rows (approved_jobs (disk w)))) /\
  rows (approved_jobs (disk w')) =
    List.filter (fun r => negb (aj_pk ADMIN_USER_ID pk r)) (rows (approved_jobs (disk w))) /\
  discovered_jobs (disk w') = discovered_jobs (disk w) /\
  fst (delete_approved_job pk ev' w') = Ok false.
Proof.
  intros Hev w'. subst w'. unfold delete_approved_job, delete_approved_job_tx, try_except.
  rewrite one_statement by done. simpl.
  split; [by rewrite count_pos_ltb|]. split; [done|]. split; [done|].
  destruct (one_statement_cases (DeleteApproved ADMIN_USER_ID pk)
              (fun cursor => 0 <? rowcount cursor) ev'
              {| disk := with_approved (disk w)
                           (tfilter (fun r => negb (aj_pk ADMIN_USER_ID pk r))
                              (approved_jobs (disk w)));
                 out := out w;
                 journal := journal w ++ [DeleteApproved ADMIN_USER_ID pk] |})
    as [->|(e & w1 & -> & _)]; [|done].
  simpl. by rewrite count_tfilter_negb.
Qed.

(** X7. [archive_all_applied_jobs] on a connection that works returns
    the number of the owner's approvals that are applied and not
    archived, and archives them; none is left to archive, so a second
    call returns 0 and changes nothing. Approvals that were not applied,
    or archived already, are left as they are. *)
Theorem archive_all_applied_jobs_spec ev ev' w :
  reliable ev -> reliable ev' ->
  let w' := snd (archive_all_applied_jobs ev w) in
  fst (archive_all_applied_jobs ev w) =
    Ok (Z.of_nat (count (aj_archivable ADMIN_USER_ID) (approved_jobs (disk w)))) /\
  count (aj_archivable ADMIN_USER_ID) (approved_jobs (disk w')) = 0%nat /\
  fst (archive_all_applied_jobs ev' w') = Ok 0 /\
  disk (snd (archive_all_applied_jobs ev' w')) = disk w' /\
  (forall a, a ∈ rows (approved_jobs (disk w)) ->
             aj_archivable ADMIN_USER_ID a = false ->
             a ∈ rows (approved_jobs (disk w'))).
Proof.
  intros Hev Hev' w'. subst w'.
  unfold archive_all_applied_jobs, archive_all_applied_jobs_tx.
  rewrite !one_statement by done. simpl.
  assert (Hnone : List.filter (aj_archivable ADMIN_USER_ID)
            (rows (tmap (fun r => if aj_archivable ADMIN_USER_ID r
               then {| aj_id := aj_id r; aj_user_id := aj_user_id r;
                       aj_discovered_job_id := aj_discovered_job_id r;
                       aj_reason := aj_reason r; aj_date_approved := aj_date_approved r;
                       aj_date_applied := aj_date_applied r;
                       aj_is_archived := Some true |}
               else r) (approved_jobs (disk w)))) = []).
  { apply filter_fmap_none. intros x.
    destruct (aj_archivable ADMIN_USER_ID x) eqn:E; [|done].
    unfold aj_archivable. simpl. apply andb_false_r. }
  split; [done|]. unfold count. rewrite Hnone. simpl.
  split; [done|]. split; [done|]. split.
  - unfold with_approved, tmap. simpl. f_equal. f_equal.
    apply (map_id_of_none (aj_archivable ADMIN_USER_ID) (fun r => _)). exact Hnone.
  - intros a Ha Hna. apply (list_elem_of_fmap_2' _ _ a); [done|]. by rewrite Hna.
Qed.

(** X8. [clear_all_approved_jobs] on a connection that works returns the
    number of the owner's approvals and removes them all; the discovered
    jobs and the approvals of other users stay. *)
Theorem clear_all_approved_jobs_spec ev w :
  reliable ev ->
  let w' := snd (clear_all_approved_jobs ev w) in
  fst (clear_all_approved_jobs ev w) =
    Ok (Z.of_nat (count (aj_of ADMIN_USER_ID) (approved_jobs (disk w)))) /\
  count (aj_of ADMIN_USER_ID) (approved_jobs (disk w')) = 0%nat /\
  discovered_jobs (disk w') = discovered_jobs (disk w) /\
  (forall a, a ∈ rows (approved_jobs (disk w)) -> aj_user_id a <> ADMIN_USER_ID ->
             a ∈ rows (approved_jobs (disk w'))).
Proof.
  intros Hev w'. subst w'. unfold clear_all_approved_jobs, clear_all_approved_jobs_tx.
  rewrite one_statement by done. simpl.
  split; [done|]. split; [apply count_tfilter_negb|]. split; [done|].
  intros a Ha Hu. apply elem_of_filter. split; [done|].
  unfold aj_of. apply negb_true_iff. by apply Z.eqb_neq.
Qed.

Lemma missing_content_listing ev w :
  reliable ev ->
  fst (get_jobs_missing_content ev w) =
  Ok ((fun r => (int64_val (dj_job_id r), dj_url r)) <$>
        List.filter (dj_missing_content ADMIN_USER_ID) (rows (discovered_jobs (disk w)))).
Proof.
  intros Hev. unfold get_jobs_missing_content, get_jobs_missing_content_tx.
  rewrite one_query by done. simpl. f_equal.
  rewrite <- list_fmap_compose. by apply list_fmap_ext.
Qed.

(** X9. [get_jobs_missing_content] lists exactly the owner's jobs without
    a title or without a description, each with its URL. A stored job
    for which [row_missing_details] answers True is on the list, and a
    job whose title and description [update_details] has just set is
    not. *)
Theorem missing_content_listing_spec j ev ev' ev'' w :
  fits_int64 j = true -> reliable ev -> reliable ev' -> reliable ev'' ->
  (exists l, fst (get_jobs_missing_content ev w) = Ok l /\
     (forall j' url,
        (j', url) ∈ l <->
        exists r, r ∈ rows (discovered_jobs (disk w)) /\
                  dj_user_id r = ADMIN_USER_ID /\ int64_val (dj_job_id r) = j' /\
                  dj_url r = url /\
                  (dj_title r = None \/ dj_description r = None)) /\
     (existsb (dj_is ADMIN_USER_ID j) (rows (discovered_jobs (disk w))) = true ->
      fst (row_missing_details j ev' w) = Ok true ->
      exists url, (j, url) ∈ l)) /\
  (forall title desc,
     exists l, fst (get_jobs_missing_content ev
                      (snd (update_details j (Some title) (Some desc) ev'' w))) = Ok l /\
               forall url, (j, url) ∉ l).
Proof.
  intros Hj Hev Hev' Hev''. split.
  - eexists. split; [by apply missing_content_listing|].
    assert (Hin : forall r, r ∈ rows (discovered_jobs (disk w)) ->
              dj_user_id r = ADMIN_USER_ID ->
              dj_title r = None \/ dj_description r = None ->
              r ∈ List.filter (dj_missing_content ADMIN_USER_ID)
                    (rows (discovered_jobs (disk w)))).
    { intros r Hr Hu Hm. apply elem_of_filter. split; [done|].
      unfold dj_missing_content, dj_of. rewrite Hu, Z.eqb_refl. simpl.
      destruct Hm as [-> | ->]; [done|apply orb_true_r]. }
    split.
    + intros j' url. split.
      * intros (r & [= -> ->] & [Hr Hp]%elem_of_filter)%list_elem_of_fmap.
        exists r. unfold dj_missing_content, dj_of in Hp.
        apply andb_prop in Hp as [Hu Hm]. apply Z.eqb_eq in Hu.
        repeat split; try done.
        destruct (dj_title r); [|by left]. destruct (dj_description r); [done|by right].
      * intros (r & Hr & Hu & <- & <- & Hm). apply list_elem_of_fmap.
        exists r. split; [done|]. by apply Hin.
    + intros Hstored Hmiss. rewrite row_missing_details_reliable in Hmiss by done.
      destruct (List.find _ _) as [r|] eqn:Hfind.
      * apply List.find_some in Hfind as [Hr [Hu Hjr]%dj_is_true].
        apply list_elem_of_In in Hr. exists (dj_url r).
        apply list_elem_of_fmap. exists r. split; [by rewrite Hjr|].
        apply Hin; [done|done|]. left. destruct (dj_title r); [by injection Hmiss|done].
      * apply find_none_existsb in Hfind. congruence.
  - intros title desc. eexists. split; [by apply missing_content_listing|].
    intros url. unfold update_details, update_details_tx. rewrite one_statement by done.
    simpl. intros (r & [= Hjr _] & [Hr Hp]%elem_of_filter)%list_elem_of_fmap.
    apply list_elem_of_fmap in Hr as (x & -> & _).
    unfold dj_missing_content, dj_of in Hp.
    destruct (dj_is ADMIN_USER_ID j x) eqn:E; simpl in *.
    + by rewrite andb_false_r in Hp.
    + apply andb_prop in Hp as [Hu _].
      unfold dj_is in E. rewrite Hu in E. simpl in E. apply Z.eqb_neq in E. congruence.
Qed.

Lemma get_scan_status_reliable ev ev' w :
  reliable ev -> reliable ev' ->
  exists st, fst (get_scan_status ev w) = Ok st /\
    fst (is_scan_active ev' w) = Ok (is_active st) /\
    fst (should_stop_scan ev' w) = Ok (should_stop st).
Proof.
  intros Hev Hev'. unfold get_scan_status, try_except.
  unfold get_conn, get_scan_status_tx, tx_bind, fetchall, tx_ret, connect.
  repeat (progress (rewrite ?Hev; simpl)). eexists. split; [reflexivity|]. simpl.
  unfold is_scan_active, should_stop_scan, is_scan_active_tx, should_stop_scan_tx.
  rewrite !one_statement by done. simpl. unfold fetchone. simpl.
  split; by destruct (List.filter (sc_of ADMIN_USER_ID) (rows (user_scan_control (disk w)))).
Qed.

(** X10. [get_scan_status] never raises: on a connection that fails it
    prints one line and returns the status with both flags False and all
    counters 0. Its counters satisfy
    0 <= total_applied <= total_approved and
    0 <= total_analyzed <= total_discovered, it leaves the store as it
    is, and on a connection that works its flags are those that
    [is_scan_active] and [should_stop_scan] return and its discovered
    counter is the number of the owner's discovered jobs. *)
Theorem get_scan_status_spec ev w :
  exists st w',
    get_scan_status ev w = (Ok st, w') /\ disk w' = disk w /\
    0 <= total_applied st <= total_approved st /\
    0 <= total_analyzed st <= total_discovered st /\
    (forall e w1, get_conn get_scan_status_tx ev w = (Raise e, w1) ->
       st = {| is_active := false; should_stop := false; total_discovered := 0;
               total_approved := 0; total_applied := 0; total_analyzed := 0 |} /\
       out w' = out w1 ++ ["Error getting scan status: " +:+ str e]) /\
    (reliable ev ->
     forall ev', reliable ev' ->
       fst (is_scan_active ev' w) = Ok (is_active st) /\
       fst (should_stop_scan ev' w) = Ok (should_stop st) /\
       total_discovered st =
         Z.of_nat (count (dj_of ADMIN_USER_ID) (discovered_jobs (disk w)))).
Proof.
  unfold get_scan_status, try_except.
  destruct (get_conn get_scan_status_tx ev w) as [[st|e] w'] eqn:Hrun.
  - (* the two queries ran *)
    assert (Hst : disk w' = disk w /\
              st = {| is_active := match head (answer (SelectScanControl ADMIN_USER_ID) (disk w)) with
                                   | Some r => truthy (column 1 r) | None => false end;
                      should_stop := match head (answer (SelectScanControl ADMIN_USER_ID) (disk w)) with
                                     | Some r => truthy (column 0 r) | None => false end;
                      total_discovered := Z.of_nat (count (dj_of ADMIN_USER_ID) (discovered_jobs (disk w)));
                      total_approved := Z.of_nat (count (aj_unarchived ADMIN_USER_ID) (approved_jobs (disk w)));
                      total_applied := Z.of_nat (count (aj_applied_unarchived ADMIN_USER_ID) (approved_jobs (disk w)));
                      total_analyzed := Z.of_nat (count (dj_analyzed_of ADMIN_USER_ID) (discovered_jobs (disk w))) |}).
    { revert Hrun. unfold get_conn, get_scan_status_tx, tx_bind, fetchall, tx_ret, connect.
      simpl. destruct (fails ev 0%nat); [done|]. destruct (fails ev 1%nat); [done|].
      simpl. destruct (fails ev 2%nat); [done|]. simpl.
      destruct (fails ev 3%nat); [done|]. by intros [= <- <-]. }
    destruct Hst as [Hd ->]. eexists. exists w'. split; [reflexivity|]. split; [done|]. simpl.
    split; [|split; [|split]].
    + split; [lia|]. apply inj_le. apply filter_length_mono.
      intros x. unfold aj_applied_unarchived. by intros [H _]%andb_prop.
    + split; [lia|]. apply inj_le. apply filter_length_mono.
      intros x. unfold dj_analyzed_of. by intros [H _]%andb_prop.
    + done.
    + intros Hev ev' Hev'.
      unfold is_scan_active, should_stop_scan, is_scan_active_tx, should_stop_scan_tx.
      rewrite !one_statement by done. simpl. unfold fetchone. simpl.
      split; [|split; [|done]];
        by destruct (List.filter (sc_of ADMIN_USER_ID) (rows (user_scan_control (disk w)))).
  - eexists _, _. unfold_op. split; [reflexivity|]. simpl.
    split; [by apply (get_conn_rollback _ _ _ _ _ Hrun)|]. split; [lia|]. split; [lia|].
    split; [by intros e0 w1 [= <- <-]|].
    intros Hev. revert Hrun.
    unfold get_conn, get_scan_status_tx, tx_bind, fetchall, tx_ret, connect.
    simpl. by rewrite !Hev.
Qed.

Lemma init_db_reliable ev w :
  reliable ev ->
  init_db ev w =
  (Ok tt,
   {| disk := if existsb (fun r => u_id r =? ADMIN_USER_ID) (users (disk w))
              then disk w
              else with_users (disk w)
                     (users (disk w) ++
                      [{| u_id := ADMIN_USER_ID; u_email := "admin@localhost";
                          u_name := "Admin User" |}]);
      out := out w ++ ["✅ Single-user database initialized"];
      journal := journal w ++
                 SelectMasterTables :: SelectUser ADMIN_USER_ID ::
                 (if existsb (fun r => u_id r =? ADMIN_USER_ID) (users (disk w))
                  then [] else [InsertAdminUser ADMIN_USER_ID]) |}).
Proof.
  intros Hev. unfold init_db, init_db_tx, ensure_admin_user. unfold_op.
  repeat (progress (rewrite ?Hev; simpl)). unfold fetchone. simpl.
  destruct (existsb _ _) eqn:E.
  - destruct (List.filter _ (users (disk w))) as [|r l] eqn:F.
    + by rewrite (existsb_of_filter_nil _ _ F) in E.
    + simpl. by repeat (progress (rewrite ?Hev; simpl)).
  - rewrite (filter_nil_of_existsb _ _ E). simpl.
    by repeat (progress (rewrite ?Hev; simpl)).
Qed.




(** X13. A job id that does not fit a signed 64-bit integer is in no row
    of the store, and no operation gets it there: on a connection that
    works, [row_missing_details], [update_details] and
    [mark_job_as_analyzed] raise the OverflowError of [sqlite3], and
    [approve_job] catches it and returns False; the store is left as it
    was. *)
Theorem job_id_out_of_range j ev w :
  fits_int64 j = false -> reliable ev ->
  let overflow := OverflowError "Python int too large to convert to SQLite INTEGER" in
  count (dj_is ADMIN_USER_ID j) (discovered_jobs (disk w)) = 0%nat /\
  fst (row_missing_details j ev w) = Raise overflow /\
  disk (snd (row_missing_details j ev w)) = disk w /\
  (forall title desc,
     fst (update_details j title desc ev w) = Raise overflow /\
     disk (snd (update_details j title desc ev w)) = disk w) /\
  fst (mark_job_as_analyzed j ev w) = Raise overflow /\
  disk (snd (mark_job_as_analyzed j ev w)) = disk w /\
  (forall reason,
     fst (approve_job j reason ev w) = Ok false /\
     disk (snd (approve_job j reason ev w)) = disk w).
Proof.
  intros Hj Hev overflow. subst overflow.
  unfold row_missing_details, row_missing_details_tx, update_details, update_details_tx,
    mark_job_as_analyzed, mark_job_as_analyzed_tx.
  split; [unfold count; by rewrite no_row_out_of_range|].
  rewrite !one_statement_overflow by done. simpl.
  split; [done|]. split; [done|].
  split; [intros title desc; by rewrite one_statement_overflow by done|].
  split; [done|]. split; [done|].
  intros reason. unfold approve_job, approve_job_tx. unfold_op. rewrite !Hev. simpl.
  unfold binds. simpl. by rewrite Hj.
Qed.

(** *** The theorems at sample inputs *)

Lemma consistent_sample : consistent (disk sample_world).
Proof.
  assert (Hone : forall {A} (p : A -> bool) (x : A), (length (List.filter p [x]) <= 1)%nat).
  { intros A p x. simpl. destruct (p x); simpl; lia. }
  assert (Hkeys : forall {A} (key : A -> Z) (x : A),
            key x <= 1 -> keys_ok key {| rows := [x]; seq := 1 |}).
  { intros A key x Hx. split; simpl; [apply NoDup_singleton|by constructor]. }
  split; [intros u j; apply Hone|]. split; [intros u j; apply Hone|].
  split; [intros u; apply Hone|].
  split; [by apply Hkeys|]. split; by apply Hkeys.
Qed.

Lemma references_ok_sample : references_ok (disk sample_world).
Proof.
  intros a Ha. simpl in Ha. apply list_elem_of_singleton in Ha as ->.
  eexists. split; [by apply list_elem_of_singleton|by split].
Qed.

Lemma operations_keep_constraints_witness :
  consistent (disk sample_world) /\
  consistent (disk (snd (perform (op_insert_stub 42 "https://x.example/jobs/view/42"
                                     "Remote" "engineer") noon sample_world))).
Proof.
  split; [exact consistent_sample|].
  apply (operations_keep_constraints noon sample_world consistent_sample).
Defined.

Lemma operations_keep_progress_witness :
  keeps_progress (disk sample_world)
    (disk (snd (perform (op_mark_job_as_applied 1) noon sample_world))).
Proof.
  exact (operations_keep_progress (op_mark_job_as_applied 1) noon sample_world
           consistent_sample).
Defined.

Lemma operations_keep_references_witness :
  references_ok (disk (snd (perform op_clear_all_discovered_jobs noon sample_world))).
Proof.
  exact (operations_keep_references op_clear_all_discovered_jobs noon sample_world
           references_ok_sample).
Defined.

Lemma details_round_trip_witness :
  fst (row_missing_details 3847261012 noon
         (snd (update_details 3847261012 (Some "Engineer") (Some "Build things.")
                 noon sample_world))) = Ok false.
Proof.
  exact (proj1 (details_round_trip 3847261012 (Some "Engineer") (Some "Build things.")
                  noon noon sample_world eq_refl reliable_noon reliable_noon)).
Defined.

Lemma analyzed_jobs_leave_the_queue_witness :
  exists l,
    fst (get_unanalyzed_jobs noon (snd (mark_job_as_analyzed 3847261012 noon sample_world)))
      = Ok l /\
    forall desc, (3847261012, desc) ∉ l.
Proof.
  exact (proj1 (proj2 (analyzed_jobs_leave_the_queue 3847261012 noon noon noon sample_world
                         eq_refl reliable_noon reliable_noon reliable_noon))).
Defined.

Lemma delete_approved_job_spec_witness :
  fst (delete_approved_job 1 noon sample_world) = Ok true /\
  fst (delete_approved_job 1 failing_second_execute
         (snd (delete_approved_job 1 noon sample_world))) = Ok false.
Proof.
  destruct (delete_approved_job_spec 1 noon failing_second_execute sample_world reliable_noon)
    as (H1 & _ & _ & H4).
  split; [exact H1|exact H4].
Defined.

Lemma archive_all_applied_jobs_spec_witness :
  let w := snd (mark_job_as_applied 1 noon sample_world) in
  fst (archive_all_applied_jobs noon w) = Ok 1 /\
  fst (archive_all_applied_jobs noon (snd (archive_all_applied_jobs noon w))) = Ok 0.
Proof.
  destruct (archive_all_applied_jobs_spec noon noon
              (snd (mark_job_as_applied 1 noon sample_world)) reliable_noon reliable_noon)
    as (H1 & _ & H3 & _).
  split; [exact H1|exact H3].
Defined.

Lemma clear_all_approved_jobs_spec_witness :
  fst (clear_all_approved_jobs noon sample_world) = Ok 1 /\
  discovered_jobs (disk (snd (clear_all_approved_jobs noon sample_world))) =
    discovered_jobs sample_db.
Proof.
  destruct (clear_all_approved_jobs_spec noon sample_world reliable_noon)
    as (H1 & _ & H3 & _).
  split; [exact H1|exact H3].
Defined.

Lemma missing_content_listing_spec_witness :
  exists l,
    fst (get_jobs_missing_content noon
           (snd (update_details 3847261012 (Some "Engineer") (Some "Build things.")
                   noon sample_world))) = Ok l /\
    forall url, (3847261012, url) ∉ l.
Proof.
  exact (proj2 (missing_content_listing_spec 3847261012 noon noon noon sample_world
                  eq_refl reliable_noon reliable_noon reliable_noon)
           "Engineer" "Build things.").
Defined.

Lemma job_id_out_of_range_witness :
  fst (row_missing_details 9223372036854775808 noon sample_world) =
    Raise (OverflowError "Python int too large to convert to SQLite INTEGER") /\
  fst (approve_job 9223372036854775808 "fits" noon sample_world) = Ok false.
Proof.
  destruct (job_id_out_of_range 9223372036854775808 noon sample_world eq_refl reliable_noon)
    as (_ & H2 & _ & _ & _ & _ & H7).
  split; [exact H2|exact (proj1 (H7 "fits"))].
Defined.

End StoreInvariants.

(** ** The request handlers *)

Module AppFacts.
Import Db StoreFacts Evaluate.



(** X15. The handlers over [archive_all_applied_jobs] and
    [clear_all_approved_jobs] do report a store failure: they answer
    success = False with "Error: " and the text of the exception, and the
    store is as it was. On a connection that works they answer success
    with the count in the message. *)
Theorem handlers_report_store_failures ev w :
  (forall e w1, archive_all_applied_jobs ev w = (Raise e, w1) ->
     App.archive_applied_jobs ev w =
       (Ok {| App.success := false; App.message := "Error: " +:+ str e |}, w1) /\
     disk w1 = disk w) /\
  (forall e w1, clear_all_approved_jobs ev w = (Raise e, w1) ->
     App.clear_all_approved ev w =
       (Ok {| App.success := false; App.message := "Error: " +:+ str e |}, w1) /\
     disk w1 = disk w) /\
  (reliable ev ->
   fst (App.archive_applied_jobs ev w) =
     Ok {| App.success := true;
           App.message := "Archived " +:+
             str_of_int (Z.of_nat (count (aj_archivable ADMIN_USER_ID)
                                     (approved_jobs (disk w)))) +:+
             " applied jobs" |} /\
   fst (App.clear_all_approved ev w) =
     Ok {| App.success := true;
           App.message := "Cleared " +:+
             str_of_int (Z.of_nat (count (aj_of ADMIN_USER_ID)
                                     (approved_jobs (disk w)))) +:+
             " approved jobs" |}).
Proof.
  split; [|split].
  - intros e w1 H. unfold App.archive_applied_jobs, try_except, op_bind. rewrite H.
    split; [done|]. by apply (get_conn_rollback _ _ _ _ _ H).
  - intros e w1 H. unfold App.clear_all_approved, try_except, op_bind. rewrite H.
    split; [done|]. by apply (get_conn_rollback _ _ _ _ _ H).
  - intros Hev.
    unfold App.archive_applied_jobs, App.clear_all_approved, try_except, op_bind,
      archive_all_applied_jobs, clear_all_approved_jobs,
      archive_all_applied_jobs_tx, clear_all_approved_jobs_tx.
    rewrite !one_statement by done. by split.
Qed.

End AppFacts.

(** ** Uninterrupted calls of the scan controller *)

Module ScanCalls.
Import Db Scan ScanFacts.






(** [start_scan] from idle when the import succeeds: what happens is
    decided by [init_db] and [set_stop_scan_flag]. *)
Lemma start_scan_idle ev s :
  scan_lock s = None -> thread_alive s = false ->
  exists s', scan_lock s' = None /\ scan_stop_signal s' = false /\
    match init_db ev (sys s) with
    | (Raise e, w1) =>
        start_scan ev None s = Some (failed_to_start e, s') /\
        threads s' = threads s /\ scan_thread s' = scan_thread s /\ sys s' = w1
    | (Ok _, w1) =>
        match set_stop_scan_flag false ev w1 with
        | (Raise e, w2) =>
            start_scan ev None s = Some (failed_to_start e, s') /\
            threads s' = threads s /\ scan_thread s' = scan_thread s /\ sys s' = w2
        | (Ok _, w2) =>
            start_scan ev None s = Some (Outcome true "Scan started successfully", s') /\
            threads s' = threads s ++ [InBody] /\
            scan_thread s' = Some (length (threads s)) /\ sys s' = w2
        end
    end.
Proof.
  intros Hl Ha. unfold start_scan, call.
  set (i := length (callers s)). set (s0 := set_callers _ s).
  assert (H0 : callers s0 !! i = Some StartAcquire) by apply (entered s StartScan).
  erewrite drive_step; [|exact H0|done|unfold caller_step; rewrite H0; simpl; by rewrite Hl].
  set (s1 := goto i StartCheck _).
  assert (H1 : callers s1 !! i = Some StartCheck) by (by eapply goto_at).
  erewrite drive_step; [|exact H1|done|
    unfold caller_step; rewrite H1; by replace (thread_alive s1) with false].
  set (s2 := goto i StartClear s1).
  assert (H2 : callers s2 !! i = Some StartClear) by (by eapply goto_at).
  erewrite drive_step; [|exact H2|done|unfold caller_step; by rewrite H2].
  set (s3 := goto i StartImport _).
  assert (H3 : callers s3 !! i = Some StartImport) by (by eapply goto_at).
  erewrite drive_step; [|exact H3|done|unfold caller_step; by rewrite H3].
  set (s4 := goto i StartInit _).
  assert (H4 : callers s4 !! i = Some StartInit) by (by eapply goto_at).
  assert (Hsys4 : sys s4 = sys s) by done.
  destruct (init_db ev (sys s)) as [[[]|e] w1] eqn:Hinit.
  - erewrite drive_step; [|exact H4|done|unfold caller_step; by rewrite H4, Hsys4, Hinit].
    set (s5 := goto i StartFlag _).
    assert (H5 : callers s5 !! i = Some StartFlag) by (by eapply goto_at).
    assert (Hsys5 : sys s5 = w1) by done.
    destruct (set_stop_scan_flag false ev w1) as [[[]|e] w2] eqn:Hflag.
    + erewrite drive_step; [|exact H5|done|unfold caller_step; by rewrite H5, Hsys5, Hflag].
      set (s6 := goto i StartCreate _).
      assert (H6 : callers s6 !! i = Some StartCreate) by (by eapply goto_at).
      erewrite drive_step; [|exact H6|done|unfold caller_step; by rewrite H6].
      set (s7 := goto i StartLaunch _).
      assert (H7 : callers s7 !! i = Some StartLaunch) by (by eapply goto_at).
      erewrite drive_step; [|exact H7|done|unfold caller_step; by rewrite H7].
      set (s8 := goto i (Leave _) _).
      assert (H8 : callers s8 !! i = Some (Leave (Outcome true "Scan started successfully")))
        by (by eapply goto_at).
      erewrite drive_step; [|exact H8|done|unfold caller_step; by rewrite H8].
      set (s9 := goto i (Returned _) _).
      assert (H9 : callers s9 !! i = Some (Returned (Outcome true "Scan started successfully")))
        by (by eapply goto_at).
      rewrite (drive_done _ _ _ _ _ _ H9). exists s9.
      do 3 (split; [done|]). split; [|done]. simpl.
      rewrite insert_app_r_alt, Nat.sub_diag by done. done.
    + erewrite drive_step; [|exact H5|done|unfold caller_step; by rewrite H5, Hsys5, Hflag].
      set (s6 := goto i (Leave _) _).
      assert (H6 : callers s6 !! i = Some (Leave (failed_to_start e))) by (by eapply goto_at).
      erewrite drive_step; [|exact H6|done|unfold caller_step; by rewrite H6].
      set (s7 := goto i (Returned _) _).
      assert (H7 : callers s7 !! i = Some (Returned (failed_to_start e)))
        by (by eapply goto_at).
      rewrite (drive_done _ _ _ _ _ _ H7). by exists s7.
  - erewrite drive_step; [|exact H4|done|unfold caller_step; by rewrite H4, Hsys4, Hinit].
    set (s5 := goto i (Leave _) _).
    assert (H5 : callers s5 !! i = Some (Leave (failed_to_start e))) by (by eapply goto_at).
    erewrite drive_step; [|exact H5|done|unfold caller_step; by rewrite H5].
    set (s6 := goto i (Returned _) _).
    assert (H6 : callers s6 !! i = Some (Returned (failed_to_start e)))
      by (by eapply goto_at).
    rewrite (drive_done _ _ _ _ _ _ H6). by exists s6.
Qed.

(** [get_scan_status] in any state whose lock is free. *)
Lemma get_scan_status_reads ev oops s :
  scan_lock s = None ->
  exists s', get_scan_status ev oops s =
               Some (Status (thread_alive s) (scan_stop_signal s), s') /\
             threads s' = threads s /\ scan_thread s' = scan_thread s /\
             scan_stop_signal s' = scan_stop_signal s /\ sys s' = sys s /\
             scan_lock s' = None.
Proof.
  intros Hl. unfold get_scan_status, call.
  set (i := length (callers s)). set (s0 := set_callers _ s).
  assert (H0 : callers s0 !! i = Some StatusAcquire) by apply (entered s GetScanStatus).
  erewrite drive_step; [|exact H0|done|unfold caller_step; rewrite H0; simpl; by rewrite Hl].
  set (s1 := goto i StatusAlive _).
  assert (H1 : callers s1 !! i = Some StatusAlive) by (by eapply goto_at).
  erewrite drive_step; [|exact H1|done|unfold caller_step; by rewrite H1].
  replace (thread_alive s1) with (thread_alive s) by done.
  set (s2 := goto i (StatusSignal _) s1).
  assert (H2 : callers s2 !! i = Some (StatusSignal (thread_alive s))) by (by eapply goto_at).
  erewrite drive_step; [|exact H2|done|unfold caller_step; by rewrite H2].
  replace (scan_stop_signal s2) with (scan_stop_signal s) by done.
  set (s3 := goto i (Leave _) s2).
  assert (H3 : callers s3 !! i = Some (Leave (Status (thread_alive s) (scan_stop_signal s))))
    by (by eapply goto_at).
  erewrite drive_step; [|exact H3|done|unfold caller_step; by rewrite H3].
  set (s4 := goto i (Returned _) _).
  assert (H4 : callers s4 !! i = Some (Returned (Status (thread_alive s) (scan_stop_signal s))))
    by (by eapply goto_at).
  rewrite (drive_done _ _ _ _ _ _ H4). by exists s4.
Qed.

Lemma idle_of_no_live s : (forall t, ~ live s t) -> thread_alive s = false.
Proof.
  intros Hno. unfold thread_alive. destruct (scan_thread s) as [t|]; [|done].
  destruct (threads s !! t) as [w|] eqn:Hw; [|done].
  destruct (is_alive w) eqn:Ha; [|done]. destruct (Hno t). by exists w.
Qed.

Lemma persisted_stop_flag_disk s s' :
  disk (sys s') = disk (sys s) -> persisted_stop_flag s' = persisted_stop_flag s.
Proof.
  intros Hd. unfold persisted_stop_flag, should_stop_scan, should_stop_scan_tx.
  rewrite !StoreFacts.one_statement by done. simpl. by rewrite Hd.
Qed.

(** X16. [start_scan] called while no task is live, the lock is free and
    the store works returns (True, "Scan started successfully"); it has
    constructed one thread and started it, that thread is then the only
    live task, both stop flags are cleared and the lock is free again. *)
Theorem start_scan_starts_one_task ev s :
  scan_lock s = None -> (forall t, ~ live s t) -> reliable ev ->
  exists s',
    start_scan ev None s = Some (Outcome true "Scan started successfully", s') /\
    threads s' = threads s ++ [InBody] /\
    (forall t, live s' t <-> t = length (threads s)) /\
    thread_alive s' = true /\
    scan_stop_signal s' = false /\ persisted_stop_flag s' = false /\
    scan_lock s' = None.
Proof.
  intros Hl Hno Hev. pose proof (idle_of_no_live s Hno) as Ha.
  destruct (start_scan_idle ev s Hl Ha) as (s' & Hl' & Hsig & H).
  rewrite StoreInvariants.init_db_reliable in H by done.
  destruct (set_stop_scan_flag false ev _) as [[[]|e] w2] eqn:Hflag.
  - destruct H as (Hrun & Hthr & Hst & Hsys). exists s'.
    split; [done|]. split; [done|]. split; [|split; [|split; [done|split; [|done]]]].
    + intros t. split.
      * intros (w & Hw & Hw'). rewrite Hthr in Hw.
        apply lookup_app_Some in Hw as [Hw|[Hlen Hw]].
        -- destruct (Hno t). by exists w.
        -- destruct (t - length (threads s))%nat eqn:E; [lia|done].
      * intros ->. exists InBody. split; [|done].
        by rewrite Hthr, lookup_app_r, Nat.sub_diag.
    + unfold thread_alive. by rewrite Hst, Hthr, lookup_app_r, Nat.sub_diag.
    + by eapply stop_flag_written.
  - unfold set_stop_scan_flag, set_stop_scan_flag_tx in Hflag.
    by rewrite StoreFacts.one_statement in Hflag.
Qed.


(** X18. [stop_scan] while a task is live and the store write fails
    returns (False, "Failed to send stop signal: " + the error), yet the
    in-memory signal is set, so the task is asked to stop all the same;
    the persisted flag is what it was. *)
Theorem stop_scan_reports_store_failure ev oops s e w :
  scan_lock s = None -> thread_alive s = true ->
  set_stop_scan_flag true ev (sys s) = (Raise e, w) ->
  exists s',
    stop_scan ev oops s =
      Some (Outcome false ("Failed to send stop signal: " +:+ str e), s') /\
    scan_stop_signal s' = true /\
    persisted_stop_flag s' = persisted_stop_flag s /\
    disk (sys s') = disk (sys s) /\
    threads s' = threads s /\ scan_lock s' = None.
Proof.
  intros Hl Ha Hw.
  destruct (stop_scan_live ev oops s Hl Ha) as (r & s' & Hrun & Hthr & _ & Hsig & Hl' & Hsys & Hr).
  rewrite Hw in Hsys, Hr. simpl in Hsys, Hr. subst r. exists s'.
  assert (Hd : disk (sys s') = disk (sys s)).
  { rewrite Hsys. by apply (StoreFacts.get_conn_rollback _ _ _ _ _ Hw). }
  split; [done|]. split; [done|]. split; [by apply persisted_stop_flag_disk|]. done.
Qed.

(** X19. [get_scan_status] with the lock free returns and changes nothing
    but the lock it takes and frees: 'stop_requested' is the in-memory
    signal, and in a state the process can reach 'is_running' is True
    exactly when a scan task is live. *)
Theorem get_scan_status_is_a_read ev oops s :
  reachable s -> scan_lock s = None ->
  exists b s',
    get_scan_status ev oops s = Some (Status b (scan_stop_signal s), s') /\
    (b = true <-> exists t, live s t) /\
    threads s' = threads s /\ scan_thread s' = scan_thread s /\
    scan_stop_signal s' = scan_stop_signal s /\ sys s' = sys s /\
    scan_lock s' = None.
Proof.
  intros Hs Hl. destruct (get_scan_status_reads ev oops s Hl) as (s' & Hrun & H).
  exists (thread_alive s), s'. split; [done|]. split; [|done].
  apply thread_alive_live. by apply reachable_inv.
Qed.


(** X21. After a successful [start_scan] the two status views differ:
    [utils.get_scan_status] reports is_running True, while the persisted
    view of [database.get_scan_status] reports is_active False, because
    the row written by [set_stop_scan_flag(False)] carries the default
    scan_active and nothing in [start_scan] sets it. *)
Theorem status_views_after_start ev ev1 oops1 s :
  scan_lock s = None -> (forall t, ~ live s t) -> reliable ev -> reliable ev1 ->
  exists s' s'' st,
    start_scan ev None s = Some (Outcome true "Scan started successfully", s') /\
    Scan.get_scan_status ev1 oops1 s' = Some (Status true false, s'') /\
    fst (Db.get_scan_status ev1 (sys s')) = Ok st /\
    is_active st = false /\ should_stop st = false.
Proof.
  intros Hl Hno Hev Hev1. pose proof (idle_of_no_live s Hno) as Ha.
  destruct (start_scan_idle ev s Hl Ha) as (s' & Hl' & Hsig & H).
  rewrite StoreInvariants.init_db_reliable in H by done.
  unfold set_stop_scan_flag, set_stop_scan_flag_tx in H.
  rewrite StoreFacts.one_statement in H by done.
  destruct H as (Hrun & Hthr & Hst & Hsys).
  assert (Ha' : thread_alive s' = true).
  { unfold thread_alive. by rewrite Hst, Hthr, lookup_app_r, Nat.sub_diag. }
  destruct (get_scan_status_reads ev1 oops1 s' Hl') as (s'' & Hrun' & _).
  rewrite Ha', Hsig in Hrun'.
  destruct (StoreInvariants.get_scan_status_reliable ev1 ev1 (sys s') Hev1 Hev1)
    as (st & Hview & Hact & Hstop).
  exists s', s'', st. split; [done|]. split; [done|]. split; [done|].
  revert Hact Hstop. rewrite Hsys.
  unfold is_scan_active, should_stop_scan, is_scan_active_tx, should_stop_scan_tx.
  rewrite !StoreFacts.one_statement by done. simpl.
  rewrite List.filter_app, StoreFacts.filter_negb_filter. simpl.
  intros [= <-] [= <-]. done.
Qed.

(** *** The theorems at sample inputs *)

Lemma no_live_initial w t : ~ live (initial w) t.
Proof. intros (x & Hx & _). simpl in Hx. by rewrite lookup_nil in Hx. Qed.

Lemma start_scan_starts_one_task_witness :
  exists s',
    start_scan noon None (initial sample_world) =
      Some (Outcome true "Scan started successfully", s') /\
    threads s' = [InBody] /\ thread_alive s' = true.
Proof.
  destruct (start_scan_starts_one_task noon (initial sample_world) eq_refl
              (no_live_initial sample_world) StoreFacts.reliable_noon)
    as (s' & H1 & H2 & _ & H4 & _).
  exists s'. split; [exact H1|]. split; [exact H2|exact H4].
Defined.


Lemma thread_alive_running : thread_alive running = true.
Proof. by vm_compute. Qed.

Lemma scan_lock_running : scan_lock running = None.
Proof. by vm_compute. Qed.

Lemma stop_scan_reports_store_failure_witness :
  exists s',
    stop_scan failing_second_execute None running =
      Some (Outcome false "Failed to send stop signal: disk I/O error", s') /\
    scan_stop_signal s' = true.
Proof.
  destruct (stop_scan_reports_store_failure failing_second_execute None running
              (OperationalError "disk I/O error")
              (snd (set_stop_scan_flag true failing_second_execute (sys running)))
              scan_lock_running thread_alive_running)
    as (s' & H1 & H2 & _); [by vm_compute|].
  exists s'. split; [exact H1|exact H2].
Defined.

Lemma get_scan_status_is_a_read_witness :
  exists b s',
    get_scan_status noon None running = Some (Status b false, s') /\ sys s' = sys running.
Proof.
  destruct (get_scan_status_is_a_read noon None running reachable_running scan_lock_running)
    as (b & s' & H1 & _ & _ & _ & _ & H6 & _).
  exists b, s'. split; [exact H1|exact H6].
Defined.


Lemma status_views_after_start_witness :
  exists s' s'' st,
    start_scan noon None (initial sample_world) =
      Some (Outcome true "Scan started successfully", s') /\
    Scan.get_scan_status noon None s' = Some (Status true false, s'') /\
    fst (Db.get_scan_status noon (sys s')) = Ok st /\
    is_active st = false.
Proof.
  destruct (status_views_after_start noon noon None (initial sample_world) eq_refl
              (no_live_initial sample_world) StoreFacts.reliable_noon
              StoreFacts.reliable_noon) as (s' & s'' & st & H1 & H2 & H3 & H4 & _).
  exists s', s'', st. split; [exact H1|]. split; [exact H2|]. split; [exact H3|exact H4].
Defined.

End ScanCalls.

(** ** Exclusion keywords, prompts and batches *)

Module EvaluateRequests.
Import Evaluate.

(** *** Exclusion keywords *)

Lemma match_word_spec word : forall s rest,
  match_word word s = Some rest <->
  exists mid, s = mid ++ rest /\ Forall2 (fun a c => same_letter a c = true) word mid.
Proof.
  induction word as [|a word IH]; intros s rest; simpl.
  - split.
    + intros [= ->]. exists []. split; [done|constructor].
    + intros (mid & -> & Hmid). by inversion Hmid.
  - destruct s as [|c s].
    + split; [done|]. intros (mid & Hs & Hmid). inversion Hmid; subst. done.
    + destruct (same_letter a c) eqn:Hac.
      * rewrite IH. split.
        -- intros (mid & -> & Hmid). exists (c :: mid). split; [done|by constructor].
        -- intros (mid & Hs & Hmid). inversion Hmid as [|? c' ? mid' Hc Hmid']; subst.
           injection Hs as <- ->. by exists mid'.
      * split; [done|]. intros (mid & Hs & Hmid).
        inversion Hmid as [|? c' ? mid' Hc Hmid']; subst. injection Hs as <- ->. congruence.
Qed.

Lemma before_cons prev c pre : before prev (c :: pre) = before (Some c) pre.
Proof.
  unfold before. destruct pre as [|c' pre]; [done|]. rewrite last_cons_cons.
  destruct (last (c' :: pre)) eqn:E; [done|]. by apply last_None in E.
Qed.

Lemma search_word_spec word s : forall prev,
  search_word prev word s = true <->
  exists pre mid post,
    s = pre ++ mid ++ post /\
    Forall2 (fun a c => same_letter a c = true) word mid /\
    not_after_word (before prev pre) = true /\ not_before_word post = true.
Proof.
  induction s as [|c s IH]; intros prev.
  - simpl. rewrite orb_false_r. split.
    + intros [Hprev Hm]%andb_prop.
      destruct (match_word word []) as [rest|] eqn:E; [|done].
      apply match_word_spec in E as (mid & Hs & Hmid).
      symmetry in Hs. apply app_eq_nil in Hs as [-> ->].
      by exists [], [], [].
    + intros (pre & mid & post & Hs & Hmid & Hprev & Hpost).
      symmetry in Hs. apply app_eq_nil in Hs as [-> [-> ->]%app_eq_nil].
      unfold before in Hprev. simpl in Hprev. rewrite Hprev. simpl.
      assert (E : match_word word [] = Some []) by (apply match_word_spec; by exists []).
      by rewrite E.
  - cbn [search_word]. split.
    + intros [[Hprev Hm]%andb_prop|Hrest]%orb_prop.
      * destruct (match_word word (c :: s)) as [rest|] eqn:E; [|done].
        apply match_word_spec in E as (mid & Hs & Hmid).
        by exists [], mid, rest.
      * apply IH in Hrest as (pre & mid & post & -> & Hmid & Hprev & Hpost).
        exists (c :: pre), mid, post. split; [done|]. split; [done|].
        by rewrite before_cons.
    + intros (pre & mid & post & Hs & Hmid & Hprev & Hpost).
      destruct pre as [|c' pre].
      * simpl in Hs. unfold before in Hprev. simpl in Hprev. rewrite Hprev. simpl.
        assert (E : match_word word (c :: s) = Some post)
          by (apply match_word_spec; by exists mid).
        by rewrite E, Hpost.
      * simpl in Hs. injection Hs as <- ->. rewrite before_cons in Hprev.
        apply orb_true_iff. right. apply IH. by exists pre, mid, post.
Qed.

(** X22. [contains_exclusions] is False when no keyword list, or an empty
    one, is given. Otherwise it is True exactly when the title contains
    one of the keywords as a whole word, letter case aside: a stretch of
    the title that equals the keyword up to the case of its letters, with
    no word character just before it and none just after. *)
Theorem contains_exclusions_spec title words :
  contains_exclusions title None = false /\
  contains_exclusions title (Some []) = false /\
  (contains_exclusions title (Some words) = true <->
   exists word pre mid post,
     word ∈ words /\
     list_ascii_of_string title = pre ++ mid ++ post /\
     Forall2 (fun a c => lower_char a = lower_char c) (list_ascii_of_string word) mid /\
     (forall c, last pre = Some c -> is_word c = false) /\
     (forall c, head post = Some c -> is_word c = false)).
Proof.
  split; [done|]. split; [done|].
  assert (Hsame : forall l m,
            Forall2 (fun a c => same_letter a c = true) l m <->
            Forall2 (fun a c => lower_char a = lower_char c) l m).
  { intros l m. split; intros H; induction H; constructor; auto;
      unfold same_letter in *; by apply Ascii.eqb_eq. }
  assert (Hex : existsb (fun word => search_word None (list_ascii_of_string word)
                           (list_ascii_of_string title)) words = true <->
                exists word pre mid post,
                  word ∈ words /\
                  list_ascii_of_string title = pre ++ mid ++ post /\
                  Forall2 (fun a c => lower_char a = lower_char c)
                    (list_ascii_of_string word) mid /\
                  (forall c, last pre = Some c -> is_word c = false) /\
                  (forall c, head post = Some c -> is_word c = false)).
  { rewrite existsb_exists. split.
    - intros (word & Hin & Hs). apply search_word_spec in Hs
        as (pre & mid & post & Ht & Hmid & Hprev & Hpost).
      exists word, pre, mid, post. split; [by apply list_elem_of_In|].
      split; [done|]. split; [by apply Hsame|]. split.
      + intros c Hc. unfold before in Hprev. rewrite Hc in Hprev. simpl in Hprev.
        by apply negb_true_iff.
      + intros c Hc. destruct post as [|c' post]; [done|]. injection Hc as ->.
        by apply negb_true_iff.
    - intros (word & pre & mid & post & Hin & Ht & Hmid & Hpre & Hpost).
      exists word. split; [by apply list_elem_of_In|].
      apply search_word_spec. exists pre, mid, post.
      split; [done|]. split; [by apply Hsame|]. split.
      + unfold before. destruct (last pre) as [c|] eqn:E; [|done]. simpl.
        by rewrite (Hpre c).
      + destruct post as [|c post]; [done|]. simpl. by rewrite (Hpost c). }
  destruct words as [|w ws]; [|exact Hex].
  simpl. split; [done|]. intros (word & _ & _ & _ & Hin & _). by apply elem_of_nil in Hin.
Qed.

(** *** Prompts *)

Lemma sanitize_text_ascii s : ascii_only (sanitize_text s).
Proof.
  unfold ascii_only. induction s as [|c s IH]; simpl; [constructor|].
  destruct (nat_of_ascii c <? 128)%nat eqn:E; [|done].
  simpl. constructor; [by apply Nat.ltb_lt|done].
Qed.

Lemma sanitize_text_id s : ascii_only s -> sanitize_text s = s.
Proof.
  unfold ascii_only. induction s as [|c s IH]; simpl; [done|].
  intros H. inversion H as [|? ? Hc Hs]; subst.
  apply Nat.ltb_lt in Hc. rewrite Hc. f_equal. by apply IH.
Qed.

(** *** Strings *)

Lemma prefix_app p s : String.prefix p (p +:+ s) = true.
Proof.
  induction p as [|c p IH]; simpl; [by destruct s|].
  destruct (ascii_dec c c); [exact IH|done].
Qed.

Lemma prefix_app_l p q s : String.prefix (p +:+ q) s = true -> String.prefix p s = true.
Proof.
  revert s. induction p as [|c p IH]; intros s H; [by destruct s|].
  destruct s as [|c' s]; [done|].
  change (String c p +:+ q) with (String c (p +:+ q)) in H. simpl in *. revert H.
  destruct (ascii_dec c c'); [apply IH|done].
Qed.

Lemma length_append p s : String.length (p +:+ s) = (String.length p + String.length s)%nat.
Proof. induction p as [|c p IH]; simpl; [done|]. by rewrite IH. Qed.

Lemma substring_all s : String.substring 0 (String.length s) s = s.
Proof. induction s as [|c s IH]; simpl; [done|]. by rewrite IH. Qed.

Lemma substring_skip p s n :
  String.substring (String.length p) n (p +:+ s) = String.substring 0 n s.
Proof. induction p as [|c p IH]; simpl; [done|]. exact IH. Qed.

Lemma substring_front s t : String.substring 0 (String.length s) (s +:+ t) = s.
Proof.
  induction s as [|c s IH]; simpl; [by destruct t|]. by rewrite IH.
Qed.

Lemma drop_prefix_app p s : drop_prefix p (p +:+ s) = Some s.
Proof.
  unfold drop_prefix. rewrite prefix_app, length_append.
  replace (String.length p + String.length s - String.length p)%nat
    with (String.length s) by lia.
  by rewrite substring_skip, substring_all.
Qed.

(** What is left of a text that ends in a fence line. *)
Lemma strip_closing_fence body :
  let t := body +:+ nl +:+ fence in
  let n := String.length t in
  (if (4 <=? n)%nat && String.eqb (String.substring (n - 4) 4 t) (nl +:+ fence)
   then String.substring 0 (n - 4) t else t) = body.
Proof.
  intros t n. subst t n. rewrite length_append. simpl String.length.
  replace (String.length body + 4 - 4)%nat with (String.length body) by lia.
  replace (4 <=? String.length body + 4)%nat with true by (symmetry; apply Nat.leb_le; lia).
  rewrite substring_skip, substring_front. simpl. done.
Qed.

Lemma strip_fence_json body :
  strip_fence (fence +:+ "json" +:+ nl +:+ body +:+ nl +:+ fence) = body.
Proof.
  unfold strip_fence.
  change (fence +:+ "json" +:+ nl +:+ body +:+ nl +:+ fence)
    with ((fence +:+ "json" +:+ nl) +:+ (body +:+ nl +:+ fence)).
  rewrite drop_prefix_app. apply strip_closing_fence.
Qed.

Lemma strip_fence_plain body :
  strip_fence (fence +:+ nl +:+ body +:+ nl +:+ fence) = body.
Proof.
  unfold strip_fence.
  assert (E : drop_prefix (fence +:+ "json" +:+ nl)
                (fence +:+ nl +:+ body +:+ nl +:+ fence) = None) by done.
  rewrite E.
  change (fence +:+ nl +:+ body +:+ nl +:+ fence)
    with ((fence +:+ nl) +:+ (body +:+ nl +:+ fence)).
  rewrite drop_prefix_app. apply strip_closing_fence.
Qed.

Lemma strip_fence_none txt :
  String.prefix fence txt = false ->
  String.substring (String.length txt - 4) 4 txt <> nl +:+ fence ->
  strip_fence txt = txt.
Proof.
  intros Hpre Hsuf. unfold strip_fence, drop_prefix.
  assert (H1 : String.prefix (fence +:+ "json" +:+ nl) txt = false).
  { destruct (String.prefix (fence +:+ "json" +:+ nl) txt) eqn:E; [|done].
    apply prefix_app_l in E. congruence. }
  assert (H2 : String.prefix (fence +:+ nl) txt = false).
  { destruct (String.prefix (fence +:+ nl) txt) eqn:E; [|done].
    apply prefix_app_l in E. congruence. }
  rewrite H1, H2. simpl.
  apply String.eqb_neq in Hsuf. rewrite Hsuf. by rewrite andb_false_r.
Qed.

Section Dispatch.

Context {json : Type}.
Variable get_user_config : Z -> config.
Variable provider : request -> res string.
Variable json_loads : string -> res json.


Lemma configured_test placeholder key :
  ~ not_configured placeholder key ->
  unset key || String.eqb (default EmptyString key) placeholder = false /\
  exists k, key = Some k /\ k <> EmptyString /\ k <> placeholder.
Proof.
  intros H. destruct key as [k|]; [|destruct H; by left].
  assert (Hk : k <> EmptyString).
  { intros ->. destruct H. by left. }
  assert (Hp : k <> placeholder).
  { intros ->. destruct H. by right. }
  split; [|by exists k]. simpl.
  apply String.eqb_neq in Hk, Hp. by rewrite Hk, Hp.
Qed.

(** X23. With the provider "openai" and a key that is configured,
    [analyze_job] sends one request, a chat completion for the model "o3"
    with the configured key, and its prompt is ASCII whatever the job
    description, the resume and the configured evaluation prompt contain;
    the result is the provider's answer parsed as JSON, and an exception
    of the provider or of the parser is not caught. *)
Theorem analyze_job_openai job_description user_id resume :
  let user_config := get_user_config user_id in
  selected_provider user_config = "openai" ->
  ~ not_configured "YOUR_OPENAI_API_KEY_HERE"
      (setting user_config "api_keys" "openai_api_key") ->
  exists key prompt,
    let req := OpenAIChatCompletion key "o3" prompt in
    setting user_config "api_keys" "openai_api_key" = Some key /\
    prompt = sanitize_text (prompt_eligibility job_description user_config resume) /\
    ascii_only prompt /\
    snd (analyze_job get_user_config provider json_loads job_description user_id resume) = [req] /\
    fst (analyze_job get_user_config provider json_loads job_description user_id resume) =
      match provider req with
      | Ok content => json_loads content
      | Raise e => Raise e
      end.
Proof.
  intros user_config Hname Hkey. subst user_config.
  destruct (configured_test _ _ Hkey) as (Htest & key & Hk & _).
  exists key, (sanitize_text (prompt_eligibility job_description (get_user_config user_id) resume)).
  split; [done|]. split; [done|]. split; [apply sanitize_text_ascii|].
  unfold analyze_job. unfold selected_provider in Hname. rewrite Hname. simpl.
  rewrite Htest, Hk. simpl. unfold call_openai. simpl.
  by destruct (provider _).
Qed.

(** X24. With the provider "gemini" and a key that is configured:
    when [genai.configure] raises, [analyze_job] raises a ValueError
    that quotes the error and has asked for no content; otherwise it asks
    for content once, with the prompt unchanged, lets an exception of the
    provider through, and parses the answer after stripping white space
    and the Markdown fence around it. *)
Theorem analyze_job_gemini job_description user_id resume :
  let user_config := get_user_config user_id in
  selected_provider user_config = "gemini" ->
  ~ not_configured "YOUR_GOOGLE_API_KEY_HERE"
      (setting user_config "api_keys" "google_api_key") ->
  exists key,
    let configure := GenaiConfigure key in
    let generate := GenaiGenerateContent _GEMINI_MODEL
                      (prompt_eligibility job_description user_config resume) in
    let outcome := analyze_job get_user_config provider json_loads job_description user_id resume in
    setting user_config "api_keys" "google_api_key" = Some key /\
    (forall e, provider configure = Raise e ->
       outcome = (Raise (ValueError ("Failed to configure Google Gemini API: " +:+ str e)),
                  [configure])) /\
    (forall x e, provider configure = Ok x -> provider generate = Raise e ->
       outcome = (Raise e, [configure; generate])) /\
    (forall x text, provider configure = Ok x -> provider generate = Ok text ->
       snd outcome = [configure; generate] /\
       (forall body, strip text = fence +:+ "json" +:+ nl +:+ body +:+ nl +:+ fence ->
          fst outcome = json_loads body) /\
       (forall body, strip text = fence +:+ nl +:+ body +:+ nl +:+ fence ->
          fst outcome = json_loads body) /\
       (String.prefix fence (strip text) = false ->
        String.substring (String.length (strip text) - 4) 4 (strip text) <> nl +:+ fence ->
        fst outcome = json_loads (strip text))).
Proof.
  intros user_config Hname Hkey. subst user_config.
  destruct (configured_test _ _ Hkey) as (Htest & key & Hk & _).
  exists key. simpl. split; [done|].
  unfold analyze_job. unfold selected_provider in Hname. rewrite Hname. simpl.
  unfold call_gemini. rewrite Htest, Hk. simpl.
  split; [by intros e ->|]. split; [by intros x e -> ->|].
  intros x text -> ->. simpl. split; [done|].
  split; [by intros body ->; rewrite strip_fence_json|].
  split; [by intros body ->; rewrite strip_fence_plain|].
  intros Hpre Hsuf. by rewrite strip_fence_none.
Qed.

(** X25. [batch_analyse_jobs] analyses the descriptions in order. When it
    returns, it returns one verdict per description, each the verdict of
    [analyze_job] for that description, and the requests sent are those
    of the single analyses one after the other. The first analysis that
    raises ends the batch with its exception: the verdicts obtained so far
    are lost and nothing is sent for the descriptions after it. *)
Theorem batch_analyse_jobs_spec job_descriptions user_id resume :
  (forall verdicts sent,
     batch_analyse_jobs get_user_config provider json_loads job_descriptions user_id resume = (Ok verdicts, sent) ->
     Forall2 (fun desc verdict => fst (analyze_job get_user_config provider json_loads desc user_id resume) = Ok verdict)
       job_descriptions verdicts /\
     sent = concat ((fun desc => snd (analyze_job get_user_config provider json_loads desc user_id resume)) <$> job_descriptions)) /\
  (Forall (fun desc => exists v, fst (analyze_job get_user_config provider json_loads desc user_id resume) = Ok v) job_descriptions ->
   exists verdicts sent,
     batch_analyse_jobs get_user_config provider json_loads job_descriptions user_id resume = (Ok verdicts, sent)) /\
  (forall done desc rest e,
     job_descriptions = done ++ desc :: rest ->
     Forall (fun desc => exists v, fst (analyze_job get_user_config provider json_loads desc user_id resume) = Ok v) done ->
     fst (analyze_job get_user_config provider json_loads desc user_id resume) = Raise e ->
     batch_analyse_jobs get_user_config provider json_loads job_descriptions user_id resume =
       (Raise e,
        concat ((fun desc => snd (analyze_job get_user_config provider json_loads desc user_id resume)) <$> done) ++
        snd (analyze_job get_user_config provider json_loads desc user_id resume))).
Proof.
  split; [|split].
  - induction job_descriptions as [|d l IH]; simpl; intros verdicts sent.
    + intros [= <- <-]. split; [constructor|done].
    + destruct (analyze_job get_user_config provider json_loads d user_id resume) as [[v|e] sent1] eqn:E1; [|done].
      destruct (batch_analyse_jobs get_user_config provider json_loads l user_id resume) as [[vs|e] sent2] eqn:E2; [|done].
      intros [= <- <-]. destruct (IH vs sent2 eq_refl) as [Hvs ->].
      split; [|done]. constructor; [by rewrite E1|done].
  - induction job_descriptions as [|d l IH]; simpl; intros Hall; [by eexists _, _|].
    inversion Hall as [|? ? [v Hv] Hl]; subst.
    destruct (analyze_job get_user_config provider json_loads d user_id resume) as [[v'|e] sent1]; [|done].
    destruct (IH Hl) as (vs & sent2 & ->). by eexists _, _.
  - intros done. revert job_descriptions.
    induction done as [|d l IH]; intros job_descriptions desc rest e -> Hall Hraise; simpl.
    + destruct (analyze_job get_user_config provider json_loads desc user_id resume) as [[v|e'] sent1]; simpl in *; congruence.
    + inversion Hall as [|? ? [v Hv] Hl]; subst.
      rewrite (IH _ desc rest e eq_refl Hl Hraise).
      destruct (analyze_job get_user_config provider json_loads d user_id resume) as [[v'|e'] sent1]; [|done].
      simpl. by rewrite app_assoc.
Qed.

End Dispatch.

(** *** The theorems at sample inputs *)

Lemma openai_configured :
  ~ not_configured "YOUR_OPENAI_API_KEY_HERE"
      (setting openai_config "api_keys" "openai_api_key").
Proof. intros [H|H]; by vm_compute in H. Qed.

Lemma gemini_configured :
  ~ not_configured "YOUR_GOOGLE_API_KEY_HERE"
      (setting gemini_config "api_keys" "google_api_key").
Proof. intros [H|H]; by vm_compute in H. Qed.

Lemma analyze_job_openai_witness :
  exists key prompt,
    snd (analyze_job (fun _ => openai_config) (fun _ => Ok "{}") (fun s => Ok s)
           "Build things." 1 None) = [OpenAIChatCompletion key "o3" prompt] /\
    ascii_only prompt.
Proof.
  destruct (analyze_job_openai (fun _ => openai_config) (fun _ => Ok "{}") (fun s => Ok s)
              "Build things." 1 None eq_refl openai_configured)
    as (key & prompt & _ & _ & H3 & H4 & _).
  exists key, prompt. split; [exact H4|exact H3].
Defined.

Lemma analyze_job_gemini_witness :
  exists key,
    analyze_job (fun _ => gemini_config) (fun _ => Raise (ProviderError "invalid key"))
      (fun s => Ok s) "Build things." 1 None =
      (Raise (ValueError "Failed to configure Google Gemini API: invalid key"),
       [GenaiConfigure key]).
Proof.
  destruct (analyze_job_gemini (fun _ => gemini_config)
              (fun _ => Raise (ProviderError "invalid key")) (fun s => Ok s)
              "Build things." 1 None eq_refl gemini_configured)
    as (key & _ & H2 & _).
  exists key. exact (H2 (ProviderError "invalid key") eq_refl).
Defined.

End EvaluateRequests.
